(** * Concurrent pipeline stages: fixed pool, dynamic pool and broadcast

    The three stages of [pool.go] and [bcast.go] are goroutine programs.
    Each one is embedded as a machine: a state holding the program point
    of every goroutine together with the channels, the error sink and the
    cancellation flag they share, and a step function that executes one
    atomic action of one goroutine (or of the environment).  A schedule is
    a list of actions; an execution is the fold of the step function over
    a schedule, and it is [None] as soon as an action is not enabled
    (the goroutine is blocked there, or is not at that program point). *)

From stdpp Require Import gmap list strings pretty.

(** ** Plumbing shared by the stages *)

Section plumbing.
Context {Data : Type}.

(** The [Task] interface: [Process(ctx, data) (Data, error)].  The
    context is seen through its only observable, whether [ctx.Done()]
    is closed when the call is made; a call is one atomic action and
    its result a function of that and of the item.  A nil [Data] and a
    nil [error] are [None]; an error is carried by its message. *)
Class Task := { Process : bool → Data → option Data * option string }.

(** A channel of [Data]: the values waiting in it, and whether it was
    closed. *)
Record chan := Chan { items : list Data; closed : bool }.

(** The [params] struct behind [StageParams].  Channels and error
    sinks are named by their address. *)
Record params := Params { stage : Z; inCh : nat; outCh : nat; errQueue : nat }.

(** What the goroutines of a stage share with the driver. *)
Record world := World {
  done : bool;                        (* ctx.Done() is closed *)
  chans : gmap nat chan;
  sinks : gmap nat (list string);
  processed : list Data;              (* calls of MarkAsProcessed *)
}.

Definition set_done (w : world) : world :=
  World true (chans w) (sinks w) (processed w).

Definition set_chan (c : nat) (ch : chan) (w : world) : world :=
  World (done w) (<[c := ch]> (chans w)) (sinks w) (processed w).

(** [v, ok := <-c].  [None]: the receive blocks (also on a nil
    channel); [Some (None, _)]: the channel is closed and empty, so
    [ok] is false. *)
Definition recv (c : nat) (w : world) : option (option Data * world) :=
  match chans w !! c with
  | None => None
  | Some ch =>
      match items ch with
      | d :: rest => Some (Some d, set_chan c (Chan rest (closed ch)) w)
      | [] => if closed ch then Some (None, w) else None
      end
  end.

(** [c <- d] on a channel whose reader is the driver: the value is
    handed over.  The driver closes a feed only after its writer has
    returned, so a send never meets a closed channel; the machine has
    no step there. *)
Definition send (c : nat) (d : Data) (w : world) : option world :=
  match chans w !! c with
  | None => None
  | Some ch =>
      if closed ch then None
      else Some (set_chan c (Chan (items ch ++ [d]) false) w)
  end.

Definition close (c : nat) (w : world) : option world :=
  match chans w !! c with
  | None => None
  | Some ch =>
      if closed ch then None
      else Some (set_chan c (Chan (items ch) true) w)
  end.

(** [q.Append(e)] on the error sink [q]. *)
Definition Append (q : nat) (e : string) (w : world) : world :=
  World (done w) (chans w)
        (<[q := default [] (sinks w !! q) ++ [e]]> (sinks w)) (processed w).

Definition MarkAsProcessed (d : Data) (w : world) : world :=
  World (done w) (chans w) (sinks w) (processed w ++ [d]).

(** [fmt.Errorf("pipeline stage %d: %v", pos, err)]. *)
Definition Errorf (pos : Z) (err : string) : string :=
  "pipeline stage " +:+ pretty pos +:+ ": " +:+ err.

(** The errors collected so far by the sink [q], the values written so
    far to the feed [c]. *)
Definition errors_of (q : nat) (w : world) : list string :=
  default [] (sinks w !! q).

Definition written_to (c : nat) (w : world) : list Data :=
  from_option items [] (chans w !! c).

(** The driver and the upstream stage: cancellation, a value offered
    on the input feed, the input feed closed. *)
Inductive env_action := Cancel | Feed (d : Data) | CloseInput.

Definition env_step (sp : params) (e : env_action) (w : world) : option world :=
  match e with
  | Cancel => Some (set_done w)
  | Feed d => send (inCh sp) d w
  | CloseInput => close (inCh sp) w
  end.

(** The world a stage is started in: its two feeds are open and
    empty, its error sink is empty, nothing is cancelled. *)
Definition init_world (sp : params) : world :=
  World false
        (<[inCh sp := Chan [] false]> (<[outCh sp := Chan [] false]> ∅))
        (<[errQueue sp := []]> ∅) [].

(** The token pool [chan struct{}] of the dynamic pool: a buffered
    channel holds [len] interchangeable tokens out of [cap]. *)
Record tokens := Tokens { cap : nat; len : nat }.

(** [make(chan struct{}, n)]. *)
Definition make_tokens (n : nat) : tokens := Tokens n 0.

(** [<-tokenPool]: blocks on an empty buffer. *)
Definition take (tp : tokens) : option tokens :=
  match len tp with
  | O => None
  | S n => Some (Tokens (cap tp) n)
  end.

(** [tokenPool <- token]: blocks on a full buffer. *)
Definition give (tp : tokens) : option tokens :=
  if decide (len tp < cap tp) then Some (Tokens (cap tp) (S (len tp))) else None.

Set Warnings "-register-all".

(** The [Stage] interface with its four implementations; [nil] is the
    nil interface value. *)
Inductive Stage :=
| nil
| fifo (proc : Task)
| fixedPool (fifos : list Stage)
| dynamicPool (task : Task) (tokenPool : tokens)
| broadcast (fifos : list Stage).

(** Modelled from the spec: the sequential-stage adapter
    [make_stage(transform) -> Stage] ([FIFO] in the code), which is
    not part of these two files. *)
Definition FIFO (task : Task) : Stage := fifo task.

(** [for i := 0; i < n; i++ { body }] over a state that a blocked
    body leaves at [None]. *)
Fixpoint for_upto {A : Type} (n : nat) (body : nat → A → option A) (i : nat)
    (a : A) : option A :=
  match n with
  | O => Some a
  | S n' => a' ← body i a; for_upto n' body (S i) a'
  end.

(** An execution: the steps of a schedule one after the other, as long
    as each is enabled. *)
Fixpoint exec {S A : Type} (step : A → S → option S) (sched : list A) (s : S)
    : option S :=
  match sched with
  | [] => Some s
  | a :: rest => s' ← step a s; exec step rest s'
  end.

(** How many of the goroutines [rs] have not finished ([fin] tells a
    finished one): what a WaitGroup that was incremented at each [go]
    and decremented by each [wg.Done()] counts. *)
Definition unfinished {A : Type} (fin : A → bool) (rs : gmap nat A) : nat :=
  size (filter (λ kv, fin kv.2 = false) rs).

(** [FixedPool(task, num)]. *)
Definition FixedPool (task : Task) (num : Z) : Stage :=
  if (num <=? 0)%Z then nil
  else fixedPool (replicate (Z.to_nat num) (FIFO task)).

(** [DynamicPool(task, max)].  The constructor fills the pool with
    blocking sends; [None] is a constructor that never returns. *)
Definition DynamicPool (task : Task) (max : Z) : option Stage :=
  if (max <=? 0)%Z then Some nil
  else
    tokenPool ← for_upto (Z.to_nat max) (λ _ tp, give tp) 0
                         (make_tokens (Z.to_nat max));
    Some (dynamicPool task tokenPool).

(** [Broadcast(tasks...)]. *)
Definition Broadcast (tasks : list Task) : Stage :=
  if decide (length tasks = 0) then nil
  else broadcast (FIFO <$> tasks).

End plumbing.

Arguments Task : clear implicits.
Arguments chan : clear implicits.
Arguments world : clear implicits.
Arguments env_action : clear implicits.
Arguments Stage : clear implicits.
Arguments params : clear implicits.

(** The accessor methods of [StageParams]. *)
Abbreviation Position := stage.
Abbreviation Input := inCh.
Abbreviation Output := outCh.
Abbreviation Error := errQueue.

(** ** The dynamic pool: [dynamicPool.Run] *)

Module Dyn.
Section machine.
Context {Data : Type} (task : Task Data) (sp : params).

(** How the body of a worker goroutine came to its end. *)
Inductive outcome := Failed | NoOutput | Written | Aborted.

(** Program points of a worker goroutine [go func(dataIn, token)]:
    before the call of [Process]; in the [select] that writes [dataOut];
    the body is over and the deferred [p.tokenPool <- token] is due. *)
Inductive upc :=
| UStart (dataIn : Data)
| USelect (dataIn dataOut : Data)
| UDefer (o : outcome).

(** Program points of [Run]: the outer [select]; the inner [select]
    holding [dataIn]; the head of the final loop with its counter [i];
    returned. *)
Inductive mpc :=
| MLoop
| MAcquire (dataIn : Data)
| MDrain (i : nat)
| MReturned.

Record state := State {
  w : world Data;
  pool : tokens;              (* p.tokenPool *)
  main : mpc;
  units : gmap nat upc;       (* the live worker goroutines *)
  spawned : nat;              (* how many were launched so far *)
}.

Inductive action :=
| Env (e : env_action Data)
| MainCtxDone                (* Run: a select takes <-ctx.Done() *)
| MainRecv                   (* Run: the outer select takes <-sp.Input() *)
| MainToken                  (* Run: the inner select takes <-p.tokenPool, then go *)
| MainDrain                  (* Run: one turn of the final loop *)
| UnitProcess (u : nat)      (* worker u: Process and what follows up to the select *)
| UnitSend (u : nat)         (* worker u: the select takes sp.Output() <- dataOut *)
| UnitCtxDone (u : nat)      (* worker u: the select takes <-ctx.Done() *)
| UnitRelease (u : nat).     (* worker u: the deferred p.tokenPool <- token *)

Definition with_w (w' : world Data) (s : state) : state :=
  State w' (pool s) (main s) (units s) (spawned s).

Definition with_main (m : mpc) (s : state) : state :=
  State (w s) (pool s) m (units s) (spawned s).

Definition with_pool (tp : tokens) (s : state) : state :=
  State (w s) tp (main s) (units s) (spawned s).

Definition with_unit (u : nat) (pc : upc) (s : state) : state :=
  State (w s) (pool s) (main s) (<[u := pc]> (units s)) (spawned s).

Definition step (a : action) (s : state) : option state :=
  match a with
  | Env e => w' ← env_step sp e (w s); Some (with_w w' s)
  | MainCtxDone =>
      if done (w s) then
        match main s with
        | MLoop => Some (with_main (MDrain 0) s)
        | MAcquire _ => Some (with_main (MDrain 0) s)
        | _ => None
        end
      else None
  | MainRecv =>
      match main s with
      | MLoop =>
          '(r, w') ← recv (Input sp) (w s);
          match r with
          | Some dataIn => Some (with_main (MAcquire dataIn) (with_w w' s))
          | None => Some (with_main (MDrain 0) s)
          end
      | _ => None
      end
  | MainToken =>
      match main s with
      | MAcquire dataIn =>
          tp ← take (pool s);
          Some (State (w s) tp MLoop
                      (<[spawned s := UStart dataIn]> (units s))
                      (S (spawned s)))
      | _ => None
      end
  | MainDrain =>
      match main s with
      | MDrain i =>
          if decide (i < cap (pool s)) then
            tp ← take (pool s);
            Some (with_main (MDrain (S i)) (with_pool tp s))
          else Some (with_main MReturned s)
      | _ => None
      end
  | UnitProcess u =>
      match units s !! u with
      | Some (UStart dataIn) =>
          match Process (done (w s)) dataIn with
          | (_, Some err) =>
              Some (with_unit u (UDefer Failed)
                      (with_w (Append (Error sp) (Errorf (Position sp) err) (w s)) s))
          | (None, None) =>
              Some (with_unit u (UDefer NoOutput)
                      (with_w (MarkAsProcessed dataIn (w s)) s))
          | (Some dataOut, None) =>
              Some (with_unit u (USelect dataIn dataOut) s)
          end
      | _ => None
      end
  | UnitSend u =>
      match units s !! u with
      | Some (USelect _ dataOut) =>
          w' ← send (Output sp) dataOut (w s);
          Some (with_unit u (UDefer Written) (with_w w' s))
      | _ => None
      end
  | UnitCtxDone u =>
      match units s !! u with
      | Some (USelect _ _) =>
          if done (w s) then Some (with_unit u (UDefer Aborted) s) else None
      | _ => None
      end
  | UnitRelease u =>
      match units s !! u with
      | Some (UDefer _) =>
          tp ← give (pool s);
          Some (State (w s) tp (main s) (delete u (units s)) (spawned s))
      | _ => None
      end
  end.

Definition run (sched : list action) (s : state) : option state :=
  exec step sched s.

(** [p.Run(ctx, sp)] is entered with the pool [tp] of the stage. *)
Definition start (tp : tokens) : state :=
  State (init_world sp) tp MLoop ∅ 0.

(** Which worker an action belongs to. *)
Definition owner (a : action) : option nat :=
  match a with
  | UnitProcess u | UnitSend u | UnitCtxDone u | UnitRelease u => Some u
  | _ => None
  end.

Definition is_release (u : nat) (a : action) : bool :=
  match a with
  | UnitRelease u' => bool_decide (u' = u)
  | _ => false
  end.

(** The turns of the final loop of [Run] along a schedule, its exit
    included. *)
Definition is_drain (a : action) : bool :=
  match a with
  | MainDrain => true
  | _ => false
  end.

Definition drains (sched : list action) : nat :=
  length (filter (λ a, is_drain a = true) sched).

Definition releases (u : nat) (sched : list action) : nat :=
  length (filter (λ a, is_release u a = true) sched).

(** The actions of worker [u] along a schedule. *)
Definition history (u : nat) (sched : list action) : list action :=
  filter (λ a, owner a = Some u) sched.

(** The actions the body of worker [u] takes on each way to its end. *)
Definition body (u : nat) (o : outcome) : list action :=
  match o with
  | Failed => [UnitProcess u]
  | NoOutput => [UnitProcess u]
  | Written => [UnitProcess u; UnitSend u]
  | Aborted => [UnitProcess u; UnitCtxDone u]
  end.

(** What worker [u] has done so far, read off its program point; a
    worker that was launched and is gone has run one of the four bodies
    and then the deferred release. *)
Definition history_ok (u : nat) (sched : list action) (s : state) : Prop :=
  match units s !! u with
  | Some (UStart _) => history u sched = []
  | Some (USelect _ _) => history u sched = [UnitProcess u]
  | Some (UDefer o) => history u sched = body u o
  | None =>
      if decide (u < spawned s)
      then ∃ o, history u sched = body u o ++ [UnitRelease u]
      else history u sched = []
  end.

(** The statement that [Run] leaves the pool as it found it. *)
Definition restores_pool (max : Z) : Prop :=
  ∀ tp sched s,
    DynamicPool task max = Some (dynamicPool task tp) →
    run sched (start tp) = Some s →
    main s = MReturned →
    len (pool s) = Z.to_nat max.

(** The tokens [Run] has taken back for good. *)
Definition reclaimed (m : mpc) (n : nat) : nat :=
  match m with
  | MDrain i => i
  | MReturned => n
  | _ => 0
  end.

(** Token accounting: every one of the [n] tokens is in the pool, in
    the hands of one live worker, or taken back by the final loop. *)
Record inv (n : nat) (s : state) : Prop := Inv {
  inv_cap : cap (pool s) = n;
  inv_sum : len (pool s) + size (units s) + reclaimed (main s) n = n;
  inv_ids : ∀ u pc, units s !! u = Some pc → u < spawned s;
}.

End machine.

Arguments outcome : clear implicits.
Arguments upc : clear implicits.
Arguments mpc : clear implicits.
Arguments state : clear implicits.
Arguments action : clear implicits.
End Dyn.

(** ** The sequential stage run by every replica *)

Module Fifo.
Section machine.
Context {Data : Type} (proc : Task Data) (ps : params).

(** Modelled from the spec: the [Run] of the sequential-stage adapter,
    which is not part of these two files.  It "reads one item at a time
    from its input feed, invokes the transform, forwards any produced
    item to its output feed or marks the item processed if none is
    produced, reports transform failures to the error sink annotated
    with stage position, and returns when its input feed closes or
    cancellation fires"; waiting to write to the output feed races
    against cancellation as every other wait does. *)
Inductive pc :=
| Select                      (* waiting for an item or cancellation *)
| Processing (dataIn : Data)  (* holding an item, before the transform *)
| Sending (dataOut : Data)    (* waiting to write or cancellation *)
| Returned.

(** Modelled from the spec: the atomic actions of that [Run] (a wait
    gives way to cancellation; an item or the closing of the feed is
    received; the transform is called and its result handled; the
    produced item is written). *)
Inductive action := CtxDone | Recv | Proc | SendOut.

(** Modelled from the spec: one action of that [Run] under the stage
    context [ps]. *)

Definition step (a : action) (p : pc) (w : world Data) : option (pc * world Data) :=
  match a, p with
  | CtxDone, Select | CtxDone, Sending _ =>
      if done w then Some (Returned, w) else None
  | Recv, Select =>
      '(r, w') ← recv (Input ps) w;
      match r with
      | Some dataIn => Some (Processing dataIn, w')
      | None => Some (Returned, w')
      end
  | Proc, Processing dataIn =>
      match Process (done w) dataIn with
      | (_, Some err) =>
          Some (Select, Append (Error ps) (Errorf (Position ps) err) w)
      | (None, None) => Some (Select, MarkAsProcessed dataIn w)
      | (Some dataOut, None) => Some (Sending dataOut, w)
      end
  | SendOut, Sending dataOut =>
      w' ← send (Output ps) dataOut w; Some (Select, w')
  | _, _ => None
  end.

(** Modelled from the spec: the receive of that [Run] when the item
    is handed over by a sender waiting on an unbuffered input feed. *)
Definition accept (dataIn : Data) (p : pc) : option pc :=
  match p with
  | Select => Some (Processing dataIn)
  | _ => None
  end.

End machine.

Arguments pc : clear implicits.
End Fifo.

(** ** The fixed pool: [fixedPool.Run] *)

Module Fixed.
Section machine.
Context {Data : Type} (fifos : list (Stage Data)) (sp : params).

(** A goroutine [go func(idx)]: inside [p.fifos[idx].Run(ctx, params)]
    (at [Fifo.Returned] the call is over and [wg.Done()] is due), or
    finished.  The stages in [p.fifos] are the sequential stages
    [FixedPool] put there; a slot holding anything else has no step. *)
Inductive gpc :=
| GRun (p : Fifo.pc Data)
| GDone.

(** Program points of [Run]: the head of the loop with its counter;
    in [wg.Wait()]; returned. *)
Inductive mpc :=
| MSpawn (i : nat)
| MWait
| MReturned.

Record state := State {
  w : world Data;
  main : mpc;
  wg : nat;                   (* the counter of the WaitGroup *)
  reps : gmap nat gpc;        (* the goroutines, by their idx *)
}.

Inductive action :=
| Env (e : env_action Data)
| MainSpawn                           (* Run: one turn of the loop, or its exit *)
| MainWait                            (* Run: wg.Wait() returns *)
| Rep (idx : nat) (a : Fifo.action)   (* goroutine idx: a step of its fifo *)
| RepDone (idx : nat).                (* goroutine idx: wg.Done() *)

Definition finished (g : gpc) : bool :=
  match g with
  | GDone => true
  | GRun _ => false
  end.

Definition step (a : action) (s : state) : option state :=
  match a with
  | Env e => w' ← env_step sp e (w s); Some (State w' (main s) (wg s) (reps s))
  | MainSpawn =>
      match main s with
      | MSpawn i =>
          if decide (i < length fifos) then
            Some (State (w s) (MSpawn (S i)) (S (wg s))
                        (<[i := GRun Fifo.Select]> (reps s)))
          else Some (State (w s) MWait (wg s) (reps s))
      | _ => None
      end
  | MainWait =>
      match main s with
      | MWait =>
          if decide (wg s = 0) then Some (State (w s) MReturned (wg s) (reps s))
          else None
      | _ => None
      end
  | Rep idx a =>
      match reps s !! idx, fifos !! idx with
      | Some (GRun p), Some (fifo proc) =>
          '(p', w') ← Fifo.step proc sp a p (w s);
          Some (State w' (main s) (wg s) (<[idx := GRun p']> (reps s)))
      | _, _ => None
      end
  | RepDone idx =>
      match reps s !! idx with
      | Some (GRun Fifo.Returned) =>
          match wg s with
          | S n => Some (State (w s) (main s) n (<[idx := GDone]> (reps s)))
          | O => None
          end
      | _ => None
      end
  end.

Definition run (sched : list action) (s : state) : option state :=
  exec step sched s.

Definition start : state := State (init_world sp) (MSpawn 0) 0 ∅.

(** How many goroutines [Run] has launched. *)
Definition launched (m : mpc) : nat :=
  match m with
  | MSpawn i => i
  | _ => length fifos
  end.

(** Exactly the goroutines launched so far exist, the WaitGroup counts
    those that have not finished, and it is at zero once [Run] has
    returned. *)
Record inv (s : state) : Prop := Inv {
  inv_bound : launched (main s) ≤ length fifos;
  inv_reps : ∀ idx, is_Some (reps s !! idx) ↔ idx < launched (main s);
  inv_wg : wg s = unfinished finished (reps s);
  inv_ret : main s = MReturned → wg s = 0;
}.

End machine.

Arguments gpc : clear implicits.
Arguments mpc : clear implicits.
Arguments state : clear implicits.
Arguments action : clear implicits.
End Fixed.

(** ** The broadcast: [broadcast.Run] *)

Module Bcast.
Section machine.
Context {Payload : Type} (fifos : list (Stage nat)) (sp : params).

(** An item is a reference to a payload: [Data] values are addresses
    into a store of payloads, so that two branches holding the same
    reference share one mutable object. *)

(** Modelled from the spec: the item capability [clone()], "produce an
    independent copy safe for concurrent mutation by a different
    branch"; its implementations are not part of these two files.  The
    copy is a new object with the payload of the original. *)
Definition Clone (data : nat) (h : list Payload) : option (nat * list Payload) :=
  p ← h !! data; Some (length h, h ++ [p]).

(** A goroutine [go func(fifoIndex)]: before [fifoParams] is built;
    inside [b.fifos[fifoIndex].Run(ctx, fifoParams)] (at [Fifo.Returned]
    the call is over and [wg.Done()] is due); finished. *)
Inductive gpc :=
| GInit
| GRun (fifoParams : params) (p : Fifo.pc nat)
| GDone (fifoParams : params).

(** Program points of [Run]: the head of the first loop; the outer
    [select]; the head of the fan-out loop over [i] for [data]; its
    [select] holding [fifoData]; the head of the closing loop; in
    [wg.Wait()]; returned. *)
Inductive mpc :=
| MSpawn (i : nat)
| MSelect
| MFan (data : nat) (i : Z)
| MSend (data : nat) (i : Z) (fifoData : nat)
| MClose (k : nat)
| MWait
| MReturned.

Record state := State {
  w : world nat;
  heap : list Payload;
  main : mpc;
  inCh : list (option nat);          (* the slice; a nil channel is None *)
  wg : nat;
  reps : gmap nat gpc;
  taken : list nat;                  (* log: items received from sp.Input() *)
  delivered : gmap nat (list nat);   (* log: values sent on inCh[i] *)
  cloned : list (nat * nat);         (* log: calls of Clone, original and copy *)
}.

Inductive action :=
| Env (e : env_action nat)
| MainSpawn                  (* Run: one turn of the first loop, or its exit *)
| MainCtxDone                (* Run: a select takes <-ctx.Done() *)
| MainRecv                   (* Run: the outer select takes <-sp.Input() *)
| MainFan                    (* Run: the fan-out loop up to its select, or its exit *)
| Deliver (idx : nat)        (* Run: the select takes inCh[i] <- fifoData,
                                received by goroutine idx *)
| MainClose                  (* Run: one turn of the closing loop, or its exit *)
| MainWait                   (* Run: wg.Wait() returns *)
| RepInit (idx : nat)        (* goroutine idx: builds fifoParams *)
| Rep (idx : nat) (a : Fifo.action)   (* goroutine idx: a step of its fifo *)
| Mutate (idx : nat) (v : Payload)    (* goroutine idx: its transform writes
                                         the payload it is processing (a
                                         branch may mutate the item it was
                                         handed) *)
| RepDone (idx : nat).       (* goroutine idx: wg.Done() *)

Definition with_w (w' : world nat) (s : state) : state :=
  State w' (heap s) (main s) (inCh s) (wg s) (reps s) (taken s) (delivered s) (cloned s).

Definition with_main (m : mpc) (s : state) : state :=
  State (w s) (heap s) m (inCh s) (wg s) (reps s) (taken s) (delivered s) (cloned s).

Definition with_rep (idx : nat) (g : gpc) (s : state) : state :=
  State (w s) (heap s) (main s) (inCh s) (wg s) (<[idx := g]> (reps s))
        (taken s) (delivered s) (cloned s).

Definition sent_to (i : nat) (s : state) : list nat :=
  default [] (delivered s !! i).

Definition finished (g : gpc) : bool :=
  match g with
  | GDone _ => true
  | _ => false
  end.

Definition step (a : action) (s : state) : option state :=
  match a with
  | Env e => w' ← env_step sp e (w s); Some (with_w w' s)
  | MainSpawn =>
      match main s with
      | MSpawn i =>
          if decide (i < length fifos) then
            let c := fresh (dom (chans (w s))) in
            Some (State (set_chan c (Chan [] false) (w s)) (heap s)
                        (MSpawn (S i)) (<[i := Some c]> (inCh s)) (S (wg s))
                        (<[i := GInit]> (reps s))
                        (taken s) (delivered s) (cloned s))
          else Some (with_main MSelect s)
      | _ => None
      end
  | MainCtxDone =>
      if done (w s) then
        match main s with
        | MSelect => Some (with_main (MClose 0) s)
        | MSend _ _ _ => Some (with_main (MClose 0) s)
        | _ => None
        end
      else None
  | MainRecv =>
      match main s with
      | MSelect =>
          '(r, w') ← recv (Input sp) (w s);
          match r with
          | Some data =>
              Some (State w' (heap s) (MFan data (Z.of_nat (length fifos) - 1))
                          (inCh s) (wg s) (reps s)
                          (taken s ++ [data]) (delivered s) (cloned s))
          | None => Some (with_main (MClose 0) s)
          end
      | _ => None
      end
  | MainFan =>
      match main s with
      | MFan data i =>
          if decide (0 ≤ i)%Z then
            if decide (i ≠ 0%Z) then
              '(c, h') ← Clone data (heap s);
              Some (State (w s) h' (MSend data i c) (inCh s) (wg s) (reps s)
                          (taken s) (delivered s) (cloned s ++ [(data, c)]))
            else Some (with_main (MSend data i data) s)
          else Some (with_main MSelect s)
      | _ => None
      end
  | Deliver idx =>
      match main s with
      | MSend data i fifoData =>
          c ← mjoin (inCh s !! Z.to_nat i);
          ch ← chans (w s) !! c;
          if closed ch then None
          else
            match reps s !! idx with
            | Some (GRun ps p) =>
                if decide (Input ps = c) then
                  p' ← Fifo.accept fifoData p;
                  Some (State (w s) (heap s) (MFan data (i - 1)) (inCh s) (wg s)
                              (<[idx := GRun ps p']> (reps s)) (taken s)
                              (<[Z.to_nat i := sent_to (Z.to_nat i) s ++ [fifoData]]>
                                 (delivered s))
                              (cloned s))
                else None
            | _ => None
            end
      | _ => None
      end
  | MainClose =>
      match main s with
      | MClose k =>
          if decide (k < length (inCh s)) then
            c ← mjoin (inCh s !! k);
            w' ← close c (w s);
            Some (with_main (MClose (S k)) (with_w w' s))
          else Some (with_main MWait s)
      | _ => None
      end
  | MainWait =>
      match main s with
      | MWait => if decide (wg s = 0) then Some (with_main MReturned s) else None
      | _ => None
      end
  | RepInit idx =>
      match reps s !! idx with
      | Some GInit =>
          c ← mjoin (inCh s !! idx);
          Some (with_rep idx
                  (GRun (Params (Position sp) c (Output sp) (Error sp)) Fifo.Select) s)
      | _ => None
      end
  | Rep idx a =>
      match reps s !! idx, fifos !! idx with
      | Some (GRun ps p), Some (fifo proc) =>
          '(p', w') ← Fifo.step proc ps a p (w s);
          Some (with_rep idx (GRun ps p') (with_w w' s))
      | _, _ => None
      end
  | Mutate idx v =>
      match reps s !! idx with
      | Some (GRun ps (Fifo.Processing d)) =>
          Some (State (w s) (<[d := v]> (heap s)) (main s) (inCh s) (wg s) (reps s)
                      (taken s) (delivered s) (cloned s))
      | _ => None
      end
  | RepDone idx =>
      match reps s !! idx with
      | Some (GRun ps Fifo.Returned) =>
          match wg s with
          | S n =>
              Some (State (w s) (heap s) (main s) (inCh s) n
                          (<[idx := GDone ps]> (reps s))
                          (taken s) (delivered s) (cloned s))
          | O => None
          end
      | _ => None
      end
  end.

Definition run (sched : list action) (s : state) : option state :=
  exec step sched s.

(** [b.Run(ctx, sp)] is entered with the payloads [h] in the store;
    [inCh] is [make([]chan Data, len(b.fifos))]. *)
Definition start (h : list Payload) : state :=
  State (init_world sp) h (MSpawn 0) (replicate (length fifos) None) 0 ∅ [] ∅ [].

(** The stage context a goroutine runs its replica with, once built. *)
Definition params_of (g : gpc) : option params :=
  match g with
  | GInit => None
  | GRun ps _ => Some ps
  | GDone ps => Some ps
  end.

(** How many goroutines [Run] has launched, and how many private feeds
    its closing loop has closed. *)
Definition launched (m : mpc) : nat :=
  match m with
  | MSpawn i => i
  | _ => length fifos
  end.

Definition closed_upto (m : mpc) : nat :=
  match m with
  | MClose k => k
  | MWait => length fifos
  | MReturned => length fifos
  | _ => 0
  end.

(** Wiring: the goroutines launched so far exist and are counted by
    the WaitGroup; each has its own open-or-closed private feed, made
    before it was launched, different from the feeds of the driver and
    from the feeds of the others; a replica's context is the parent's
    except for that feed. *)
Record inv (s : state) : Prop := Inv {
  inv_len : length (inCh s) = length fifos;
  inv_bound : launched (main s) ≤ length fifos;
  inv_close_bound : closed_upto (main s) ≤ length fifos;
  inv_reps : ∀ idx, is_Some (reps s !! idx) ↔ idx < launched (main s);
  inv_wg : wg s = unfinished finished (reps s);
  inv_ret : main s = MReturned → wg s = 0;
  inv_feeds : is_Some (chans (w s) !! Input sp) ∧ is_Some (chans (w s) !! Output sp);
  inv_inCh : ∀ idx, idx < launched (main s) →
    ∃ c, inCh s !! idx = Some (Some c) ∧ c ≠ Input sp ∧ c ≠ Output sp
      ∧ chans (w s) !! c
        = Some (Chan [] (bool_decide (idx < closed_upto (main s))));
  inv_nil : ∀ idx c, inCh s !! idx = Some (Some c) → idx < launched (main s);
  inv_inj : ∀ i j c,
    inCh s !! i = Some (Some c) → inCh s !! j = Some (Some c) → i = j;
  inv_params : ∀ idx g ps,
    reps s !! idx = Some g → params_of g = Some ps →
    ps = Params (Position sp) (Input ps) (Output sp) (Error sp)
    ∧ inCh s !! idx = Some (Some (Input ps));
}.

(** Where the fan-out of the current item stands: the replicas from
    this index up have been served. *)
Definition cut (m : mpc) : option nat :=
  match m with
  | MSpawn _ => Some 0
  | MSelect => Some 0
  | MFan _ i => Some (Z.to_nat (i + 1))
  | MSend _ i _ => Some (Z.to_nat (i + 1))
  | _ => None
  end.

(** Fan-out: what was sent on the private feeds so far, against the
    items taken from the input feed. *)
Record fan_inv (s : state) : Prop := FanInv {
  fan_cut : ∃ j, j ≤ length fifos
    ∧ (taken s = [] → j = 0)
    ∧ (∀ j', cut (main s) = Some j' → j = j')
    ∧ ∀ idx, idx < length fifos →
        length (sent_to idx s) + (if decide (idx < j) then 1 else 0)
        = length (taken s);
  fan_none : ∀ idx, length fifos ≤ idx → sent_to idx s = [];
  fan_main :
    match main s with
    | MFan data i =>
        (-1 ≤ i < Z.of_nat (length fifos))%Z ∧ last (taken s) = Some data
    | MSend data i fifoData =>
        (0 ≤ i < Z.of_nat (length fifos))%Z ∧ last (taken s) = Some data
        ∧ (i = 0%Z → fifoData = data)
        ∧ (i ≠ 0%Z →
             (data, fifoData) ∈ cloned s ∧ data < fifoData
             ∧ fifoData < length (heap s)
             ∧ ∀ idx d, idx ≠ 0 → d ∈ sent_to idx s → d < fifoData)
    | _ => True
    end;
  fan_heap : ∀ idx d, idx ≠ 0 → d ∈ sent_to idx s → d < length (heap s);
  fan_orig : ∀ k d, sent_to 0 s !! k = Some d → taken s !! k = Some d;
  fan_clone : ∀ idx k d, idx ≠ 0 → sent_to idx s !! k = Some d →
    ∃ orig, taken s !! k = Some orig ∧ (orig, d) ∈ cloned s ∧ orig < d;
  fan_order : ∀ idx idx' k d d', 0 < idx < idx' →
    sent_to idx s !! k = Some d → sent_to idx' s !! k = Some d' → d' < d;
}.


End machine.

Arguments gpc : clear implicits.
Arguments mpc : clear implicits.
Arguments state : clear implicits.
Arguments action : clear implicits.
End Bcast.

(** ** Concrete stages used to exercise the machines *)

Module Demo.

(** A transform over integers: it fails on [0], swallows negative
    items and doubles the others (the doubling transform of the
    dynamic-pool scenario, with a failing and a terminal case). *)
Definition doubler : Task Z :=
  {| Process := λ _ d,
       if (d =? 0)%Z then (None, Some "zero")
       else if (d <? 0)%Z then (None, None)
       else (Some (2 * d)%Z, None) |}.

(** A transform over references that forwards its item. *)
Definition forward : Task nat := {| Process := λ _ d, (Some d, None) |}.

(** A stage context: position 3, input feed 0, output feed 1, sink 2. *)
Definition sp : params := Params 3 0 1 2.

(** A dynamic pool of ceiling 2 after a schedule. *)
Definition dyn_start : Dyn.state Z := Dyn.start sp (Tokens 2 2).

Definition dyn_after (sched : list (Dyn.action Z)) : Dyn.state Z :=
  default dyn_start (Dyn.run doubler sp sched dyn_start).

(** Three items are fed, the feed is closed; two workers run side by
    side, the third item waits for a token; everything drains. *)
Definition dyn_full_run : list (Dyn.action Z) :=
  [Dyn.Env (Feed 5%Z); Dyn.Env (Feed 0%Z); Dyn.Env (Feed (-1)%Z);
   Dyn.Env CloseInput;
   Dyn.MainRecv; Dyn.MainToken; Dyn.MainRecv; Dyn.MainToken;
   Dyn.UnitProcess 0; Dyn.UnitProcess 1; Dyn.UnitSend 0; Dyn.UnitRelease 1;
   Dyn.MainRecv; Dyn.MainToken; Dyn.UnitProcess 2; Dyn.UnitRelease 2;
   Dyn.UnitRelease 0; Dyn.MainRecv;
   Dyn.MainDrain; Dyn.MainDrain; Dyn.MainDrain].

(** The input feed is closed at once and [Run] of a pool of ceiling 1
    goes straight through its final loop. *)
Definition dyn_idle_run : list (Dyn.action Z) :=
  [Dyn.Env CloseInput; Dyn.MainRecv; Dyn.MainDrain; Dyn.MainDrain].

(** A fixed pool of two replicas: both are launched, the input feed is
    closed, both replicas return, [Run] returns. *)
Definition fixed_fifos : list (Stage Z) := replicate 2 (FIFO doubler).

Definition fixed_full_run : list (Fixed.action Z) :=
  [Fixed.MainSpawn; Fixed.MainSpawn; Fixed.MainSpawn; Fixed.Env CloseInput;
   Fixed.Rep 0 Fifo.Recv; Fixed.Rep 1 Fifo.Recv;
   Fixed.RepDone 0; Fixed.RepDone 1; Fixed.MainWait].

Definition fixed_after (sched : list (Fixed.action Z)) : Fixed.state Z :=
  default (Fixed.start sp) (Fixed.run fixed_fifos sp sched (Fixed.start sp)).

(** A broadcast over two forwarding replicas and a store holding one
    payload: the item 0 is fed and fanned out (a clone to replica 1,
    the item itself to replica 0), replica 1 overwrites its payload,
    the feed is closed, everything drains. *)
Definition bcast_fifos : list (Stage nat) := FIFO <$> [forward; forward].

Definition bcast_start : Bcast.state nat := Bcast.start bcast_fifos sp [10].

Definition bcast_full_run : list (Bcast.action nat) :=
  [Bcast.MainSpawn; Bcast.MainSpawn; Bcast.MainSpawn;
   Bcast.RepInit 0; Bcast.RepInit 1;
   Bcast.Env (Feed 0); Bcast.MainRecv;
   Bcast.MainFan; Bcast.Deliver 1; Bcast.MainFan; Bcast.Deliver 0; Bcast.MainFan;
   Bcast.Mutate 1 77;
   Bcast.Env CloseInput; Bcast.MainRecv;
   Bcast.MainClose; Bcast.MainClose; Bcast.MainClose;
   Bcast.Rep 0 Fifo.Proc; Bcast.Rep 0 Fifo.SendOut; Bcast.Rep 0 Fifo.Recv;
   Bcast.RepDone 0;
   Bcast.Rep 1 Fifo.Proc; Bcast.Rep 1 Fifo.SendOut; Bcast.Rep 1 Fifo.Recv;
   Bcast.RepDone 1;
   Bcast.MainWait].

Definition bcast_after (sched : list (Bcast.action nat)) : Bcast.state nat :=
  default bcast_start (Bcast.run bcast_fifos sp sched bcast_start).

End Demo.

(** ** Vocabulary for whole executions of the dynamic pool *)

Module DynRun.
Section vocabulary.
Context {Data : Type} (task : Task Data) (sp : params).

(** The values waiting in the feed [c]. *)
Definition queued (c : nat) (w : world Data) : list Data :=
  from_option items [] (chans w !! c).

(** The output feed of the stage context is there and open; its input
    feed is there and closed. *)
Definition out_open (w : world Data) : Prop :=
  ∃ ch, chans w !! Output sp = Some ch ∧ closed ch = false.

Definition in_closed (w : world Data) : Prop :=
  ∃ ch, chans w !! Input sp = Some ch ∧ closed ch = true.

(** An action of the stage itself, not of the driver or the upstream
    stage. *)
Definition own (a : Dyn.action Data) : Prop :=
  match a with
  | Dyn.Env _ => False
  | _ => True
  end.

(** What a stretch of worker actions leaves as it was: the program
    point of [Run], the count of launched workers, the cancellation
    flag and every feed but the output feed, which stays open if it
    was. *)
Definition quiet (s s' : Dyn.state Data) : Prop :=
  Dyn.main s' = Dyn.main s ∧ Dyn.spawned s' = Dyn.spawned s
  ∧ done (Dyn.w s') = done (Dyn.w s)
  ∧ (∀ c, c ≠ Output sp → chans (Dyn.w s') !! c = chans (Dyn.w s) !! c)
  ∧ (out_open (Dyn.w s) → out_open (Dyn.w s')).

(** The items [Run] still has to launch a worker for when its input
    feed is closed: the one it holds and those waiting in the feed
    while it is in its accept loop, none once it has left that loop. *)
Definition backlog (s : Dyn.state Data) : nat :=
  match Dyn.main s with
  | Dyn.MLoop => length (queued (Input sp) (Dyn.w s))
  | Dyn.MAcquire _ => S (length (queued (Input sp) (Dyn.w s)))
  | _ => 0
  end.

(** The body of a worker is over. *)
Definition body_over (pc : Dyn.upc Data) : bool :=
  match pc with
  | Dyn.UDefer _ => true
  | _ => false
  end.

(** Along a schedule: the items fed by the upstream stage, and the
    number of writes given up for cancellation. *)
Definition fed (sched : list (Dyn.action Data)) : list Data :=
  omap (λ a, match a with Dyn.Env (Feed d) => Some d | _ => None end) sched.

Definition is_abort (a : Dyn.action Data) : bool :=
  match a with
  | Dyn.UnitCtxDone _ => true
  | _ => false
  end.

Definition aborts (sched : list (Dyn.action Data)) : nat :=
  length (filter (λ a, is_abort a = true) sched).

(** [d] was taken from the input feed, and the transform made of it
    the output [o], the failure [err], or nothing at all. *)
Definition produced (ds : list Data) (o : Data) : Prop :=
  ∃ d b, d ∈ ds ∧ Process b d = (Some o, None).

Definition failed_with (ds : list Data) (e : string) : Prop :=
  ∃ d b err, d ∈ ds ∧ (Process b d).2 = Some err
    ∧ e = Errorf (Position sp) err.

Definition swallowed (ds : list Data) (d : Data) : Prop :=
  d ∈ ds ∧ ∃ b, Process b d = (None, None).

(** The item [Run] holds while it waits for a token. *)
Definition held (m : Dyn.mpc Data) : nat :=
  match m with
  | Dyn.MAcquire _ => 1
  | _ => 0
  end.

(** [Run] has left its accept loop. *)
Definition left_loop (m : Dyn.mpc Data) : Prop :=
  match m with
  | Dyn.MDrain _ => True
  | Dyn.MReturned => True
  | _ => False
  end.

(** Every launched worker is still in its body or has ended it in one
    of four ways, each of which left its trace. *)
Definition workers_accounted (sched : list (Dyn.action Data))
    (s : Dyn.state Data) : Prop :=
  Dyn.spawned s
  = unfinished body_over (Dyn.units s)
    + length (errors_of (Error sp) (Dyn.w s))
    + length (processed (Dyn.w s))
    + length (written_to (Output sp) (Dyn.w s))
    + aborts sched.

(** Every item fed is waiting in the input feed, held by [Run], handed
    to a worker, or it is the one item dropped when the wait for a
    token was cancelled. *)
Definition items_accounted (sched : list (Dyn.action Data))
    (s : Dyn.state Data) : Prop :=
  ∃ lost, lost ≤ 1
    ∧ length (fed sched)
      = length (queued (Input sp) (Dyn.w s)) + Dyn.spawned s
        + held (Dyn.main s) + lost
    ∧ (lost = 1 → done (Dyn.w s) = true ∧ left_loop (Dyn.main s))
    ∧ (0 < aborts sched → done (Dyn.w s) = true)
    ∧ (done (Dyn.w s) = false → left_loop (Dyn.main s) →
       queued (Input sp) (Dyn.w s) = [] ∧ in_closed (Dyn.w s)).

(** Where everything the stage holds or has put out comes from. *)
Record provenance (ds : list Data) (s : Dyn.state Data) : Prop := Provenance {
  prov_queued : ∀ d, d ∈ queued (Input sp) (Dyn.w s) → d ∈ ds;
  prov_held : ∀ d, Dyn.main s = Dyn.MAcquire d → d ∈ ds;
  prov_start : ∀ u d, Dyn.units s !! u = Some (Dyn.UStart d) → d ∈ ds;
  prov_select : ∀ u d o, Dyn.units s !! u = Some (Dyn.USelect d o) →
    produced ds o;
  prov_written : ∀ o, o ∈ written_to (Output sp) (Dyn.w s) → produced ds o;
  prov_errors : ∀ e, e ∈ errors_of (Error sp) (Dyn.w s) → failed_with ds e;
  prov_processed : ∀ d, d ∈ processed (Dyn.w s) → swallowed ds d;
}.

End vocabulary.
End DynRun.


(** ** Vocabulary for whole executions of the fixed pool *)

Module FixedRun.

(** An action of the stage itself, not of the driver or the upstream
    stage. *)
Definition own {Data : Type} (a : Fixed.action Data) : Prop :=
  match a with
  | Fixed.Env _ => False
  | _ => True
  end.

End FixedRun.

(** ** Vocabulary for whole executions of the broadcast *)

Module BcastRun.
Section vocabulary.
Context {Payload : Type} (fifos : list (Stage nat)).

(** An action of the stage itself, not of the driver or the upstream
    stage. *)
Definition own (a : Bcast.action Payload) : Prop :=
  match a with
  | Bcast.Env _ => False
  | _ => True
  end.

(** How many calls of [Clone] the fan-out of the current item still
    has to make when [Run] is at the program point [m]. *)
Definition clones_due (m : Bcast.mpc) : nat :=
  match m with
  | Bcast.MFan _ i => Z.to_nat i
  | Bcast.MSend _ i _ => Z.to_nat (i - 1)
  | _ => 0
  end.

(** [Run] is in its main loop, the fan-out of the current item
    included. *)
Definition in_loop (m : Bcast.mpc) : bool :=
  match m with
  | Bcast.MSpawn _ | Bcast.MSelect | Bcast.MFan _ _ | Bcast.MSend _ _ _ => true
  | _ => false
  end.

(** One call of [Clone] for every item and every replica but the
    first; a fan-out cut short by cancellation has made fewer. *)
Definition clones_counted (s : Bcast.state Payload) : Prop :=
  length (Bcast.cloned s) + clones_due (Bcast.main s)
  ≤ (length fifos - 1) * length (Bcast.taken s)
  ∧ (in_loop (Bcast.main s) = true →
     length (Bcast.cloned s) + clones_due (Bcast.main s)
     = (length fifos - 1) * length (Bcast.taken s)).


(** Along a schedule: the items fed by the upstream stage. *)
Definition fed (sched : list (Bcast.action Payload)) : list nat :=
  omap (λ a, match a with Bcast.Env (Feed d) => Some d | _ => None end) sched.

(** The items fed are, in their order, those [Run] has taken and
    those still waiting in the input feed; and when [Run] has left its
    main loop without cancellation, the input feed is closed and empty
    and every replica has been sent one value per item. *)
Definition feed_accounted (sp : params) (sched : list (Bcast.action Payload))
    (s : Bcast.state Payload) : Prop :=
  Bcast.taken s ++ from_option items [] (chans (Bcast.w s) !! Input sp)
  = fed sched
  ∧ (done (Bcast.w s) = false → in_loop (Bcast.main s) = false →
     chans (Bcast.w s) !! Input sp = Some (Chan [] true)
     ∧ ∀ idx, idx < length fifos →
         length (Bcast.sent_to idx s) = length (Bcast.taken s)).

End vocabulary.
End BcastRun.

(** ** More concrete executions of the dynamic pool *)

Module DemoRun.
Import Demo.

(** One item is fed and handed to a worker, whose transform has
    returned an output; then the driver cancels. *)
Definition dyn_cancelled_run : list (Dyn.action Z) :=
  [Dyn.Env (Feed 5%Z); Dyn.MainRecv; Dyn.MainToken; Dyn.UnitProcess 0;
   Dyn.Env Cancel].

(** Three items are fed and the feed is closed; [Run] has launched a
    worker for the first and holds the second. *)
Definition dyn_closed_run : list (Dyn.action Z) :=
  [Dyn.Env (Feed 5%Z); Dyn.Env (Feed 0%Z); Dyn.Env (Feed (-1)%Z);
   Dyn.Env CloseInput; Dyn.MainRecv; Dyn.MainToken; Dyn.MainRecv].

(** Two workers hold the two tokens, the second has failed,
    and [Run] holds a third item. *)
Definition dyn_saturated_run : list (Dyn.action Z) :=
  [Dyn.Env (Feed 5%Z); Dyn.Env (Feed 0%Z); Dyn.Env (Feed (-1)%Z);
   Dyn.MainRecv; Dyn.MainToken; Dyn.MainRecv; Dyn.MainToken;
   Dyn.UnitProcess 1; Dyn.MainRecv].

(** A second [Run] of the stage whose first [Run] was [dyn_full_run]:
    an item is fed, the driver cancels, [Run] takes the item and then
    leaves its loop. *)
Definition dyn_second_run : list (Dyn.action Z) :=
  [Dyn.Env (Feed 5%Z); Dyn.MainRecv; Dyn.Env Cancel; Dyn.MainCtxDone].

(** What follows the cancellation in [dyn_cancelled_run] up to the
    final loop. *)
Definition dyn_wind_down : list (Dyn.action Z) :=
  [Dyn.Env (Feed 7%Z); Dyn.UnitCtxDone 0; Dyn.UnitRelease 0; Dyn.MainDrain].

(** The fixed pool of two replicas when both goroutines have come
    back from their replica's [Run] and none has called [wg.Done()]. *)
Definition fixed_back_run : list (Fixed.action Z) :=
  [Fixed.MainSpawn; Fixed.MainSpawn; Fixed.MainSpawn; Fixed.Env CloseInput;
   Fixed.Rep 0 Fifo.Recv; Fixed.Rep 1 Fifo.Recv].

(** The fixed pool of two replicas when the driver cancels while the
    loop of [Run] has launched one goroutine, which holds an item. *)
Definition fixed_cancelled_run : list (Fixed.action Z) :=
  [Fixed.MainSpawn; Fixed.Env (Feed 5%Z); Fixed.Rep 0 Fifo.Recv;
   Fixed.Env Cancel].

(** The broadcast over two replicas: about to send the clone of the
    first item to replica 1; at the head of its closing loop; in
    [wg.Wait()] with replica 0 back from its [Run]. *)
Definition bcast_sending_run : list (Bcast.action nat) :=
  [Bcast.MainSpawn; Bcast.MainSpawn; Bcast.MainSpawn;
   Bcast.RepInit 0; Bcast.RepInit 1;
   Bcast.Env (Feed 0); Bcast.MainRecv; Bcast.MainFan].

Definition bcast_closing_run : list (Bcast.action nat) :=
  bcast_sending_run
  ++ [Bcast.Deliver 1; Bcast.MainFan; Bcast.Deliver 0; Bcast.MainFan;
      Bcast.Env CloseInput; Bcast.MainRecv].

(** The broadcast over two replicas when the driver cancels while
    [Run] is at the head of the fan-out loop for the first item. *)
Definition bcast_cancelled_run : list (Bcast.action nat) :=
  [Bcast.MainSpawn; Bcast.MainSpawn; Bcast.MainSpawn;
   Bcast.RepInit 0; Bcast.Env (Feed 0); Bcast.MainRecv; Bcast.Env Cancel].


(** The broadcast over two replicas when the same item was fed twice
    and the input feed closed: [Run] is at the head of the fan-out
    loop for the first, the second waits, and the goroutine of
    replica 1 has not yet built its stage context. *)
Definition bcast_closed_run : list (Bcast.action nat) :=
  [Bcast.MainSpawn; Bcast.MainSpawn; Bcast.MainSpawn; Bcast.RepInit 0;
   Bcast.Env (Feed 0); Bcast.Env (Feed 0); Bcast.Env CloseInput;
   Bcast.MainRecv].

Definition bcast_waiting_run : list (Bcast.action nat) :=
  bcast_closing_run
  ++ [Bcast.MainClose; Bcast.MainClose; Bcast.MainClose;
      Bcast.Rep 0 Fifo.Proc; Bcast.Rep 0 Fifo.SendOut; Bcast.Rep 0 Fifo.Recv].

End DemoRun.

(** ** Vocabulary for the progress of the broadcast *)

Module BcastLive.
Section vocabulary.
Context {Payload : Type}.

(** A goroutine that has not come back from its replica's [Run]: it
    will still receive from its private feed. *)
Definition running (g : Bcast.gpc) : bool :=
  match g with
  | Bcast.GInit => true
  | Bcast.GRun _ Fifo.Returned => false
  | Bcast.GRun _ _ => true
  | Bcast.GDone _ => false
  end.

(** As long as cancellation has not fired and [Run] is in its main
    loop, no goroutine has come back from its replica's [Run]. *)
Definition alive (s : Bcast.state Payload) : Prop :=
  done (Bcast.w s) = false → BcastRun.in_loop (Bcast.main s) = true →
  ∀ idx g, Bcast.reps s !! idx = Some g → running g = true.

(** What a stretch of replica actions leaves as it was: the program
    point of [Run], the store, the WaitGroup, the cancellation flag
    and every feed but the output feed, which stays open if it was. *)
Definition quiet (sp : params) (s s' : Bcast.state Payload) : Prop :=
  Bcast.main s' = Bcast.main s ∧ Bcast.heap s' = Bcast.heap s
  ∧ Bcast.wg s' = Bcast.wg s
  ∧ done (Bcast.w s') = done (Bcast.w s)
  ∧ (∀ c, c ≠ Output sp → chans (Bcast.w s') !! c = chans (Bcast.w s) !! c)
  ∧ (DynRun.out_open sp (Bcast.w s) → DynRun.out_open sp (Bcast.w s')).

End vocabulary.
End BcastLive.
(** * Properties *)

(** Case analysis of a step that was taken. *)
Ltac open_step H :=
  repeat match type of H with
  | _ ≫= _ = Some _ =>
      let x := fresh "x" in let E := fresh "E" in
      apply bind_Some in H as (x & E & H)
  | match ?t with _ => _ end = Some _ =>
      let E := fresh "E" in destruct t eqn:E; try discriminate H
  end.

(** ** Executions *)

Section exec_facts.
Context {S A : Type} (step : A → S → option S).

Lemma exec_app (l1 l2 : list A) (s : S) :
  exec step (l1 ++ l2) s = exec step l1 s ≫= exec step l2.
Proof.
  revert s. induction l1 as [|a l1 IH]; intros s; simpl; [done|].
  destruct (step a s) as [s'|]; simpl; [apply IH | done].
Qed.

Lemma exec_snoc (l : list A) (a : A) (s s' : S) :
  exec step (l ++ [a]) s = Some s'
  ↔ ∃ s1, exec step l s = Some s1 ∧ step a s1 = Some s'.
Proof.
  rewrite exec_app. split.
  - intros H. destruct (exec step l s) as [s1|] eqn:E; simpl in H; [|done].
    exists s1. split; [done|]. destruct (step a s1); simpl in *; done.
  - intros (s1 & -> & H). simpl. by rewrite H.
Qed.

(** Executions are explored from their last step. *)
Lemma exec_ind (s0 : S) (P : list A → S → Prop) :
  P [] s0 →
  (∀ l a s s', exec step l s0 = Some s → P l s → step a s = Some s' →
     P (l ++ [a]) s') →
  ∀ l s, exec step l s0 = Some s → P l s.
Proof.
  intros H0 Hs l. induction l as [|a l IH] using rev_ind; intros s Hrun.
  - simpl in Hrun. by simplify_eq.
  - apply exec_snoc in Hrun as (s1 & H1 & H2). eauto.
Qed.

End exec_facts.

(** ** Channels and sinks *)

Section world_facts.
Context {Data : Type}.
Implicit Types (w : world Data) (c q : nat) (d : Data).

Lemma recv_Some c w r w' :
  recv c w = Some (r, w') →
  done w' = done w ∧ sinks w' = sinks w ∧ processed w' = processed w
  ∧ ∃ ch, chans w !! c = Some ch
      ∧ match r with
        | Some d => ∃ rest, items ch = d :: rest
                      ∧ chans w' = <[c := Chan rest (closed ch)]> (chans w)
        | None => items ch = [] ∧ closed ch = true ∧ w' = w
        end.
Proof.
  unfold recv. intros H. open_step H; simplify_eq/=; eauto 10.
Qed.

Lemma send_Some c d w w' :
  send c d w = Some w' →
  done w' = done w ∧ sinks w' = sinks w ∧ processed w' = processed w
  ∧ ∃ ch, chans w !! c = Some ch ∧ closed ch = false
      ∧ chans w' = <[c := Chan (items ch ++ [d]) false]> (chans w).
Proof.
  unfold send. intros H. open_step H; simplify_eq/=; eauto 10.
Qed.

Lemma send_open c d w ch :
  chans w !! c = Some ch → closed ch = false → is_Some (send c d w).
Proof. unfold send. intros -> ->. eauto. Qed.

Lemma close_Some c w w' :
  close c w = Some w' →
  done w' = done w ∧ sinks w' = sinks w ∧ processed w' = processed w
  ∧ ∃ ch, chans w !! c = Some ch ∧ closed ch = false
      ∧ chans w' = <[c := Chan (items ch) true]> (chans w).
Proof.
  unfold close. intros H. open_step H; simplify_eq/=; eauto 10.
Qed.

Lemma env_step_Some (sp : params) (e : env_action Data) w w' :
  env_step sp e w = Some w' →
  sinks w' = sinks w ∧ processed w' = processed w
  ∧ (done w = true → done w' = true)
  ∧ ∀ c, c ≠ Input sp → chans w' !! c = chans w !! c.
Proof.
  destruct e; simpl; intros H.
  - by simplify_eq.
  - apply send_Some in H as (-> & -> & -> & ch & _ & _ & ->).
    repeat split; try done. intros c' ?. by rewrite lookup_insert_ne.
  - apply close_Some in H as (-> & -> & -> & ch & _ & _ & ->).
    repeat split; try done. intros c' ?. by rewrite lookup_insert_ne.
Qed.

Lemma written_to_send c d w w' :
  send c d w = Some w' → written_to c w' = written_to c w ++ [d].
Proof.
  intros (_ & _ & _ & ch & Hch & _ & Hw)%send_Some.
  unfold written_to. by rewrite Hw, lookup_insert_eq, Hch.
Qed.

Lemma errors_of_Append q e w :
  errors_of q (Append q e w) = errors_of q w ++ [e].
Proof. unfold errors_of, Append. simpl. by rewrite lookup_insert_eq. Qed.

Lemma Errorf_format (pos : Z) (err : string) :
  Errorf pos err = "pipeline stage " +:+ pretty pos +:+ ": " +:+ err.
Proof. done. Qed.

End world_facts.

(** ** The dynamic pool *)

Section dyn_facts.
Context {Data : Type} (task : Task Data) (sp : params).

Local Abbreviation step := (Dyn.step task sp).
Local Abbreviation run := (Dyn.run task sp).
Local Abbreviation start := (Dyn.start (Data := Data) sp).

Lemma give_lt (c l : nat) : l < c → give (Tokens c l) = Some (Tokens c (S l)).
Proof. intros H. unfold give. simpl. by destruct (decide (l < c)). Qed.

Lemma fill_tokens (n c l i : nat) :
  l + n ≤ c →
  for_upto n (λ _ tp, give tp) i (Tokens c l) = Some (Tokens c (l + n)).
Proof.
  revert l i. induction n as [|n IH]; intros l i Hle; simpl.
  - do 2 f_equal. lia.
  - rewrite give_lt by lia. simpl. rewrite IH by lia. do 2 f_equal. lia.
Qed.

Lemma DynamicPool_pos (max : Z) :
  (0 < max)%Z →
  DynamicPool task max
  = Some (dynamicPool task (Tokens (Z.to_nat max) (Z.to_nat max))).
Proof.
  intros Hmax. unfold DynamicPool, make_tokens.
  destruct (Z.leb_spec max 0); [lia|].
  by rewrite fill_tokens by lia.
Qed.

Lemma dyn_inv_start (n : nat) : Dyn.inv n (start (Tokens n n)).
Proof.
  split; simpl; [done | rewrite map_size_empty; lia |].
  intros u pc. by rewrite lookup_empty.
Qed.

Lemma dyn_fresh_unit (n : nat) (s : Dyn.state Data) :
  Dyn.inv n s → Dyn.units s !! Dyn.spawned s = None.
Proof.
  intros [_ _ Hids]. destruct (Dyn.units s !! Dyn.spawned s) eqn:E; [|done].
  apply Hids in E. lia.
Qed.

Lemma size_insert_live {A} (m : gmap nat A) (u : nat) (x y : A) :
  m !! u = Some x → size (<[u := y]> m) = size m.
Proof. intros H. apply map_size_insert_Some. eauto. Qed.

Lemma size_delete_live {A} (m : gmap nat A) (u : nat) (x : A) :
  m !! u = Some x → S (size (delete u m)) = size m.
Proof.
  intros H. rewrite map_size_delete_Some by eauto.
  pose proof (map_size_ne_0_lookup_2 m u (mk_is_Some _ _ H)). lia.
Qed.

Lemma take_Some (tp tp' : tokens) :
  take tp = Some tp' ↔ cap tp' = cap tp ∧ len tp = S (len tp').
Proof.
  unfold take. destruct tp as [c l], tp' as [c' l']; simpl.
  destruct l; split; intros H; simplify_eq; try (destruct H; simplify_eq); done.
Qed.

Lemma give_Some (tp tp' : tokens) :
  give tp = Some tp' ↔ cap tp' = cap tp ∧ len tp' = S (len tp) ∧ len tp < cap tp.
Proof.
  unfold give. destruct tp as [c l], tp' as [c' l']; simpl.
  destruct (decide (l < c)); split; intros H; simplify_eq;
    try (destruct H as (? & ? & ?); simplify_eq); done.
Qed.

Lemma dyn_inv_step (n : nat) (a : Dyn.action Data) (s s' : Dyn.state Data) :
  step a s = Some s' → Dyn.inv n s → Dyn.inv n s'.
Proof.
  intros Hstep Hinv. pose proof (dyn_fresh_unit _ _ Hinv) as Hfresh.
  destruct Hinv as [Hcap Hsum Hids].
  destruct s as [w tp m us k]; simpl in *.
  destruct a; simpl in Hstep; open_step Hstep; simplify_eq; simpl in *;
    repeat match goal with
    | H : take _ = Some _ |- _ => apply take_Some in H as [? ?]
    | H : give _ = Some _ |- _ => apply give_Some in H as (? & ? & ?)
    | H : us !! ?u = Some _ |- context [delete ?u us] =>
        apply size_delete_live in H
    end.
  all: split; simpl; [congruence| |].
  all: rewrite ?map_size_insert_None by eauto.
  all: try (erewrite size_insert_live by eauto).
  all: try lia.
  all: try (intros u' pc' Hu'; try (apply lookup_insert_Some in Hu' as [[<- _]|[_ Hu']]);
       try (apply lookup_delete_Some in Hu' as [_ Hu']);
       try (apply Hids in Hu'); try lia; eauto; fail).
Qed.
Lemma dyn_inv_run (n : nat) (sched : list (Dyn.action Data)) (s : Dyn.state Data) :
  run sched (start (Tokens n n)) = Some s → Dyn.inv n s.
Proof.
  revert sched s. apply exec_ind; [apply dyn_inv_start|].
  intros l a s s' _ IH Hstep. by eapply dyn_inv_step.
Qed.

(** The pool a constructed stage carries. *)
Lemma DynamicPool_Some (max : Z) (tp : tokens) :
  DynamicPool task max = Some (dynamicPool task tp) →
  (0 < max)%Z ∧ tp = Tokens (Z.to_nat max) (Z.to_nat max).
Proof.
  intros H. destruct (decide (0 < max)%Z) as [Hpos|Hneg].
  - rewrite DynamicPool_pos in H by done. by simplify_eq.
  - unfold DynamicPool in H. destruct (Z.leb_spec max 0); [done|lia].
Qed.

Lemma dyn_history_snoc (u : nat) (l : list (Dyn.action Data)) (a : Dyn.action Data) :
  Dyn.history u (l ++ [a])
  = Dyn.history u l ++ (if decide (Dyn.owner a = Some u) then [a] else []).
Proof.
  unfold Dyn.history. by rewrite filter_app.
Qed.

Lemma dyn_releases_snoc (u : nat) (l : list (Dyn.action Data)) (a : Dyn.action Data) :
  Dyn.releases u (l ++ [a])
  = Dyn.releases u l + (if Dyn.is_release u a then 1 else 0).
Proof.
  unfold Dyn.releases. rewrite filter_app, length_app.
  destruct (Dyn.is_release u a) eqn:E.
  - by rewrite (filter_cons_True _ a []).
  - rewrite (filter_cons_False _ a []); [done|]. by rewrite E.
Qed.

Lemma dyn_releases_history (u : nat) (l : list (Dyn.action Data)) :
  Dyn.releases u l = Dyn.releases u (Dyn.history u l).
Proof.
  induction l as [|a l IH]; [done|].
  unfold Dyn.releases, Dyn.history in *.
  destruct (decide (Dyn.owner a = Some u)) as [Ho|Ho].
  - rewrite (filter_cons_True (λ a, Dyn.owner a = Some u)) by done.
    destruct (Dyn.is_release u a) eqn:E.
    + rewrite !(filter_cons_True (λ a, Dyn.is_release u a = true)) by done.
      simpl. by rewrite IH.
    + rewrite !(filter_cons_False (λ a, Dyn.is_release u a = true))
        by (by rewrite E).
      done.
  - rewrite (filter_cons_False (λ a, Dyn.owner a = Some u)) by done.
    rewrite (filter_cons_False (λ a, Dyn.is_release u a = true)); [done|].
    destruct a; simpl in *; try done.
    intros H. apply bool_decide_eq_true in H. by subst.
Qed.

Lemma dyn_history_step (n u : nat) (l : list (Dyn.action Data))
    (a : Dyn.action Data) (s s' : Dyn.state Data) :
  Dyn.inv n s → step a s = Some s' →
  Dyn.history_ok u l s → Dyn.history_ok u (l ++ [a]) s'.
Proof.
  intros Hinv Hstep. pose proof (dyn_fresh_unit _ _ Hinv) as Hfresh.
  destruct Hinv as [_ _ Hids].
  unfold Dyn.history_ok. rewrite dyn_history_snoc.
  destruct s as [w tp m us k]; simpl in *.
  destruct (decide (Dyn.owner a = Some u)) as [Ho|Ho].
  - (* an action of worker u *)
    destruct a; simplify_eq/=; open_step Hstep; simplify_eq/=;
      rewrite ?lookup_insert_eq, ?lookup_delete_eq;
      try (intros ->; done).
    apply Hids in E. destruct (decide (u < k)); [|lia]. intros ->. eauto.
  - (* an action of somebody else *)
    rewrite app_nil_r.
    destruct a; simpl in Hstep, Ho; open_step Hstep; simplify_eq/=;
      rewrite ?lookup_insert_ne, ?lookup_delete_ne by congruence; try done.
    (* MainToken *)
    destruct (decide (u = k)) as [->|Hne].
    + rewrite lookup_insert_eq, Hfresh. by destruct (decide (k < k)); [lia|].
    + rewrite lookup_insert_ne by done.
      destruct (us !! u) as [pc|] eqn:Eu; [done|].
      destruct (decide (u < k)), (decide (u < S k)); done || lia.
Qed.

Lemma dyn_history_run (n u : nat) (sched : list (Dyn.action Data)) (s : Dyn.state Data) :
  run sched (start (Tokens n n)) = Some s → Dyn.history_ok u sched s.
Proof.
  revert sched s. apply exec_ind.
  - unfold Dyn.history_ok. simpl. rewrite lookup_empty. by destruct (decide (u < 0)); [lia|].
  - intros l a s s' Hrun IH Hstep.
    eapply dyn_history_step; eauto using dyn_inv_run.
Qed.

Lemma dyn_releases_body (u : nat) (o : Dyn.outcome) :
  Dyn.releases (Data := Data) u (Dyn.body u o) = 0.
Proof. by destruct o. Qed.

(** The final loop takes one token per turn, [n] times, and then
    leaves. *)
Lemma dyn_drains_run (n : nat) (sched : list (Dyn.action Data)) (s : Dyn.state Data) :
  run sched (start (Tokens n n)) = Some s →
  Dyn.drains sched
  = match Dyn.main s with
    | Dyn.MDrain i => i
    | Dyn.MReturned => S n
    | _ => 0
    end.
Proof.
  revert sched s. apply exec_ind; [done|].
  intros l a s s' Hrun IH Hstep.
  apply dyn_inv_run in Hrun as [Hcap Hsum _].
  unfold Dyn.drains in *. rewrite filter_app, length_app, IH. clear IH.
  destruct s as [w tp m us k]; simpl in *.
  destruct a; simpl in Hstep; open_step Hstep; simplify_eq/=; lia.
Qed.

End dyn_facts.
Section dyn_claims.
Context {Data : Type} (task : Task Data) (sp : params).

Local Abbreviation step := (Dyn.step task sp).
Local Abbreviation run := (Dyn.run task sp).
Local Abbreviation start := (Dyn.start (Data := Data) sp).

(** C1, as amended.  When [Run] of a dynamic pool built with ceiling
    [max] has returned, no worker goroutine is left and the token pool,
    of capacity [max], is empty: the final loop has taken all [max]
    tokens out of it and nothing puts them back. *)
Theorem dyn_returned_pool_empty (max : Z) (tp : tokens)
    (sched : list (Dyn.action Data)) (s : Dyn.state Data) :
  DynamicPool task max = Some (dynamicPool task tp) →
  run sched (start tp) = Some s →
  Dyn.main s = Dyn.MReturned →
  len (Dyn.pool s) = 0 ∧ cap (Dyn.pool s) = Z.to_nat max ∧ Dyn.units s = ∅.
Proof.
  intros Hmk Hrun Hret. apply DynamicPool_Some in Hmk as [Hpos ->].
  apply dyn_inv_run in Hrun as [Hcap Hsum _].
  rewrite Hret in Hsum. simpl in Hsum.
  split; [lia|]. split; [done|]. apply map_size_empty_inv. lia.
Qed.

(** C3.  A dynamic pool built with ceiling [max ≥ 1] starts with
    exactly [max] tokens in a pool of capacity [max]; at every point of
    every execution of [Run] at most [max] worker goroutines are alive
    (each holds one token from its launch to its release), and the only
    step that adds a worker takes one token out of the pool. *)
Theorem dyn_at_most_max_workers (max : Z) :
  (1 ≤ max)%Z →
  ∃ tp, DynamicPool task max = Some (dynamicPool task tp)
    ∧ len tp = Z.to_nat max ∧ cap tp = Z.to_nat max
    ∧ ∀ sched s, run sched (start tp) = Some s →
        size (Dyn.units s) ≤ Z.to_nat max
        ∧ len (Dyn.pool s) + size (Dyn.units s) ≤ Z.to_nat max
        ∧ ∀ a s', step a s = Some s' →
            size (Dyn.units s) < size (Dyn.units s') →
            a = Dyn.MainToken
            ∧ size (Dyn.units s') = S (size (Dyn.units s))
            ∧ len (Dyn.pool s) = S (len (Dyn.pool s')).
Proof.
  intros Hmax. eexists. split; [apply DynamicPool_pos; lia|].
  split; [done|]. split; [done|]. intros sched s Hrun.
  apply dyn_inv_run in Hrun as Hinv.
  pose proof (dyn_fresh_unit _ _ Hinv) as Hfresh.
  destruct Hinv as [Hcap Hsum Hids].
  split; [lia|]. split; [lia|]. intros a s' Hstep Hgrow.
  destruct s as [w tp m us k]; simpl in *.
  destruct a; simpl in Hstep; open_step Hstep; simplify_eq/=; try lia.
  all: try (erewrite size_insert_live in Hgrow by done; lia).
  - apply take_Some in E0 as [_ ?].
    rewrite map_size_insert_None in * by done. done.
  - apply size_delete_live in E. lia.
Qed.

(** C4.  Take any execution of [Run] and any worker goroutine [u] that
    was launched.  While [u] is alive it has released nothing.  When
    its body is over, whatever the way ([o] is one of: transform
    failure, no output, output written, write aborted by cancellation),
    the deferred release is enabled, puts exactly one token back and
    ends the worker.  Once [u] is gone, its actions were one of the
    four bodies followed by the release, and it has released exactly
    once. *)
Theorem dyn_permit_returned_once (max : Z) (tp : tokens)
    (sched : list (Dyn.action Data)) (s : Dyn.state Data) (u : nat) :
  DynamicPool task max = Some (dynamicPool task tp) →
  run sched (start tp) = Some s →
  u < Dyn.spawned s →
  match Dyn.units s !! u with
  | Some pc =>
      Dyn.releases u sched = 0
      ∧ ∀ o, pc = Dyn.UDefer o →
          Dyn.history u sched = Dyn.body u o
          ∧ ∃ s', step (Dyn.UnitRelease u) s = Some s'
              ∧ len (Dyn.pool s') = S (len (Dyn.pool s))
              ∧ Dyn.units s' !! u = None
              ∧ Dyn.w s' = Dyn.w s
  | None =>
      Dyn.releases u sched = 1
      ∧ ∃ o, Dyn.history u sched = Dyn.body u o ++ [Dyn.UnitRelease u]
  end.
Proof.
  intros Hmk Hrun Hu. apply DynamicPool_Some in Hmk as [Hpos ->].
  pose proof (dyn_history_run task sp _ u _ _ Hrun) as Hh.
  apply dyn_inv_run in Hrun as [Hcap Hsum Hids].
  unfold Dyn.history_ok in Hh. rewrite dyn_releases_history.
  destruct (Dyn.units s !! u) as [pc|] eqn:Eu.
  - split.
    + destruct pc; rewrite Hh; try done. apply dyn_releases_body.
    + intros o ->. split; [done|].
      pose proof (map_size_ne_0_lookup_2 _ _ (mk_is_Some _ _ Eu)) as Hne.
      unfold Dyn.step. rewrite Eu.
      destruct (give (Dyn.pool s)) as [tp'|] eqn:Eg.
      * apply give_Some in Eg as (? & ? & ?). eexists. split; [done|]. simpl.
        by rewrite lookup_delete_eq.
      * unfold give in Eg. destruct (decide _); [done|lia].
  - destruct (decide (u < Dyn.spawned s)); [|lia].
    destruct Hh as [o Hh]. rewrite Hh. split; [|eauto].
    rewrite dyn_releases_snoc, dyn_releases_body. simpl.
    by rewrite bool_decide_eq_true_2.
Qed.

(** A worker whose body is over can only release, and the release
    touches nothing but the pool. *)
Lemma dyn_defer_only_release (s s' : Dyn.state Data) (u : nat) (o : Dyn.outcome)
    (a : Dyn.action Data) :
  Dyn.units s !! u = Some (Dyn.UDefer o) →
  Dyn.owner a = Some u → step a s = Some s' →
  a = Dyn.UnitRelease u ∧ Dyn.w s' = Dyn.w s ∧ Dyn.units s' !! u = None
  ∧ Dyn.main s' = Dyn.main s.
Proof.
  intros Hu Ho Hstep.
  destruct a; simplify_eq/=; rewrite Hu in Hstep; try done.
  open_step Hstep. simplify_eq/=. by rewrite lookup_delete_eq.
Qed.

(** C7.  A worker [u] about to call the transform on [dataIn], when
    the transform fails with [err]: its next step is enabled; it
    appends "pipeline stage <position>: <err>" to the error sink of
    the stage context and touches no feed and no processed mark; the
    body is then over, and all that is left to the worker is the
    release, which leaves feeds, sink and marks alone. *)
Theorem dyn_failure_reported_item_dropped (s : Dyn.state Data) (u : nat)
    (dataIn : Data) (err : string) :
  Dyn.units s !! u = Some (Dyn.UStart dataIn) →
  (Process (done (Dyn.w s)) dataIn).2 = Some err →
  ∃ s1, step (Dyn.UnitProcess u) s = Some s1
    ∧ errors_of (Error sp) (Dyn.w s1)
      = errors_of (Error sp) (Dyn.w s)
        ++ ["pipeline stage " +:+ pretty (Position sp) +:+ ": " +:+ err]
    ∧ chans (Dyn.w s1) = chans (Dyn.w s)
    ∧ processed (Dyn.w s1) = processed (Dyn.w s)
    ∧ Dyn.units s1 !! u = Some (Dyn.UDefer Dyn.Failed)
    ∧ ∀ s2 a s3,
        Dyn.units s2 !! u = Some (Dyn.UDefer Dyn.Failed) →
        Dyn.owner a = Some u → step a s2 = Some s3 →
        a = Dyn.UnitRelease u ∧ Dyn.w s3 = Dyn.w s2 ∧ Dyn.units s3 !! u = None.
Proof.
  intros Hu Herr. unfold Dyn.step at 1. rewrite Hu.
  destruct (Process (done (Dyn.w s)) dataIn) as [[out|] oe]; simpl in Herr;
    subst oe; (eexists; split; [done|]); simpl;
    rewrite errors_of_Append, lookup_insert_eq; repeat split; try done.
  all: by eapply dyn_defer_only_release.
Qed.

(** C8.  A worker [u] about to call the transform on [dataIn], when
    the transform succeeds: its next step is enabled.  With no output
    item it marks [dataIn] processed, writes nothing, reports nothing,
    and its body is over.  With an output item [dataOut] it changes
    nothing yet and waits in the [select]; there it can only write
    [dataOut] to the output feed (possible whenever that feed is open)
    or, exactly when cancellation has fired, give up, which leaves
    every feed, the sink and the marks untouched. *)
Theorem dyn_success_mark_or_emit (s : Dyn.state Data) (u : nat) (dataIn : Data) :
  Dyn.units s !! u = Some (Dyn.UStart dataIn) →
  (Process (done (Dyn.w s)) dataIn).2 = None →
  ∃ s1, step (Dyn.UnitProcess u) s = Some s1
    ∧ match (Process (done (Dyn.w s)) dataIn).1 with
      | None =>
          processed (Dyn.w s1) = processed (Dyn.w s) ++ [dataIn]
          ∧ chans (Dyn.w s1) = chans (Dyn.w s)
          ∧ sinks (Dyn.w s1) = sinks (Dyn.w s)
          ∧ Dyn.units s1 !! u = Some (Dyn.UDefer Dyn.NoOutput)
      | Some dataOut =>
          Dyn.w s1 = Dyn.w s
          ∧ Dyn.units s1 !! u = Some (Dyn.USelect dataIn dataOut)
          ∧ ∀ s2, Dyn.units s2 !! u = Some (Dyn.USelect dataIn dataOut) →
              (∀ a s3, Dyn.owner a = Some u → step a s2 = Some s3 →
                 a = Dyn.UnitSend u ∨ a = Dyn.UnitCtxDone u)
              ∧ (∀ ch, chans (Dyn.w s2) !! Output sp = Some ch →
                   closed ch = false → is_Some (step (Dyn.UnitSend u) s2))
              ∧ (∀ s3, step (Dyn.UnitSend u) s2 = Some s3 →
                   written_to (Output sp) (Dyn.w s3)
                   = written_to (Output sp) (Dyn.w s2) ++ [dataOut]
                   ∧ sinks (Dyn.w s3) = sinks (Dyn.w s2)
                   ∧ processed (Dyn.w s3) = processed (Dyn.w s2)
                   ∧ Dyn.units s3 !! u = Some (Dyn.UDefer Dyn.Written))
              ∧ step (Dyn.UnitCtxDone u) s2
                = if done (Dyn.w s2)
                  then Some (Dyn.with_unit u (Dyn.UDefer Dyn.Aborted) s2)
                  else None
      end.
Proof.
  intros Hu Herr. unfold Dyn.step at 1. rewrite Hu.
  destruct (Process (done (Dyn.w s)) dataIn) as [[dataOut|] oe];
    simpl in Herr; subst oe; (eexists; split; [done|]); simpl;
    rewrite lookup_insert_eq; [|done].
  split; [done|]. split; [done|]. intros s2 Hs2. repeat split.
  - intros a s3 Ho Hstep. destruct a; simplify_eq/=; rewrite Hs2 in Hstep;
      by eauto.
  - intros ch Hch Hopen. simpl. rewrite Hs2.
    destruct (send_open _ dataOut _ _ Hch Hopen) as [w' ->]. by eexists.
  - simpl in H. rewrite Hs2 in H. open_step H. simplify_eq/=.
    by eapply written_to_send.
  - simpl in H. rewrite Hs2 in H. open_step H. simplify_eq/=.
    by apply send_Some in E as (_ & ? & _).
  - simpl in H. rewrite Hs2 in H. open_step H. simplify_eq/=.
    by apply send_Some in E as (_ & _ & ? & _).
  - simpl in H. rewrite Hs2 in H. open_step H. simplify_eq/=.
    by rewrite lookup_insert_eq.
  - simpl. by rewrite Hs2.
Qed.

(** C9.  Once cancellation has fired: [Run] holding an item [dataIn]
    while waiting for a token may leave the loop, and doing so changes
    nothing but its program point, so no worker is launched for
    [dataIn], no mark and no error are recorded; a worker waiting to
    write [dataOut] may give up, which changes nothing but its program
    point, and the release that follows touches only the pool.  In any
    state, a step that changes the processed marks is a worker whose
    transform returned neither an item nor an error, and it marks its
    own input item. *)
Theorem dyn_cancel_drops_silently (s : Dyn.state Data) :
  done (Dyn.w s) = true →
  (∀ dataIn, Dyn.main s = Dyn.MAcquire dataIn →
     step Dyn.MainCtxDone s = Some (Dyn.with_main (Dyn.MDrain 0) s))
  ∧ (∀ u dataIn dataOut,
       Dyn.units s !! u = Some (Dyn.USelect dataIn dataOut) →
       step (Dyn.UnitCtxDone u) s
       = Some (Dyn.with_unit u (Dyn.UDefer Dyn.Aborted) s)
       ∧ ∀ s2 a s3,
           Dyn.units s2 !! u = Some (Dyn.UDefer Dyn.Aborted) →
           Dyn.owner a = Some u → step a s2 = Some s3 →
           a = Dyn.UnitRelease u ∧ Dyn.w s3 = Dyn.w s2)
  ∧ (∀ a s', step a s = Some s' →
       (processed (Dyn.w s') ≠ processed (Dyn.w s) →
        ∃ u dataIn, a = Dyn.UnitProcess u
          ∧ Dyn.units s !! u = Some (Dyn.UStart dataIn)
          ∧ Process (done (Dyn.w s)) dataIn = (None, None)
          ∧ processed (Dyn.w s') = processed (Dyn.w s) ++ [dataIn])
       ∧ (sinks (Dyn.w s') ≠ sinks (Dyn.w s) →
          ∃ u dataIn err, a = Dyn.UnitProcess u
            ∧ Dyn.units s !! u = Some (Dyn.UStart dataIn)
            ∧ (Process (done (Dyn.w s)) dataIn).2 = Some err)).
Proof.
  intros Hdone. split; [|split].
  - intros dataIn Hm. simpl. by rewrite Hdone, Hm.
  - intros u dataIn dataOut Hu. split.
    + simpl. by rewrite Hu, Hdone.
    + intros s2 a s3 Hs2 Ho Hstep.
      by edestruct dyn_defer_only_release as (? & ? & _).
  - intros a s' Hstep.
    destruct a; simpl in Hstep; open_step Hstep; simplify_eq/=;
      repeat match goal with
      | H : env_step _ _ _ = Some _ |- _ => apply env_step_Some in H as (? & ? & _)
      | H : recv _ _ = Some _ |- _ => apply recv_Some in H as (_ & ? & ? & _)
      | H : send _ _ _ = Some _ |- _ => apply send_Some in H as (_ & ? & ? & _)
      end;
      split; intros Hne; try done; try congruence.
    all: repeat eexists; try done;
      match goal with H : Process _ _ = _ |- _ => by rewrite H end.
Qed.

End dyn_claims.

(** ** The dynamic pool on concrete executions *)

Section dyn_executions.
Import Demo.

(** C1 as stated fails: a pool of ceiling 1 whose input feed is closed
    at once returns from [Run] with no token in the pool. *)
Lemma dyn_pool_not_restored : ¬ Dyn.restores_pool doubler sp 1.
Proof.
  intros H.
  specialize (H (Tokens 1 1) dyn_idle_run
                (Dyn.State (World false
                              (<[0 := Chan [] true]> (<[1 := Chan [] false]> ∅))
                              (<[2 := []]> ∅) [])
                           (Tokens 1 0) Dyn.MReturned ∅ 0)).
  assert (0 = 1) as Habs; [|lia].
  apply H; vm_compute; reflexivity.
Qed.

Lemma dyn_returned_pool_empty_witness :
  len (Dyn.pool (dyn_after dyn_full_run)) = 0
  ∧ cap (Dyn.pool (dyn_after dyn_full_run)) = Z.to_nat 2
  ∧ Dyn.units (dyn_after dyn_full_run) = ∅.
Proof.
  apply (dyn_returned_pool_empty doubler sp 2 (Tokens 2 2) dyn_full_run);
    vm_compute; reflexivity.
Defined.

Lemma dyn_at_most_max_workers_witness :
  ∃ tp, DynamicPool doubler 2 = Some (dynamicPool doubler tp)
    ∧ len tp = 2 ∧ cap tp = 2
    ∧ size (Dyn.units (dyn_after dyn_full_run)) ≤ 2.
Proof.
  destruct (dyn_at_most_max_workers doubler sp 2) as (tp & Hmk & Hlen & Hcap & Hrun);
    [lia|].
  exists tp. split; [exact Hmk|]. split; [exact Hlen|]. split; [exact Hcap|].
  vm_compute in Hmk. injection Hmk as <-.
  apply (Hrun dyn_full_run). vm_compute. reflexivity.
Defined.

Lemma dyn_permit_returned_once_witness :
  Dyn.releases 1 dyn_full_run = 1
  ∧ ∃ o, Dyn.history 1 dyn_full_run = Dyn.body 1 o ++ [Dyn.UnitRelease 1].
Proof.
  apply (dyn_permit_returned_once doubler sp 2 (Tokens 2 2) dyn_full_run
           (dyn_after dyn_full_run) 1); vm_compute; (reflexivity || lia).
Defined.

Lemma dyn_failure_reported_item_dropped_witness :
  ∃ s1, Dyn.step doubler sp (Dyn.UnitProcess 0)
          (dyn_after [Dyn.Env (Feed 0%Z); Dyn.MainRecv; Dyn.MainToken]) = Some s1
    ∧ errors_of 2 (Dyn.w s1) = ["pipeline stage 3: zero"]
    ∧ written_to 1 (Dyn.w s1) = [].
Proof.
  destruct (dyn_failure_reported_item_dropped doubler sp
              (dyn_after [Dyn.Env (Feed 0%Z); Dyn.MainRecv; Dyn.MainToken])
              0 0%Z "zero")
    as (s1 & Hstep & Herr & Hch & _); [reflexivity | reflexivity |].
  exists s1. split; [exact Hstep|]. split; [exact Herr|].
  unfold written_to. rewrite Hch. reflexivity.
Defined.

Lemma dyn_success_mark_or_emit_witness :
  ∃ s1, Dyn.step doubler sp (Dyn.UnitProcess 0)
          (dyn_after [Dyn.Env (Feed (-1)%Z); Dyn.MainRecv; Dyn.MainToken]) = Some s1
    ∧ processed (Dyn.w s1) = [(-1)%Z].
Proof.
  destruct (dyn_success_mark_or_emit doubler sp
              (dyn_after [Dyn.Env (Feed (-1)%Z); Dyn.MainRecv; Dyn.MainToken])
              0 (-1)%Z)
    as (s1 & Hstep & Hmark & _); [reflexivity | reflexivity |].
  exists s1. split; [exact Hstep | exact Hmark].
Defined.

Lemma dyn_cancel_drops_silently_witness :
  Dyn.step doubler sp Dyn.MainCtxDone
    (dyn_after [Dyn.Env (Feed 5%Z); Dyn.MainRecv; Dyn.Env Cancel])
  = Some (Dyn.with_main (Dyn.MDrain 0)
            (dyn_after [Dyn.Env (Feed 5%Z); Dyn.MainRecv; Dyn.Env Cancel])).
Proof.
  destruct (dyn_cancel_drops_silently doubler sp
              (dyn_after [Dyn.Env (Feed 5%Z); Dyn.MainRecv; Dyn.Env Cancel]))
    as (Hmain & _); [reflexivity|].
  apply (Hmain 5%Z). reflexivity.
Defined.

End dyn_executions.

(** ** Counting unfinished goroutines *)

Section unfinished_facts.
Context {A : Type} (fin : A → bool).
Implicit Types (rs : gmap nat A) (i : nat) (g : A).

Lemma unfinished_empty : unfinished fin (∅ : gmap nat A) = 0.
Proof. unfold unfinished. by rewrite map_filter_empty, map_size_empty. Qed.

Lemma unfinished_insert_new rs i g :
  rs !! i = None → fin g = false →
  unfinished fin (<[i := g]> rs) = S (unfinished fin rs).
Proof.
  intros Hi Hg. unfold unfinished.
  rewrite map_filter_insert_True by done.
  apply map_size_insert_None. apply map_lookup_filter_None. by left.
Qed.

Lemma unfinished_insert_live rs i g g' :
  rs !! i = Some g → fin g = false → fin g' = false →
  unfinished fin (<[i := g']> rs) = unfinished fin rs.
Proof.
  intros Hi Hg Hg'. unfold unfinished.
  rewrite map_filter_insert_True by done.
  apply map_size_insert_Some. exists g. by apply map_lookup_filter_Some.
Qed.

Lemma unfinished_insert_done rs i g g' :
  rs !! i = Some g → fin g = false → fin g' = true →
  S (unfinished fin (<[i := g']> rs)) = unfinished fin rs.
Proof.
  intros Hi Hg Hg'. unfold unfinished.
  rewrite map_filter_insert_False by (simpl; congruence).
  rewrite map_filter_delete. eapply size_delete_live.
  by apply map_lookup_filter_Some.
Qed.

Lemma unfinished_zero rs i g :
  unfinished fin rs = 0 → rs !! i = Some g → fin g = true.
Proof.
  intros Hz Hi. unfold unfinished in Hz. apply map_size_empty_inv in Hz.
  destruct (fin g) eqn:Hg; [done|].
  assert (filter (λ kv, fin kv.2 = false) rs !! i = Some g) as Hf
    by by apply map_lookup_filter_Some.
  rewrite Hz, lookup_empty in Hf. done.
Qed.

End unfinished_facts.

(** ** The fixed pool *)

Section fixed_facts.
Context {Data : Type} (fifos : list (Stage Data)) (sp : params).

Local Abbreviation step := (Fixed.step fifos sp).
Local Abbreviation run := (Fixed.run fifos sp).
Local Abbreviation start := (Fixed.start (Data := Data) sp).

Lemma fixed_inv_start : Fixed.inv fifos start.
Proof.
  split; simpl.
  - lia.
  - intros idx. rewrite lookup_empty. split; [by intros [? ?] | lia].
  - by rewrite unfinished_empty.
  - done.
Qed.

Lemma fixed_inv_step (a : Fixed.action Data) (s s' : Fixed.state Data) :
  step a s = Some s' → Fixed.inv fifos s → Fixed.inv fifos s'.
Proof.
  intros Hstep [Hb Hreps Hwg Hret].
  destruct s as [w m n rs]; simpl in *.
  destruct a; simpl in Hstep; open_step Hstep; simplify_eq/=.
  - (* Env *) by split.
  - (* MainSpawn, one more goroutine *)
    assert (rs !! i = None) as Hnew.
    { destruct (rs !! i) eqn:E; [|done].
      assert (i < i); [|lia]. apply Hreps. eauto. }
    split; simpl; [lia | | | done].
    + intros idx. destruct (decide (idx = i)) as [->|Hne].
      * rewrite lookup_insert_eq. split; [lia | eauto].
      * rewrite lookup_insert_ne by done. rewrite Hreps. lia.
    + by rewrite unfinished_insert_new.
  - (* MainSpawn, loop exit *)
    split; simpl; [done | | done | done].
    intros idx. rewrite Hreps. lia.
  - (* MainWait *) by split.
  - (* Rep *)
    split; simpl; [done | | | done].
    + intros idx'. destruct (decide (idx' = idx)) as [->|Hne].
      * rewrite lookup_insert_eq, <- Hreps. split; eauto.
      * by rewrite lookup_insert_ne.
    + by erewrite unfinished_insert_live.
  - (* RepDone *)
    split; simpl; [done | | | ].
    + intros idx'. destruct (decide (idx' = idx)) as [->|Hne].
      * rewrite lookup_insert_eq, <- Hreps. split; eauto.
      * by rewrite lookup_insert_ne.
    + pose proof (unfinished_insert_done Fixed.finished rs idx _ Fixed.GDone E) as H.
      rewrite <- H, <- Hwg in *; [lia | done | done].
    + intros ->. specialize (Hret eq_refl). lia.
Qed.

Lemma fixed_inv_run (sched : list (Fixed.action Data)) (s : Fixed.state Data) :
  run sched start = Some s → Fixed.inv fifos s.
Proof.
  revert sched s. apply exec_ind; [apply fixed_inv_start|].
  intros l a s s' _ IH Hstep. by eapply fixed_inv_step.
Qed.

(** When [Run] has returned, every one of the [len(p.fifos)] goroutines
    has come back from its replica's [Run] and has finished. *)
Lemma fixed_returned_all_done (sched : list (Fixed.action Data))
    (s : Fixed.state Data) (idx : nat) :
  run sched start = Some s → Fixed.main s = Fixed.MReturned →
  idx < length fifos → Fixed.reps s !! idx = Some Fixed.GDone.
Proof.
  intros Hrun Hret Hidx. apply fixed_inv_run in Hrun as [Hb Hreps Hwg Hz].
  specialize (Hz Hret). rewrite Hret in Hreps. simpl in Hreps.
  apply Hreps in Hidx as [g Hg]. rewrite Hg. f_equal.
  rewrite Hwg in Hz. pose proof (unfinished_zero _ _ _ _ Hz Hg) as Hfin.
  by destruct g.
Qed.

End fixed_facts.

(** ** The sequential stage *)

Section fifo_facts.
Context {Data : Type} (proc : Task Data) (ps : params).

Lemma fifo_step_dom (a : Fifo.action) (p p' : Fifo.pc Data) (w w' : world Data) (c : nat) :
  Fifo.step proc ps a p w = Some (p', w') →
  is_Some (chans w !! c) → is_Some (chans w' !! c).
Proof.
  intros Hstep Hc.
  destruct a, p; simpl in Hstep; open_step Hstep; simplify_eq/=; try done.
  - apply recv_Some in E as (_ & _ & _ & ch & Hch & rest & _ & ->).
    rewrite lookup_insert. by destruct (decide _).
  - by apply recv_Some in E as (_ & _ & _ & ch & Hch & _ & _ & ->).
  - apply send_Some in E as (_ & _ & _ & ch & Hch & _ & ->).
    rewrite lookup_insert. by destruct (decide _).
Qed.

(** A step of the replica leaves alone every feed other than its
    output, its input included when nothing waits there. *)
Lemma fifo_step_frame (a : Fifo.action) (p p' : Fifo.pc Data) (w w' : world Data)
    (c : nat) (ch : chan Data) :
  Fifo.step proc ps a p w = Some (p', w') →
  chans w !! c = Some ch → c ≠ Output ps → (c = Input ps → items ch = []) →
  chans w' !! c = Some ch.
Proof.
  intros Hstep Hc Hout Hin.
  destruct a, p; simpl in Hstep; open_step Hstep; simplify_eq/=; try done.
  - apply recv_Some in E as (_ & _ & _ & ch' & Hch & rest & Hi & ->).
    destruct (decide (c = Input ps)) as [->|Hne].
    + simplify_eq. rewrite Hin in Hi; done.
    + by rewrite lookup_insert_ne.
  - by apply recv_Some in E as (_ & _ & _ & ch' & Hch & _ & _ & ->).
  - apply send_Some in E as (_ & _ & _ & ch' & Hch & _ & ->).
    by rewrite lookup_insert_ne.
Qed.

Lemma fifo_step_done (a : Fifo.action) (p p' : Fifo.pc Data) (w w' : world Data) :
  Fifo.step proc ps a p w = Some (p', w') → done w' = done w.
Proof.
  intros Hstep.
  destruct a, p; simpl in Hstep; open_step Hstep; simplify_eq/=; try done.
  - by apply recv_Some in E as (? & _).
  - by apply recv_Some in E as (? & _).
  - by apply send_Some in E as (? & _).
Qed.

End fifo_facts.

Lemma env_step_dom {Data : Type} (sp : params) (e : env_action Data)
    (w w' : world Data) (c : nat) :
  env_step sp e w = Some w' → is_Some (chans w !! c) → is_Some (chans w' !! c).
Proof.
  destruct e; simpl; intros H Hc.
  - by simplify_eq.
  - apply send_Some in H as (_ & _ & _ & ch & _ & _ & ->).
    rewrite lookup_insert. by destruct (decide _).
  - apply close_Some in H as (_ & _ & _ & ch & _ & _ & ->).
    rewrite lookup_insert. by destruct (decide _).
Qed.

(** ** The broadcast *)

Section bcast_facts.
Context {Payload : Type} (fifos : list (Stage nat)) (sp : params).

Local Abbreviation step := (Bcast.step (Payload := Payload) fifos sp).
Local Abbreviation run := (Bcast.run (Payload := Payload) fifos sp).
Local Abbreviation start := (Bcast.start (Payload := Payload) fifos sp).
Local Abbreviation inv := (Bcast.inv (Payload := Payload) fifos sp).

Lemma bcast_inv_start (h : list Payload) : inv (start h).
Proof.
  split; simpl.
  - by rewrite length_replicate.
  - lia.
  - lia.
  - intros idx. rewrite lookup_empty. split; [by intros [? ?] | lia].
  - by rewrite unfinished_empty.
  - done.
  - split.
    + rewrite lookup_insert_eq. eauto.
    + rewrite lookup_insert. destruct (decide _); eauto.
      rewrite lookup_insert_eq. eauto.
  - lia.
  - intros idx c Hc. apply lookup_replicate in Hc as [? _]. done.
  - intros i j c Hc. apply lookup_replicate in Hc as [? _]. done.
  - intros idx g ps. by rewrite lookup_empty.
Qed.

Lemma mjoin_Some {A : Type} (o : option (option A)) (x : A) :
  mjoin o = Some x → o = Some (Some x).
Proof. by destruct o as [[?|]|]; intros; simplify_eq/=. Qed.

Lemma is_Some_insert_live {A : Type} (m : gmap nat A) (i j : nat) (x y : A) :
  m !! i = Some x → is_Some (<[i := y]> m !! j) ↔ is_Some (m !! j).
Proof.
  intros Hi. destruct (decide (j = i)) as [->|Hne].
  - rewrite lookup_insert_eq, Hi. split; eauto.
  - by rewrite lookup_insert_ne.
Qed.

(** Steps that leave the wiring in place. *)
Lemma bcast_inv_frame (s s' : Bcast.state Payload) :
  inv s →
  Bcast.inCh s' = Bcast.inCh s →
  Bcast.launched fifos (Bcast.main s') = Bcast.launched fifos (Bcast.main s) →
  Bcast.closed_upto fifos (Bcast.main s') = Bcast.closed_upto fifos (Bcast.main s) →
  (Bcast.main s' = Bcast.MReturned → Bcast.wg s' = 0) →
  (∀ c, is_Some (chans (Bcast.w s) !! c) → is_Some (chans (Bcast.w s') !! c)) →
  (∀ c ch, chans (Bcast.w s) !! c = Some ch → c ≠ Input sp → c ≠ Output sp →
     items ch = [] → chans (Bcast.w s') !! c = Some ch) →
  (∀ idx, is_Some (Bcast.reps s' !! idx) ↔ is_Some (Bcast.reps s !! idx)) →
  (∀ idx g' ps, Bcast.reps s' !! idx = Some g' → Bcast.params_of g' = Some ps →
     (∃ g, Bcast.reps s !! idx = Some g ∧ Bcast.params_of g = Some ps)
     ∨ (ps = Params (Position sp) (Input ps) (Output sp) (Error sp)
        ∧ Bcast.inCh s !! idx = Some (Some (Input ps)))) →
  Bcast.wg s' = unfinished Bcast.finished (Bcast.reps s') →
  inv s'.
Proof.
  intros [Hlen Hb Hcb Hreps Hwg Hret [Hfi Hfo] HinCh Hnil Hinj Hps]
    Hic Hl Hc Hret' Hdom Hframe Hreps' Hps' Hwg'.
  split; rewrite ?Hic, ?Hl, ?Hc; try done.
  - intros idx. by rewrite Hreps'.
  - split; by apply Hdom.
  - intros idx Hidx. destruct (HinCh idx Hidx) as (c & H1 & H2 & H3 & H4).
    exists c. repeat split; try done. by apply Hframe.
  - intros idx g' ps Hg' Hp.
    destruct (Hps' idx g' ps Hg' Hp) as [(g & Hg & Hpg)|H]; [|done].
    by eapply Hps.
Qed.

Lemma bcast_inv_step (a : Bcast.action Payload) (s s' : Bcast.state Payload) :
  step a s = Some s' → inv s → inv s'.
Proof.
  intros Hstep Hinv.
  pose proof Hinv as [Hlen Hb Hcb Hreps Hwg Hret [Hfi Hfo] HinCh Hnil Hinj Hps].
  destruct s as [w h m ic n rs tk dl cl]; simpl in *.
  destruct a; simpl in Hstep; open_step Hstep; simplify_eq/=.
  all: try (eapply bcast_inv_frame; [eassumption|..]; simpl; try done; eauto; fail).
  - (* Env *)
    eapply bcast_inv_frame; [eassumption|..]; simpl; try done; try (by eauto).
    + intros c. by eapply env_step_dom.
    + intros c ch Hch Hne _ _. apply env_step_Some in E as (_ & _ & _ & Hfr).
      by rewrite Hfr.
  - (* MainSpawn: one more goroutine and its private feed *)
    set (c0 := fresh (dom (chans w))) in *.
    assert (chans w !! c0 = None) as Hc0
      by (apply not_elem_of_dom; apply is_fresh).
    assert (rs !! i = None) as Hnew.
    { destruct (rs !! i) eqn:Ei; [|done].
      assert (i < i); [|lia]. apply Hreps. eauto. }
    assert (∀ j, ic !! j ≠ Some (Some c0)) as Hold.
    { intros j Hj. apply Hnil in Hj as Hji.
      destruct (HinCh j Hji) as (c & H1 & _ & _ & H4). simplify_eq. }
    split; simpl.
    + by rewrite length_insert.
    + lia.
    + lia.
    + intros idx. destruct (decide (idx = i)) as [->|Hne].
      * rewrite lookup_insert_eq. split; [lia | eauto].
      * rewrite lookup_insert_ne by done. rewrite Hreps. lia.
    + by rewrite unfinished_insert_new.
    + done.
    + split; rewrite lookup_insert; [destruct (decide (c0 = Input sp)) | destruct (decide (c0 = Output sp))]; eauto.
    + intros idx Hidx. destruct (decide (idx = i)) as [->|Hne].
      * exists c0. rewrite list_lookup_insert_eq by lia. rewrite lookup_insert_eq.
        repeat split; try done.
        -- intros Heq. rewrite <- Heq, Hc0 in Hfi. by destruct Hfi.
        -- intros Heq. rewrite <- Heq, Hc0 in Hfo. by destruct Hfo.
      * destruct (HinCh idx) as (c & H1 & H2 & H3 & H4); [lia|].
        exists c. rewrite list_lookup_insert_ne by done.
        rewrite lookup_insert_ne by congruence. done.
    + intros idx c Hc. destruct (decide (idx = i)) as [->|Hne]; [lia|].
      rewrite list_lookup_insert_ne in Hc by done. apply Hnil in Hc. lia.
    + intros i1 i2 c H1 H2.
      destruct (decide (i1 = i)) as [->|Hne1], (decide (i2 = i)) as [->|Hne2];
        try done.
      * rewrite list_lookup_insert_eq in H1 by lia.
        rewrite list_lookup_insert_ne in H2 by done. simplify_eq.
        by apply Hold in H2.
      * rewrite list_lookup_insert_eq in H2 by lia.
        rewrite list_lookup_insert_ne in H1 by done. simplify_eq.
        by apply Hold in H1.
      * rewrite list_lookup_insert_ne in H1, H2 by done. by eapply Hinj.
    + intros idx g ps Hg Hp. destruct (decide (idx = i)) as [->|Hne].
      * rewrite lookup_insert_eq in Hg. by simplify_eq.
      * rewrite lookup_insert_ne in Hg by done.
        rewrite list_lookup_insert_ne by done. by eapply Hps.
  - (* MainSpawn: the loop is over *)
    eapply bcast_inv_frame; [eassumption|..]; simpl; try done; try (by eauto).
    lia.
  - (* MainRecv *)
    match goal with
    | H : recv _ _ = Some _ |- _ =>
        apply recv_Some in H as (_ & _ & _ & ch & Hch & rest & _ & Hw)
    end.
    eapply bcast_inv_frame; [eassumption|..]; simpl; try done; try (by eauto).
    + intros c Hc. rewrite Hw, lookup_insert. by destruct (decide (Input sp = c)).
    + intros c ch' Hc Hne _ _. by rewrite Hw, lookup_insert_ne.
  - (* Deliver *)
    eapply bcast_inv_frame; [eassumption|..]; simpl; try done; try (by eauto).
    + intros i'. by eapply is_Some_insert_live.
    + intros idx' g' ps' Hg' Hp'. left.
      destruct (decide (idx' = idx)) as [->|Hne].
      * rewrite lookup_insert_eq in Hg'. simplify_eq/=. eauto.
      * rewrite lookup_insert_ne in Hg' by done. eauto.
    + by erewrite unfinished_insert_live.
  - (* MainClose: one more private feed is closed *)
    apply mjoin_Some in E1 as Hk.
    apply close_Some in E2 as (_ & _ & _ & ch & Hch & Hopen & Hw).
    split; simpl; try done.
    + lia.
    + split; rewrite Hw, lookup_insert;
        [destruct (decide (x = Input sp)) | destruct (decide (x = Output sp))];
        eauto.
    + intros idx Hidx. destruct (HinCh idx Hidx) as (c & H1 & H2 & H3 & H4).
      exists c. repeat split; try done. rewrite Hw.
      destruct (decide (idx = k)) as [->|Hne].
      * simplify_eq. rewrite lookup_insert_eq.
        rewrite (bool_decide_eq_true_2 (k < S k)) by lia. done.
      * rewrite lookup_insert_ne by (intros ->; by specialize (Hinj _ _ _ H1 Hk)).
        rewrite H4. do 2 f_equal. apply bool_decide_ext. lia.
  - (* MainClose: the loop is over *)
    eapply bcast_inv_frame; [eassumption|..]; simpl; try done; try (by eauto).
    lia.
  - (* RepInit *)
    match goal with H : mjoin _ = Some _ |- _ => apply mjoin_Some in H as Hk end.
    eapply bcast_inv_frame; [eassumption|..]; simpl; try done; try (by eauto).
    + intros i'. by eapply is_Some_insert_live.
    + intros idx' g' ps' Hg' Hp'.
      destruct (decide (idx' = idx)) as [->|Hne].
      * rewrite lookup_insert_eq in Hg'. simplify_eq/=. by right.
      * rewrite lookup_insert_ne in Hg' by done. eauto.
    + by erewrite unfinished_insert_live.
  - (* Rep *)
    match goal with
    | H : rs !! idx = Some _ |- _ =>
        destruct (Hps _ _ fifoParams H eq_refl) as [Hfp Hic]
    end.
    eapply bcast_inv_frame; [eassumption|..]; simpl; try done; try (by eauto).
    + intros c. by eapply fifo_step_dom.
    + intros c ch Hc _ Hout Hitems. eapply fifo_step_frame; try done.
      by rewrite Hfp.
    + intros i'. by eapply is_Some_insert_live.
    + intros idx' g' ps' Hg' Hp'. left.
      destruct (decide (idx' = idx)) as [->|Hne].
      * rewrite lookup_insert_eq in Hg'. simplify_eq/=. eauto.
      * rewrite lookup_insert_ne in Hg' by done. eauto.
    + by erewrite unfinished_insert_live.
  - (* RepDone *)
    match goal with
    | H : rs !! idx = Some _ |- _ =>
        pose proof (unfinished_insert_done Bcast.finished rs idx _
                      (Bcast.GDone fifoParams) H eq_refl eq_refl) as Hcount
    end.
    eapply bcast_inv_frame; [eassumption|..]; simpl; try done; try (by eauto).
    + intros ->. specialize (Hret eq_refl). lia.
    + intros i'. by eapply is_Some_insert_live.
    + intros idx' g' ps' Hg' Hp'. left.
      destruct (decide (idx' = idx)) as [->|Hne].
      * rewrite lookup_insert_eq in Hg'. simplify_eq/=. eauto.
      * rewrite lookup_insert_ne in Hg' by done. eauto.
    + lia.
Qed.
Lemma bcast_inv_run (h : list Payload) (sched : list (Bcast.action Payload))
    (s : Bcast.state Payload) :
  run sched (start h) = Some s → inv s.
Proof.
  revert sched s. apply exec_ind; [apply bcast_inv_start|].
  intros l a s s' _ IH Hstep. by eapply bcast_inv_step.
Qed.

Local Abbreviation fan_inv := (Bcast.fan_inv (Payload := Payload) fifos).

Lemma bcast_fan_start (h : list Payload) : fan_inv (start h).
Proof.
  assert (∀ idx, Bcast.sent_to idx (start h) = []) as Hsent.
  { intros idx. unfold Bcast.sent_to. simpl. by rewrite lookup_empty. }
  split; try setoid_rewrite Hsent; simpl; try done.
  - exists 0. split; [lia|]. split; [done|]. split.
    + intros j' ?. by simplify_eq.
    + intros idx _. by destruct (decide (idx < 0)); [lia|].
  - intros idx d _ ?%elem_of_nil. done.
Qed.

(** Steps that deliver nothing, take nothing and clone nothing. *)
Lemma bcast_fan_frame (s s' : Bcast.state Payload) :
  fan_inv s →
  Bcast.taken s' = Bcast.taken s → Bcast.delivered s' = Bcast.delivered s →
  Bcast.cloned s' = Bcast.cloned s →
  length (Bcast.heap s') = length (Bcast.heap s) →
  (∀ j', Bcast.cut (Bcast.main s') = Some j' → Bcast.cut (Bcast.main s) = Some j') →
  (Bcast.main s' = Bcast.main s
   ∨ match Bcast.main s' with
     | Bcast.MFan _ _ => False
     | Bcast.MSend _ _ _ => False
     | _ => True
     end) →
  fan_inv s'.
Proof.
  intros [(j & Hj & Hj0 & Hjc & Hjl) Hnone Hmain Hheap Horig Hclone Horder]
    Htk Hdl Hcl Hh Hcut Hm.
  split; unfold Bcast.sent_to in *; rewrite ?Htk, ?Hcl, ?Hh, ?Hdl; try done.
  - exists j. repeat split; try done. intros j' Hj'. apply Hjc. by apply Hcut.
  - destruct Hm as [->|Hm]; [done|].
    by destruct (Bcast.main s').
Qed.

Lemma sent_to_insert (dl : gmap nat (list nat)) (ci idx : nat) (l : list nat) :
  default [] (<[ci := l]> dl !! idx)
  = if decide (idx = ci) then l else default [] (dl !! idx).
Proof.
  destruct (decide (idx = ci)) as [->|Hne].
  - by rewrite lookup_insert_eq.
  - by rewrite lookup_insert_ne.
Qed.

Lemma bcast_fan_step (a : Bcast.action Payload) (s s' : Bcast.state Payload) :
  step a s = Some s' → fan_inv s → fan_inv s'.
Proof.
  intros Hstep Hfan.
  destruct s as [w h m ic n rs tk dl cl].
  destruct a; simpl in Hstep; open_step Hstep; simplify_eq/=.
  all: try (eapply bcast_fan_frame; [eassumption|..]; simpl;
            rewrite ?length_insert; try done; try (by eauto); fail).
  all: destruct Hfan as [(j & Hj & Hj0 & Hjc & Hjl) Hnone Hmain Hheap Horig Hclone Horder];
    unfold Bcast.sent_to in *; simpl in *.
  - (* MainRecv: a new item, nobody served yet *)
    specialize (Hjc 0 eq_refl) as ->.
    split; unfold Bcast.sent_to; simpl; try done.
    + exists (length fifos). split; [lia|]. split.
      { intros Hnil. by apply app_nil in Hnil as [_ ?]. }
      split.
      * intros j' Hj'. simplify_eq. lia.
      * intros idx Hidx. rewrite length_app. simpl. specialize (Hjl idx Hidx).
        destruct (decide (idx < 0)), (decide (idx < length fifos)); lia.
    + split; [lia | apply last_snoc].
    + intros k d Hk. apply lookup_app_l_Some. eauto.
    + intros idx k d Hne Hk. destruct (Hclone idx k d Hne Hk) as (orig & ? & ? & ?).
      exists orig. split; [by apply lookup_app_l_Some | done].
  - (* MainFan: a clone for a replica other than the first *)
    match goal with
    | H : Bcast.Clone _ _ = Some _ |- _ =>
        unfold Bcast.Clone in H; apply bind_Some in H as (p & Hp & Heq)
    end.
    simplify_eq. apply lookup_lt_Some in Hp. destruct Hmain as [Hi Hlast].
    split; unfold Bcast.sent_to; simpl; try done.
    + exists j. repeat split; done.
    + split; [lia|]. split; [done|]. split; [done|]. intros _.
      split; [apply elem_of_app; right; by apply list_elem_of_singleton|].
      split; [done|]. split; [rewrite length_app; simpl; lia|].
      intros idx d ? ?. by eapply Hheap.
    + intros idx d Hne Hd. rewrite length_app. specialize (Hheap idx d Hne Hd). lia.
    + intros idx k d Hne Hk. destruct (Hclone idx k d Hne Hk) as (orig & ? & ? & ?).
      exists orig. rewrite elem_of_app. eauto.
  - (* MainFan: the original for the first replica *)
    destruct Hmain as [Hi Hlast].
    split; unfold Bcast.sent_to; simpl; try done.
    + exists j. repeat split; done.
    + split; [lia|]. split; [done|]. split; [done|]. intros ?. done.
  - (* MainFan: the loop is over *)
    destruct Hmain as [Hi Hlast].
    split; unfold Bcast.sent_to; simpl; try done.
    exists j. repeat split; try done. intros j' Hj'. simplify_eq.
    apply Hjc. f_equal. lia.
  - (* Deliver *)
    destruct Hmain as (Hi & Hlast & Hfirst & Hrest).
    set (ci := Z.to_nat i) in *.
    assert (ci < length fifos) as Hci by lia.
    specialize (Hjc (Z.to_nat (i + 1)) eq_refl) as ->.
    replace (Z.to_nat (i + 1)) with (S ci) in * by lia.
    pose proof (Hjl ci Hci) as Hlen. destruct (decide (ci < S ci)); [|lia].
    assert (tk !! length (default [] (dl !! ci)) = Some data) as Hpos.
    { rewrite last_lookup in Hlast. rewrite <- Hlast. f_equal. lia. }
    split; unfold Bcast.sent_to; simpl; try setoid_rewrite sent_to_insert.
    + exists ci. split; [lia|]. split; [intros ->; simpl in *; lia|]. split.
      * intros j' Hj'. simplify_eq. lia.
      * intros r Hr. specialize (Hjl r Hr).
        destruct (decide (r = ci)) as [->|Hne].
        -- rewrite length_app. simpl. destruct (decide (ci < ci)); lia.
        -- destruct (decide (r < ci)), (decide (r < S ci)); lia.
    + intros r Hr. destruct (decide (r = ci)); [lia|]. by apply Hnone.
    + split; [lia | done].
    + intros r d Hne. destruct (decide (r = ci)) as [->|Hne']; [|by apply Hheap].
      intros [Hd|Hd%list_elem_of_singleton]%elem_of_app; [by eapply Hheap|].
      subst d. apply Hrest. lia.
    + intros k d. destruct (decide (0 = ci)) as [Hz|Hnz]; [|by apply Horig].
      rewrite <- Hz in *.
      intros [[_ Hd]|[-> <-]]%lookup_snoc_Some; [by apply Horig|].
      by rewrite Hfirst by lia.
    + intros r k d Hne. destruct (decide (r = ci)) as [->|Hne']; [|by apply Hclone].
      intros [[_ Hd]|[-> <-]]%lookup_snoc_Some; [by apply (Hclone ci)|].
      destruct Hrest as (Hcl & Hlt & _); [lia|]. eauto.
    + intros r r' k d d' Hlt.
      destruct (decide (r = ci)) as [->|Hne], (decide (r' = ci)) as [->|Hne'];
        try lia.
      * intros [[_ Hd]|[-> <-]]%lookup_snoc_Some Hd'; [by eapply Horder|].
        destruct Hrest as (_ & _ & _ & Hfresh); [lia|].
        eapply (Hfresh r'); [lia|]. by eapply list_elem_of_lookup_2.
      * intros Hd [[_ Hd']|[-> <-]]%lookup_snoc_Some; [by eapply Horder|].
        apply lookup_lt_Some in Hd.
        assert (r < length fifos) as Hr by lia.
        specialize (Hjl r Hr). destruct (decide (r < S ci)); lia.
      * by apply Horder.
Qed.

Lemma bcast_fan_run (h : list Payload) (sched : list (Bcast.action Payload))
    (s : Bcast.state Payload) :
  run sched (start h) = Some s → fan_inv s.
Proof.
  revert sched s. apply exec_ind; [apply bcast_fan_start|].
  intros l a s s' _ IH Hstep. by eapply bcast_fan_step.
Qed.




End bcast_facts.

(** ** The claims on the broadcast *)

Section bcast_claims.
Context {Payload : Type} (fifos : list (Stage nat)) (sp : params).

Local Abbreviation step := (Bcast.step (Payload := Payload) fifos sp).
Local Abbreviation run := (Bcast.run (Payload := Payload) fifos sp).
Local Abbreviation start := (Bcast.start (Payload := Payload) fifos sp).


(** C10.  In every state of every execution of the broadcast, the
    stage context [fifoParams] a goroutine [idx] runs its replica with
    has the position, the output feed and the error sink of the
    context [sp] the broadcast was given; its input feed is
    [inCh[idx]], which is neither feed of [sp] and is the input feed
    of no other replica.  So when the transform of a replica fails,
    the error appended by the replica goes to the sink of [sp] and
    reads "pipeline stage <position of sp>: <err>". *)
Theorem bcast_replica_context (h : list Payload)
    (sched : list (Bcast.action Payload)) (s : Bcast.state Payload)
    (idx : nat) (g : Bcast.gpc) (ps : params) :
  run sched (start h) = Some s →
  Bcast.reps s !! idx = Some g → Bcast.params_of g = Some ps →
  Position ps = Position sp ∧ Output ps = Output sp ∧ Error ps = Error sp
  ∧ Bcast.inCh s !! idx = Some (Some (Input ps))
  ∧ Input ps ≠ Input sp ∧ Input ps ≠ Output sp
  ∧ (∀ idx' g' ps', idx' ≠ idx → Bcast.reps s !! idx' = Some g' →
       Bcast.params_of g' = Some ps' → Input ps' ≠ Input ps)
  ∧ (∀ proc dataIn err,
       g = Bcast.GRun ps (Fifo.Processing dataIn) →
       fifos !! idx = Some (fifo proc) →
       (Process (done (Bcast.w s)) dataIn).2 = Some err →
       ∃ s', step (Bcast.Rep idx Fifo.Proc) s = Some s'
         ∧ errors_of (Error sp) (Bcast.w s')
           = errors_of (Error sp) (Bcast.w s)
             ++ ["pipeline stage " +:+ pretty (Position sp) +:+ ": " +:+ err]).
Proof.
  intros Hrun Hg Hp.
  pose proof (bcast_inv_run _ _ _ _ _ Hrun)
    as [_ _ _ Hreps _ _ _ HinCh _ Hinj Hps].
  destruct (Hps _ _ _ Hg Hp) as [Heq Hic].
  assert (idx < Bcast.launched fifos (Bcast.main s)) as Hlt by (apply Hreps; eauto).
  destruct (HinCh _ Hlt) as (c & Hc & Hci & Hco & _). simplify_eq.
  assert (Position ps = Position sp ∧ Output ps = Output sp
          ∧ Error ps = Error sp) as (Hpos & Hout & Herrq)
    by (by rewrite Heq).
  repeat split; try done.
  - intros idx' g' ps' Hne Hg' Hp' Hsame.
    destruct (Hps _ _ _ Hg' Hp') as [_ Hic']. rewrite Hsame in Hic'.
    by specialize (Hinj _ _ _ Hic Hic').
  - intros proc dataIn err -> Hproc Herr. simpl. rewrite Hg, Hproc. simpl.
    destruct (Process (done (Bcast.w s)) dataIn) as [[out|] oe]; simpl in Herr;
      subst oe; simpl; (eexists; split; [done|]); simpl;
      by rewrite Hpos, Herrq, errors_of_Append.
Qed.

End bcast_claims.

(** ** The claims on all three stages *)

Section stage_claims.
Context {Data Payload : Type}.

(** C5.  When [Run] has returned: in the fixed pool every one of the
    [len(p.fifos)] goroutines has come back from its replica's [Run]
    and has called [wg.Done()]; in the dynamic pool no worker
    goroutine is left, none of the [max] tokens is in the pool or with
    a worker, and the final loop has made its [max] turns, one token
    received at each, before the turn that leaves it; in the
    broadcast every private feed has been closed and every one of the
    [len(b.fifos)] goroutines has come back from its replica's [Run]
    and has called [wg.Done()]. *)
Theorem run_returns_after_sub_work
    (ffifos : list (Stage Data)) (fsp : params)
    (fsched : list (Fixed.action Data)) (fs : Fixed.state Data)
    (task : Task Data) (dsp : params) (max : Z) (tp : tokens)
    (dsched : list (Dyn.action Data)) (ds : Dyn.state Data)
    (bfifos : list (Stage nat)) (bsp : params) (h : list Payload)
    (bsched : list (Bcast.action Payload)) (bs : Bcast.state Payload) :
  Fixed.run ffifos fsp fsched (Fixed.start fsp) = Some fs →
  Fixed.main fs = Fixed.MReturned →
  DynamicPool task max = Some (dynamicPool task tp) →
  Dyn.run task dsp dsched (Dyn.start dsp tp) = Some ds →
  Dyn.main ds = Dyn.MReturned →
  Bcast.run bfifos bsp bsched (Bcast.start bfifos bsp h) = Some bs →
  Bcast.main bs = Bcast.MReturned →
  (∀ idx, idx < length ffifos → Fixed.reps fs !! idx = Some Fixed.GDone)
  ∧ (Dyn.units ds = ∅ ∧ len (Dyn.pool ds) = 0
     ∧ Dyn.drains dsched = S (Z.to_nat max))
  ∧ (∀ idx, idx < length bfifos →
       (∃ ps, Bcast.reps bs !! idx = Some (Bcast.GDone ps))
       ∧ ∃ c, Bcast.inCh bs !! idx = Some (Some c)
           ∧ chans (Bcast.w bs) !! c = Some (Chan [] true)).
Proof.
  intros Hf Hfr Hmk Hd Hdr Hb Hbr. split; [|split].
  - intros idx Hidx. by eapply fixed_returned_all_done.
  - apply DynamicPool_Some in Hmk as [_ ->].
    pose proof (dyn_drains_run _ _ _ _ _ Hd) as Hdrains.
    apply dyn_inv_run in Hd as [_ Hsum _]. rewrite Hdr in *. simpl in *.
    split; [apply map_size_empty_inv; lia|]. split; [lia|done].
  - intros idx Hidx.
    apply bcast_inv_run in Hb as [_ _ _ Hreps Hwg Hret _ HinCh _ _ _].
    specialize (Hret Hbr). rewrite Hbr in *. simpl in *. split.
    + apply Hreps in Hidx as [g Hg]. rewrite Hwg in Hret.
      pose proof (unfinished_zero _ _ _ _ Hret Hg) as Hfin.
      destruct g; try done. eauto.
    + destruct (HinCh idx Hidx) as (c & Hc & _ & _ & Hch).
      exists c. split; [done|]. by rewrite bool_decide_eq_true_2 in Hch.
Qed.

(** C6.  [FixedPool] returns the nil stage exactly when the worker
    count is at most 0, [DynamicPool] returns (it never blocks while
    it fills the pool) and returns the nil stage exactly when the
    ceiling is at most 0, and [Broadcast] returns the nil stage exactly
    when it is given no transform; none of them has an error result. *)
Theorem constructors_nil_iff_invalid (task : Task Data) (num max : Z)
    (tasks : list (Task Data)) :
  (FixedPool task num = nil ↔ (num ≤ 0)%Z)
  ∧ is_Some (DynamicPool task max)
  ∧ (DynamicPool task max = Some nil ↔ (max ≤ 0)%Z)
  ∧ (Broadcast tasks = nil ↔ tasks = []).
Proof.
  split; [|split; [|split]].
  - unfold FixedPool. destruct (Z.leb_spec num 0); split; (done || lia).
  - destruct (decide (0 < max)%Z).
    + rewrite DynamicPool_pos by done. eauto.
    + unfold DynamicPool. destruct (Z.leb_spec max 0); [eauto|lia].
  - destruct (decide (0 < max)%Z).
    + rewrite DynamicPool_pos by done. split; [done|lia].
    + unfold DynamicPool. destruct (Z.leb_spec max 0); [done|lia].
  - unfold Broadcast. destruct tasks; simpl; split; done.
Qed.

End stage_claims.

(** ** The broadcast and the three stages on concrete executions *)

Section stage_executions.
Import Demo.



Lemma bcast_replica_context_witness :
  Bcast.reps (bcast_after bcast_full_run) !! 1
  = Some (Bcast.GDone (Params 3 3 1 2))
  ∧ Position (Params 3 3 1 2) = Position sp
  ∧ Output (Params 3 3 1 2) = Output sp
  ∧ Error (Params 3 3 1 2) = Error sp.
Proof.
  split; [vm_compute; reflexivity|].
  destruct (bcast_replica_context bcast_fifos sp [10] bcast_full_run
              (bcast_after bcast_full_run) 1
              (Bcast.GDone (Params 3 3 1 2)) (Params 3 3 1 2))
    as (H1 & H2 & H3 & _); [vm_compute; reflexivity..|].
  exact (conj H1 (conj H2 H3)).
Defined.

Lemma run_returns_after_sub_work_witness :
  Fixed.reps (fixed_after fixed_full_run) !! 1 = Some Fixed.GDone
  ∧ Dyn.units (dyn_after dyn_full_run) = ∅
  ∧ ∃ ps, Bcast.reps (bcast_after bcast_full_run) !! 1 = Some (Bcast.GDone ps).
Proof.
  destruct (run_returns_after_sub_work
              fixed_fifos sp fixed_full_run (fixed_after fixed_full_run)
              doubler sp 2 (Tokens 2 2) dyn_full_run (dyn_after dyn_full_run)
              bcast_fifos sp [10] bcast_full_run (bcast_after bcast_full_run))
    as (Hf & (Hd & _) & Hb); [vm_compute; reflexivity..|].
  split; [apply Hf; simpl; lia|]. split; [exact Hd|].
  apply (Hb 1). simpl. lia.
Defined.

End stage_executions.

(** * More on the dynamic pool: whole executions *)

Section dyn_progress.
Context {Data : Type} (task : Task Data) (sp : params).

Local Abbreviation step := (Dyn.step task sp).
Local Abbreviation run := (Dyn.run task sp).
Local Abbreviation start := (Dyn.start (Data := Data) sp).
Local Abbreviation quiet := (DynRun.quiet (Data := Data) sp).
Local Abbreviation out_open := (DynRun.out_open (Data := Data) sp).

Lemma dyn_run_cons (a : Dyn.action Data) (l : list (Dyn.action Data))
    (s s1 s' : Dyn.state Data) :
  step a s = Some s1 → run l s1 = Some s' → run (a :: l) s = Some s'.
Proof. intros H1 H2. unfold Dyn.run. simpl. by rewrite H1. Qed.

Lemma dyn_run_trans (l1 l2 : list (Dyn.action Data)) (s s1 s' : Dyn.state Data) :
  run l1 s = Some s1 → run l2 s1 = Some s' → run (l1 ++ l2) s = Some s'.
Proof. intros H1 H2. unfold Dyn.run in *. by rewrite exec_app, H1. Qed.

Lemma dyn_inv_exec (n : nat) (l : list (Dyn.action Data)) (s s' : Dyn.state Data) :
  run l s = Some s' → Dyn.inv n s → Dyn.inv n s'.
Proof.
  revert s. induction l as [|a l IH]; intros s Hrun Hinv.
  - unfold Dyn.run in Hrun. simpl in Hrun. by simplify_eq.
  - unfold Dyn.run in Hrun. simpl in Hrun.
    destruct (step a s) as [s1|] eqn:E; [|done]. simpl in Hrun.
    eapply IH; [done|]. by eapply dyn_inv_step.
Qed.

Lemma quiet_refl (s : Dyn.state Data) : quiet s s.
Proof. by repeat split. Qed.

Lemma quiet_trans (s1 s2 s3 : Dyn.state Data) :
  quiet s1 s2 → quiet s2 s3 → quiet s1 s3.
Proof.
  intros (A1 & A2 & A3 & A4 & A5) (B1 & B2 & B3 & B4 & B5).
  repeat split; try congruence; [|by eauto].
  intros c Hc. rewrite B4 by done. by apply A4.
Qed.

(** The deferred release of a worker whose body is over is enabled. *)
Lemma dyn_finish_defer (n : nat) (s : Dyn.state Data) (u : nat) (o : Dyn.outcome) :
  Dyn.inv n s → Dyn.units s !! u = Some (Dyn.UDefer o) →
  ∃ s', run [Dyn.UnitRelease u] s = Some s'
    ∧ Dyn.units s' = delete u (Dyn.units s) ∧ quiet s s'.
Proof.
  intros [Hcap Hsum _] Hu.
  pose proof (map_size_ne_0_lookup_2 _ _ (mk_is_Some _ _ Hu)) as Hne.
  destruct (give (Dyn.pool s)) as [tp'|] eqn:Eg.
  - eexists. unfold Dyn.run. simpl. rewrite Hu, Eg. simpl.
    split; [done|]. split; [done|]. by repeat split.
  - unfold give in Eg. destruct (decide _); [done|lia].
Qed.

(** A worker waiting to write gets to its end: it gives up if
    cancellation has fired, it writes if the output feed is open. *)
Lemma dyn_finish_select (n : nat) (s : Dyn.state Data) (u : nat) (dataIn dataOut : Data) :
  Dyn.inv n s → Dyn.units s !! u = Some (Dyn.USelect dataIn dataOut) →
  done (Dyn.w s) = true ∨ out_open (Dyn.w s) →
  ∃ acts s', run acts s = Some s' ∧ Forall DynRun.own acts
    ∧ Dyn.units s' = delete u (Dyn.units s) ∧ quiet s s'.
Proof.
  intros Hinv Hu [Hdone|(ch & Hch & Hopen)].
  - set (s1 := Dyn.with_unit u (Dyn.UDefer Dyn.Aborted) s).
    assert (step (Dyn.UnitCtxDone u) s = Some s1) as H1
      by (simpl; by rewrite Hu, Hdone).
    destruct (dyn_finish_defer n s1 u Dyn.Aborted) as (s' & H2 & Hus & Hq).
    { by eapply dyn_inv_step. }
    { simpl. by rewrite lookup_insert_eq. }
    exists [Dyn.UnitCtxDone u; Dyn.UnitRelease u], s'.
    split; [by eapply dyn_run_cons|]. split; [by repeat constructor|].
    split; [by rewrite Hus; simpl; rewrite delete_insert_eq|].
    eapply quiet_trans; [|done]. by repeat split.
  - destruct (send_open (Output sp) dataOut _ _ Hch Hopen) as [w1 Hsend].
    set (s1 := Dyn.with_unit u (Dyn.UDefer Dyn.Written) (Dyn.with_w w1 s)).
    assert (step (Dyn.UnitSend u) s = Some s1) as H1
      by (simpl; by rewrite Hu, Hsend).
    destruct (dyn_finish_defer n s1 u Dyn.Written) as (s' & H2 & Hus & Hq).
    { by eapply dyn_inv_step. }
    { simpl. by rewrite lookup_insert_eq. }
    exists [Dyn.UnitSend u; Dyn.UnitRelease u], s'.
    split; [by eapply dyn_run_cons|]. split; [by repeat constructor|].
    split; [by rewrite Hus; simpl; rewrite delete_insert_eq|].
    eapply quiet_trans; [|done].
    apply send_Some in Hsend as (Hd & _ & _ & ch' & Hch' & _ & Hw).
    repeat split; simpl; try done.
    + intros c Hc. by rewrite Hw, lookup_insert_ne.
    + intros _. eexists. rewrite Hw, lookup_insert_eq. done.
Qed.

(** Every live worker gets to its end. *)
Lemma dyn_finish_worker (n : nat) (s : Dyn.state Data) (u : nat) (pc : Dyn.upc Data) :
  Dyn.inv n s → Dyn.units s !! u = Some pc →
  done (Dyn.w s) = true ∨ out_open (Dyn.w s) →
  ∃ acts s', run acts s = Some s' ∧ Forall DynRun.own acts
    ∧ Dyn.units s' = delete u (Dyn.units s) ∧ quiet s s'.
Proof.
  intros Hinv Hu Hor. destruct pc as [dataIn|dataIn dataOut|o].
  - destruct (step (Dyn.UnitProcess u) s) as [s1|] eqn:H1.
    2: { simpl in H1. rewrite Hu in H1.
         by destruct (Process (done (Dyn.w s)) dataIn) as [[?|] [?|]]. }
    assert (quiet s s1 ∧ Dyn.units s1 = <[u := default (Dyn.UDefer Dyn.Failed)
                                            (Dyn.units s1 !! u)]> (Dyn.units s)
            ∧ ∃ pc1, Dyn.units s1 !! u = Some pc1
                ∧ pc1 ≠ Dyn.UStart dataIn) as (Hq1 & Hus1 & pc1 & Hpc1 & Hne).
    { simpl in H1. rewrite Hu in H1.
      destruct (Process (done (Dyn.w s)) dataIn) as [[?|] [?|]]; simplify_eq/=;
        rewrite lookup_insert_eq; by repeat split; eauto. }
    assert (Dyn.inv n s1) as Hinv1 by by eapply dyn_inv_step.
    assert (done (Dyn.w s1) = true ∨ out_open (Dyn.w s1)) as Hor1.
    { destruct Hq1 as (_ & _ & Hd & _ & Ho). destruct Hor; [left; congruence|eauto]. }
    assert (∃ acts s', run acts s1 = Some s' ∧ Forall DynRun.own acts
              ∧ Dyn.units s' = delete u (Dyn.units s1) ∧ quiet s1 s')
      as (acts & s' & H2 & Hown & Hus & Hq2).
    { destruct pc1 as [d|d o|o]; [| by eapply dyn_finish_select |].
      - simpl in H1. rewrite Hu in H1.
        destruct (Process (done (Dyn.w s)) dataIn) as [[?|] [?|]]; simplify_eq/=;
          rewrite lookup_insert_eq in Hpc1; by simplify_eq.
      - destruct (dyn_finish_defer n s1 u o) as (s' & ? & ? & ?); [done..|].
        exists [Dyn.UnitRelease u], s'.
        split; [done|]. split; [by repeat constructor|]. by split. }
    exists (Dyn.UnitProcess u :: acts), s'.
    split; [by eapply dyn_run_cons|]. split; [by constructor|].
    split; [by rewrite Hus, Hus1, delete_insert_eq|].
    by eapply quiet_trans.
  - by eapply dyn_finish_select.
  - destruct (dyn_finish_defer n s u o) as (s' & ? & ? & ?); [done..|].
    exists [Dyn.UnitRelease u], s'.
    split; [done|]. split; [by repeat constructor|]. by split.
Qed.

(** All the live workers get to their end, one after the other. *)
Lemma dyn_finish_all (n k : nat) (s : Dyn.state Data) :
  size (Dyn.units s) = k → Dyn.inv n s →
  done (Dyn.w s) = true ∨ out_open (Dyn.w s) →
  ∃ acts s', run acts s = Some s' ∧ Forall DynRun.own acts
    ∧ Dyn.units s' = ∅ ∧ quiet s s'.
Proof.
  revert s. induction k as [|k IH]; intros s Hk Hinv Hor.
  - exists [], s. split; [done|]. split; [done|].
    split; [by apply map_size_empty_inv | apply quiet_refl].
  - destruct (map_choose (Dyn.units s)) as (u & pc & Hu).
    { intros He. rewrite He, map_size_empty in Hk. done. }
    destruct (dyn_finish_worker n s u pc Hinv Hu Hor)
      as (acts1 & s1 & H1 & Hown1 & Hus1 & Hq1).
    assert (size (Dyn.units s1) = k) as Hk1.
    { rewrite Hus1. pose proof (size_delete_live _ _ _ Hu). lia. }
    assert (done (Dyn.w s1) = true ∨ out_open (Dyn.w s1)) as Hor1.
    { destruct Hq1 as (_ & _ & Hd & _ & Ho). destruct Hor; [left; congruence|eauto]. }
    destruct (IH s1 Hk1) as (acts2 & s' & H2 & Hown2 & Hus & Hq2);
      [by eapply dyn_inv_exec | done |].
    exists (acts1 ++ acts2), s'. split; [by eapply dyn_run_trans|].
    split; [by apply Forall_app|]. split; [done|]. by eapply quiet_trans.
Qed.

(** With no worker left, the final loop goes through. *)
Lemma dyn_drain_all (n m : nat) (s : Dyn.state Data) (i : nat) :
  n - i = m → Dyn.inv n s → Dyn.units s = ∅ → Dyn.main s = Dyn.MDrain i →
  ∃ acts s', run acts s = Some s' ∧ Forall DynRun.own acts
    ∧ Dyn.main s' = Dyn.MReturned ∧ Dyn.units s' = ∅
    ∧ Dyn.spawned s' = Dyn.spawned s ∧ Dyn.w s' = Dyn.w s.
Proof.
  revert s i. induction m as [|m IH]; intros s i Hm Hinv Hus Hmain.
  - pose proof Hinv as [Hcap Hsum _]. rewrite Hmain in Hsum. simpl in Hsum.
    exists [Dyn.MainDrain], (Dyn.with_main Dyn.MReturned s).
    split; [|by repeat split; try repeat constructor].
    unfold Dyn.run. simpl. rewrite Hmain.
    destruct (decide (i < cap (Dyn.pool s))); [lia|done].
  - pose proof Hinv as [Hcap Hsum _]. rewrite Hmain, Hus, map_size_empty in Hsum.
    simpl in Hsum.
    destruct (take (Dyn.pool s)) as [tp'|] eqn:Et.
    2: { unfold take in Et. destruct (len (Dyn.pool s)); [lia|done]. }
    set (s1 := Dyn.with_main (Dyn.MDrain (S i)) (Dyn.with_pool tp' s)).
    assert (step Dyn.MainDrain s = Some s1) as H1.
    { simpl. rewrite Hmain. destruct (decide (i < cap (Dyn.pool s))); [|lia].
      by rewrite Et. }
    destruct (IH s1 (S i)) as (acts & s' & H2 & Hown & Hm' & Hus' & Hsp & Hw);
      [lia | by eapply dyn_inv_step | done | done |].
    exists (Dyn.MainDrain :: acts), s'. split; [by eapply dyn_run_cons|].
    split; [by constructor|]. done.
Qed.

(** From the final loop on, [Run] comes to its return whenever the
    workers can get to their end. *)
Lemma dyn_drain_returns (n : nat) (s : Dyn.state Data) (i : nat) :
  Dyn.inv n s → Dyn.main s = Dyn.MDrain i →
  done (Dyn.w s) = true ∨ out_open (Dyn.w s) →
  ∃ acts s', run acts s = Some s' ∧ Forall DynRun.own acts
    ∧ Dyn.main s' = Dyn.MReturned ∧ Dyn.units s' = ∅
    ∧ Dyn.spawned s' = Dyn.spawned s.
Proof.
  intros Hinv Hmain Hor.
  destruct (dyn_finish_all n _ s eq_refl Hinv Hor)
    as (acts1 & s1 & H1 & Hown1 & Hus1 & (Hm1 & Hsp1 & _)).
  destruct (dyn_drain_all n _ s1 i eq_refl)
    as (acts2 & s' & H2 & Hown2 & Hm2 & Hus2 & Hsp2 & _);
    [by eapply dyn_inv_exec | done | congruence |].
  exists (acts1 ++ acts2), s'. split; [by eapply dyn_run_trans|].
  split; [by apply Forall_app|]. repeat split; try done. congruence.
Qed.

Lemma dyn_returned_no_units (n : nat) (s : Dyn.state Data) :
  Dyn.inv n s → Dyn.main s = Dyn.MReturned → Dyn.units s = ∅.
Proof.
  intros [_ Hsum _] Hm. rewrite Hm in Hsum. simpl in Hsum.
  apply map_size_empty_inv. lia.
Qed.

(** X1.  In the first [Run] of a stage made by [DynamicPool], the one
    entered with the token pool as the constructor left it (a later
    [Run] of the same stage finds the pool empty and is another
    matter): once cancellation has fired, [Run] can always come to its
    return, whatever state the execution is in, by steps of the stage
    alone (nothing more is asked of the driver, the upstream or the
    downstream stage); no worker is launched on the way and none is
    left at the end. *)
Theorem dyn_cancelled_run_can_return (max : Z) (tp : tokens)
    (sched : list (Dyn.action Data)) (s : Dyn.state Data) :
  DynamicPool task max = Some (dynamicPool task tp) →
  run sched (start tp) = Some s →
  done (Dyn.w s) = true →
  ∃ rest s', Forall DynRun.own rest ∧ run rest s = Some s'
    ∧ Dyn.main s' = Dyn.MReturned ∧ Dyn.units s' = ∅
    ∧ Dyn.spawned s' = Dyn.spawned s.
Proof.
  intros Hmk Hrun Hdone. apply DynamicPool_Some in Hmk as [_ ->].
  apply dyn_inv_run in Hrun as Hinv.
  assert (∀ s0 : Dyn.state Data, Dyn.inv (Z.to_nat max) s0 →
            done (Dyn.w s0) = true → Dyn.main s0 = Dyn.MDrain 0 →
            ∃ rest s', Forall DynRun.own rest ∧ run rest s0 = Some s'
              ∧ Dyn.main s' = Dyn.MReturned ∧ Dyn.units s' = ∅
              ∧ Dyn.spawned s' = Dyn.spawned s0) as Hdrain.
  { intros s0 Hinv0 Hd0 Hm0.
    destruct (dyn_drain_returns _ s0 0 Hinv0 Hm0 (or_introl Hd0))
      as (acts & s' & ? & ? & ? & ? & ?). by exists acts, s'. }
  destruct (Dyn.main s) as [|dataIn|i|] eqn:Hm.
  - set (s1 := Dyn.with_main (Dyn.MDrain 0) s).
    assert (step Dyn.MainCtxDone s = Some s1) as H1 by (simpl; by rewrite Hdone, Hm).
    destruct (Hdrain s1) as (rest & s' & Hown & H2 & ? & ? & ?);
      [by eapply dyn_inv_step | done | done |].
    exists (Dyn.MainCtxDone :: rest), s'.
    split; [by constructor|]. split; [by eapply dyn_run_cons|]. done.
  - set (s1 := Dyn.with_main (Dyn.MDrain 0) s).
    assert (step Dyn.MainCtxDone s = Some s1) as H1 by (simpl; by rewrite Hdone, Hm).
    destruct (Hdrain s1) as (rest & s' & Hown & H2 & ? & ? & ?);
      [by eapply dyn_inv_step | done | done |].
    exists (Dyn.MainCtxDone :: rest), s'.
    split; [by constructor|]. split; [by eapply dyn_run_cons|]. done.
  - destruct (dyn_drain_returns _ s i Hinv Hm (or_introl Hdone))
      as (acts & s' & ? & ? & ? & ? & ?). by exists acts, s'.
  - exists [], s. split; [done|]. split; [done|].
    split; [done|]. split; [by eapply dyn_returned_no_units | done].
Qed.

(** With the input feed closed and the output feed open, [Run]
    launches a worker for each waiting item, lets it finish, and
    leaves the loop. *)
Lemma dyn_accept_all (n : nat) (l : list Data) (s : Dyn.state Data) :
  0 < n → Dyn.inv n s → Dyn.main s = Dyn.MLoop → Dyn.units s = ∅ →
  chans (Dyn.w s) !! Input sp = Some (Chan l true) → out_open (Dyn.w s) →
  ∃ acts s', run acts s = Some s' ∧ Forall DynRun.own acts
    ∧ Dyn.main s' = Dyn.MDrain 0 ∧ Dyn.units s' = ∅
    ∧ Dyn.spawned s' = Dyn.spawned s + length l.
Proof.
  intros Hn. revert s. induction l as [|d l IH]; intros s Hinv Hm Hus Hin Hout.
  - exists [Dyn.MainRecv], (Dyn.with_main (Dyn.MDrain 0) s).
    split; [|by repeat split; try repeat constructor; simpl; try lia].
    unfold Dyn.run. simpl. rewrite Hm. unfold recv. by rewrite Hin.
  - assert (Input sp ≠ Output sp) as Hio.
    { intros Heq. destruct Hout as (ch & Hch & Hopen). rewrite <- Heq, Hin in Hch.
      by simplify_eq. }
    set (w1 := set_chan (Input sp) (Chan l true) (Dyn.w s)).
    set (s1 := Dyn.with_main (Dyn.MAcquire d) (Dyn.with_w w1 s)).
    assert (step Dyn.MainRecv s = Some s1) as H1.
    { simpl. rewrite Hm. unfold recv. by rewrite Hin. }
    assert (Dyn.inv n s1) as Hinv1 by by eapply dyn_inv_step.
    pose proof Hinv1 as [Hcap1 Hsum1 _]. simpl in Hsum1.
    rewrite Hus, map_size_empty in Hsum1. simpl in Hsum1.
    destruct (take (Dyn.pool s)) as [tp'|] eqn:Et.
    2: { unfold take in Et. destruct (len (Dyn.pool s)); [lia|done]. }
    set (s2 := Dyn.State w1 tp' Dyn.MLoop
                 (<[Dyn.spawned s := Dyn.UStart d]> (Dyn.units s))
                 (S (Dyn.spawned s))).
    assert (step Dyn.MainToken s1 = Some s2) as H2 by (simpl; by rewrite Et).
    assert (Dyn.inv n s2) as Hinv2 by by eapply dyn_inv_step.
    assert (out_open (Dyn.w s2)) as Hout2.
    { destruct Hout as (ch & Hch & Hopen). exists ch. simpl.
      by rewrite lookup_insert_ne. }
    destruct (dyn_finish_all n _ s2 eq_refl Hinv2 (or_intror Hout2))
      as (acts3 & s3 & H3 & Hown3 & Hus3 & (Hm3 & Hsp3 & _ & Hch3 & Hout3)).
    destruct (IH s3) as (acts4 & s' & H4 & Hown4 & Hm4 & Hus4 & Hsp4).
    { by eapply dyn_inv_exec. }
    { by rewrite Hm3. }
    { done. }
    { rewrite Hch3 by done. simpl. by rewrite lookup_insert_eq. }
    { by apply Hout3. }
    exists (Dyn.MainRecv :: Dyn.MainToken :: acts3 ++ acts4), s'.
    split; [eapply dyn_run_cons; [done|]; eapply dyn_run_cons; [done|];
            by eapply dyn_run_trans|].
    split; [repeat constructor; by apply Forall_app|].
    split; [done|]. split; [done|]. rewrite Hsp4, Hsp3. simpl. lia.
Qed.

(** X2.  In the first [Run] of a stage made by [DynamicPool], the one
    entered with the token pool as the constructor left it: with the
    input feed closed and the output feed open (a write to it is
    taken), [Run] can always come to its return by steps of the stage
    alone, cancelled or not, and no worker is left at the end.  On
    that way, if [Run] is still in its accept loop, it launches
    exactly one worker for the item it holds, if any, and one for
    every item waiting in the input feed; if it has left that loop
    already, it launches none. *)
Theorem dyn_closed_input_run_can_return (max : Z) (tp : tokens)
    (sched : list (Dyn.action Data)) (s : Dyn.state Data) :
  DynamicPool task max = Some (dynamicPool task tp) →
  run sched (start tp) = Some s →
  DynRun.in_closed sp (Dyn.w s) → out_open (Dyn.w s) →
  ∃ rest s', Forall DynRun.own rest ∧ run rest s = Some s'
    ∧ Dyn.main s' = Dyn.MReturned ∧ Dyn.units s' = ∅
    ∧ Dyn.spawned s' = Dyn.spawned s + DynRun.backlog sp s.
Proof.
  intros Hmk Hrun (ch & Hin & Hcl) Hout.
  apply DynamicPool_Some in Hmk as [Hpos ->].
  apply dyn_inv_run in Hrun as Hinv. set (n := Z.to_nat max) in *.
  assert (0 < n) as Hn by lia.
  assert (Input sp ≠ Output sp) as Hio.
  { intros Heq. destruct Hout as (ch' & Hch' & Hopen). rewrite <- Heq, Hin in Hch'.
    simplify_eq. congruence. }
  assert (∀ s0 : Dyn.state Data, Dyn.inv n s0 → Dyn.main s0 = Dyn.MLoop →
            chans (Dyn.w s0) !! Input sp = Some ch → out_open (Dyn.w s0) →
            ∃ rest s', Forall DynRun.own rest ∧ run rest s0 = Some s'
              ∧ Dyn.main s' = Dyn.MReturned ∧ Dyn.units s' = ∅
              ∧ Dyn.spawned s' = Dyn.spawned s0 + length (items ch)) as Hloop.
  { intros s0 Hinv0 Hm0 Hin0 Hout0.
    destruct (dyn_finish_all n _ s0 eq_refl Hinv0 (or_intror Hout0))
      as (acts1 & s1 & H1 & Hown1 & Hus1 & (Hm1 & Hsp1 & _ & Hch1 & Hout1)).
    destruct (dyn_accept_all n (items ch) s1 Hn)
      as (acts2 & s2 & H2 & Hown2 & Hm2 & Hus2 & Hsp2).
    { by eapply dyn_inv_exec. }
    { congruence. }
    { done. }
    { rewrite Hch1, Hin0 by done. destruct ch; simpl in *. by subst. }
    { by apply Hout1. }
    destruct (dyn_drain_all n _ s2 0 eq_refl)
      as (acts3 & s' & H3 & Hown3 & Hm3 & Hus3 & Hsp3 & _).
    { eapply dyn_inv_exec; [done|]. by eapply dyn_inv_exec. }
    { done. }
    { done. }
    exists (acts1 ++ acts2 ++ acts3), s'.
    split; [apply Forall_app; split; [done|]; apply Forall_app; by split|].
    split; [eapply dyn_run_trans; [done|]; by eapply dyn_run_trans|].
    split; [done|]. split; [done|]. lia. }
  unfold DynRun.backlog, DynRun.queued. rewrite Hin. simpl.
  destruct (Dyn.main s) as [|dataIn|i|] eqn:Hm.
  - by apply Hloop.
  - destruct (dyn_finish_all n _ s eq_refl Hinv (or_intror Hout))
      as (acts1 & s1 & H1 & Hown1 & Hus1 & (Hm1 & Hsp1 & _ & Hch1 & Hout1)).
    assert (Dyn.inv n s1) as Hinv1 by by eapply dyn_inv_exec.
    pose proof Hinv1 as [Hcap1 Hsum1 _]. rewrite Hm1, Hm, Hus1, map_size_empty in Hsum1.
    simpl in Hsum1.
    destruct (take (Dyn.pool s1)) as [tp'|] eqn:Et.
    2: { unfold take in Et. destruct (len (Dyn.pool s1)); [lia|done]. }
    set (s2 := Dyn.State (Dyn.w s1) tp' Dyn.MLoop
                 (<[Dyn.spawned s1 := Dyn.UStart dataIn]> (Dyn.units s1))
                 (S (Dyn.spawned s1))).
    assert (step Dyn.MainToken s1 = Some s2) as H2
      by (simpl; by rewrite Hm1, Hm, Et).
    destruct (Hloop s2) as (rest & s' & Hown & H3 & Hm3 & Hus3 & Hsp3).
    { by eapply dyn_inv_step. }
    { done. }
    { simpl. by rewrite Hch1. }
    { by apply Hout1. }
    exists (acts1 ++ Dyn.MainToken :: rest), s'.
    split; [apply Forall_app; split; [done | by constructor]|].
    split; [eapply dyn_run_trans; [done|]; by eapply dyn_run_cons|].
    split; [done|]. split; [done|]. rewrite Hsp3. simpl. lia.
  - destruct (dyn_drain_returns n s i Hinv Hm (or_intror Hout))
      as (acts & s' & ? & ? & ? & ? & ?).
    exists acts, s'. repeat split; try done. lia.
  - exists [], s. split; [done|]. split; [done|].
    split; [done|]. split; [by eapply dyn_returned_no_units | lia].
Qed.

End dyn_progress.

Section dyn_accounting.
Context {Data : Type} (task : Task Data) (sp : params).
Hypothesis feeds_differ : Input sp ≠ Output sp.

Local Abbreviation step := (Dyn.step task sp).
Local Abbreviation run := (Dyn.run task sp).
Local Abbreviation start := (Dyn.start (Data := Data) sp).

Lemma unfinished_delete_done {A : Type} (fin : A → bool) (rs : gmap nat A)
    (i : nat) (g : A) :
  rs !! i = Some g → fin g = true →
  unfinished fin (delete i rs) = unfinished fin rs.
Proof.
  intros Hi Hg. unfold unfinished. rewrite map_filter_delete.
  rewrite delete_id; [done|]. apply map_lookup_filter_None. right.
  intros x Hx. simplify_eq. simpl. congruence.
Qed.

Lemma written_to_frame (c : nat) (w w' : world Data) :
  chans w' !! c = chans w !! c → written_to c w' = written_to c w.
Proof. unfold written_to. by intros ->. Qed.

Lemma queued_written (c : nat) (w : world Data) :
  DynRun.queued c w = written_to c w.
Proof. done. Qed.

Lemma dyn_aborts_snoc (l : list (Dyn.action Data)) (a : Dyn.action Data) :
  DynRun.aborts (l ++ [a])
  = DynRun.aborts l + (if DynRun.is_abort a then 1 else 0).
Proof.
  unfold DynRun.aborts. rewrite filter_app, length_app.
  destruct (DynRun.is_abort a) eqn:E.
  - by rewrite (filter_cons_True _ a []).
  - rewrite (filter_cons_False _ a []); [done|]. by rewrite E.
Qed.

Lemma dyn_fed_snoc (l : list (Dyn.action Data)) (a : Dyn.action Data) :
  DynRun.fed (l ++ [a])
  = DynRun.fed l ++ match a with Dyn.Env (Feed d) => [d] | _ => [] end.
Proof.
  unfold DynRun.fed. rewrite omap_app. f_equal.
  by destruct a as [[]| | | | | | | |].
Qed.

Lemma dyn_workers_step (n : nat) (l : list (Dyn.action Data)) (a : Dyn.action Data)
    (s s' : Dyn.state Data) :
  Dyn.inv n s → step a s = Some s' →
  DynRun.workers_accounted sp l s → DynRun.workers_accounted sp (l ++ [a]) s'.
Proof.
  intros Hinv Hstep. pose proof (dyn_fresh_unit _ _ Hinv) as Hfresh.
  unfold DynRun.workers_accounted. rewrite dyn_aborts_snoc.
  destruct s as [w tp m us k]; simpl in *.
  destruct a; simpl in Hstep; open_step Hstep; simplify_eq/=;
    rewrite ?Nat.add_0_r; try done.
  (* Env *)
  all: try (match goal with
            | H : env_step _ _ _ = Some ?x |- _ =>
                apply env_step_Some in H as (Hs & Hp & _ & Hc);
                unfold errors_of; rewrite Hs, Hp;
                by erewrite (written_to_frame (Output sp) _ x)
                  by (apply Hc; congruence)
            end).
  (* MainRecv *)
  all: try (match goal with
            | H : recv _ _ = Some (Some _, ?x) |- _ =>
                apply recv_Some in H as (_ & Hs & Hp & ch & _ & rest & _ & Hc);
                unfold errors_of; rewrite Hs, Hp;
                erewrite (written_to_frame (Output sp) _ x); [done|];
                by rewrite Hc, lookup_insert_ne
            end).
  (* MainToken *)
  all: try (rewrite unfinished_insert_new by done; lia).
  (* UnitSend *)
  all: try (match goal with
            | H : send _ _ _ = Some _ |- _ =>
                rewrite (written_to_send _ _ _ _ H), length_app;
                apply send_Some in H as (_ & Hs & Hp & _);
                unfold errors_of; rewrite Hs, Hp
            end).
  (* the body of a worker ends *)
  all: try (match goal with
            | H : ?m !! ?u = Some _ |- context [<[?u := Dyn.UDefer ?o]> ?m] =>
                pose proof (unfinished_insert_done DynRun.body_over m u _
                              (Dyn.UDefer o) H eq_refl eq_refl);
                rewrite ?errors_of_Append, ?length_app;
                unfold written_to, errors_of in *; simpl; lia
            end).
  (* the worker goes on to its select, or is released *)
  all: try (by erewrite unfinished_insert_live).
  all: by erewrite unfinished_delete_done.
Qed.

Lemma queued_send_other (c c' : nat) (d : Data) (w w' : world Data) :
  send c d w = Some w' → c' ≠ c → chans w' !! c' = chans w !! c'.
Proof.
  intros (_ & _ & _ & ch & _ & _ & ->)%send_Some Hne. by rewrite lookup_insert_ne.
Qed.

Ltac items_tac Hab Hcl :=
  split; [lia|]; split; [simpl; lia|];
  split; [intros ?; first [lia | split; first [done | congruence | assumption]]|];
  split; [intros ?; first [done | congruence | (apply Hab; lia)]|];
  intros ? ?; first [done | congruence | by apply Hcl].

Lemma dyn_items_step (l : list (Dyn.action Data)) (a : Dyn.action Data)
    (s s' : Dyn.state Data) :
  step a s = Some s' →
  DynRun.items_accounted sp l s → DynRun.items_accounted sp (l ++ [a]) s'.
Proof.
  intros Hstep (lost & Hle & Hlen & Hlost & Hab & Hcl).
  unfold DynRun.items_accounted.
  rewrite dyn_fed_snoc, dyn_aborts_snoc, length_app.
  destruct s as [w tp m us k]; simpl in *.
  assert (lost = 0 ∨ lost = 1 ∧ done w = true ∧ DynRun.left_loop m) as Hcase.
  { destruct (decide (lost = 1)) as [->|]; [right; by destruct Hlost | left; lia]. }
  clear Hlost Hle.
  destruct a as [[|d|]| | | | |u|u|u|u]; simpl in Hstep; open_step Hstep;
    simplify_eq/=;
    repeat match goal with
    | H : send _ _ _ = Some _ |- _ =>
        pose proof (written_to_send _ _ _ _ H);
        pose proof (λ c', queued_send_other _ c' _ _ _ H);
        apply send_Some in H as (? & _ & _ & ? & ? & ? & _)
    | H : close _ _ = Some _ |- _ =>
        apply close_Some in H as (? & _ & _ & ? & ? & ? & ?)
    | H : recv _ _ = Some (Some _, _) |- _ =>
        apply recv_Some in H as (? & _ & _ & ? & ? & ? & ? & ?)
    | H : recv _ _ = Some (None, _) |- _ =>
        apply recv_Some in H as (? & _ & _ & ? & ? & ? & ? & ?)
    end.
  all: unfold DynRun.queued, DynRun.in_closed, written_to in *; simpl in *.
  all: destruct Hcase as [->|(-> & Hd & Hl)];
    try (first
      [ solve [ exists 0; items_tac Hab Hcl ]
      | solve [ exists 1; items_tac Hab Hcl ] ]).
  (* Feed *)
  1, 2: match goal with
        | Hx : done ?x = done ?w, Hq : from_option items [] (chans ?x !! _) = _,
          Hw : chans ?w !! Input sp = Some ?c, Ho : closed ?c = false |- _ =>
            let tac :=
              (rewrite Hq, length_app, Hx; simpl;
               (split; [lia|]); (split; [lia|]);
               (split; [intros ?; first [lia | by split]|]);
               (split; [intros ?; apply Hab; lia|]);
               intros Hf Hl'; destruct (Hcl Hf Hl') as [_ (ch & Hch & Hc)];
               rewrite Hw in Hch; simplify_eq; congruence) in
            first [solve [exists 0; tac] | solve [exists 1; tac]]
        end.
  (* CloseInput *)
  1, 2: match goal with
        | Hx : done ?x = done ?w, Hq : chans ?x = _,
          Hw : chans ?w !! Input sp = Some ?c |- _ =>
            let tac :=
              (rewrite Hq, lookup_insert_eq, Hx;
               rewrite Hw in Hlen; simpl in *;
               (split; [lia|]); (split; [lia|]);
               (split; [intros ?; first [lia | by split]|]);
               (split; [intros ?; apply Hab; lia|]);
               intros Hf Hl'; destruct (Hcl Hf Hl') as [Hi _];
               rewrite Hw in Hi; simpl in Hi; eauto) in
            first [solve [exists 0; tac] | solve [exists 1; tac]]
        end.
  (* MainRecv: an item *)
  1: match goal with
     | Hx : done ?x = done ?w, Hq : chans ?x = _,
       Hw : chans ?w !! Input sp = Some ?c, Hi : items ?c = _ |- _ =>
         exists 0; rewrite Hq, lookup_insert_eq, Hx;
         rewrite Hw in Hlen; simpl in *; rewrite Hi in Hlen; simpl in *;
         (split; [lia|]); (split; [lia|]); (split; [lia|]);
         (split; [intros ?; apply Hab; lia|]); done
     end.
  (* MainRecv: the feed is closed *)
  1: match goal with
     | Hw : chans ?w !! Input sp = Some ?c, Hi : items ?c = [] |- _ =>
         exists 0; rewrite Hw in *; simpl in *; rewrite Hi in *;
         (split; [lia|]); (split; [simpl in *; lia|]); (split; [lia|]);
         (split; [intros ?; apply Hab; lia|]); intros _ _; split; eauto
     end.
  (* UnitSend *)
  1, 2: match goal with
        | Hx : done ?x = done ?w,
          Hf : ∀ c', c' ≠ Output sp → chans ?x !! c' = chans ?w !! c' |- _ =>
            let tac :=
              (rewrite (Hf (Input sp)) by done; rewrite Hx;
               (split; [lia|]); (split; [lia|]);
               (split; [intros ?; first [lia | by split]|]);
               (split; [intros ?; apply Hab; lia|]); done) in
            first [solve [exists 0; tac] | solve [exists 1; tac]]
        end.
Qed.

Lemma dyn_workers_run (n : nat) (sched : list (Dyn.action Data))
    (s : Dyn.state Data) :
  run sched (start (Tokens n n)) = Some s → DynRun.workers_accounted sp sched s.
Proof.
  revert sched s. apply exec_ind.
  - unfold DynRun.workers_accounted, unfinished, errors_of, written_to. simpl.
    rewrite map_filter_empty, map_size_empty, lookup_insert_eq.
    rewrite lookup_insert_ne, lookup_insert_eq by done. done.
  - intros l a s s' Hrun IH Hstep.
    eapply dyn_workers_step; [by eapply dyn_inv_run | done | done].
Qed.

Lemma dyn_items_run (tp : tokens) (sched : list (Dyn.action Data))
    (s : Dyn.state Data) :
  run sched (start tp) = Some s → DynRun.items_accounted sp sched s.
Proof.
  revert sched s. apply exec_ind.
  - exists 0. unfold DynRun.queued. simpl. rewrite lookup_insert_eq. simpl.
    split; [lia|]. split; [done|]. split; [lia|]. split; [|done].
    unfold DynRun.aborts. simpl. lia.
  - intros l a s s' _ IH Hstep. by eapply dyn_items_step.
Qed.

(** X3.  Worker accounting of a dynamic pool.  At every point of an
    execution of [Run], the workers launched so far are exactly those
    still in their body plus one for each error reported to the sink,
    each mark recorded, each item written to the output feed and each
    write given up for cancellation: a worker ends in exactly one of
    these four ways and leaves exactly one trace. *)
Theorem dyn_every_worker_accounted (max : Z) (tp : tokens)
    (sched : list (Dyn.action Data)) (s : Dyn.state Data) :
  DynamicPool task max = Some (dynamicPool task tp) →
  run sched (start tp) = Some s →
  Dyn.spawned s
  = unfinished DynRun.body_over (Dyn.units s)
    + length (errors_of (Error sp) (Dyn.w s))
    + length (processed (Dyn.w s))
    + length (written_to (Output sp) (Dyn.w s))
    + DynRun.aborts sched.
Proof.
  intros Hmk Hrun. apply DynamicPool_Some in Hmk as [_ ->].
  by apply dyn_workers_run in Hrun.
Qed.

(** X4.  Item accounting of a dynamic pool.  At every point of an
    execution of [Run], the items fed so far are those still waiting
    in the input feed, the one [Run] holds while it waits for a token,
    those handed to a worker, and at most one more; without
    cancellation there is none more: every item taken from the input
    feed is handed to a worker of its own. *)
Theorem dyn_every_item_accounted (tp : tokens)
    (sched : list (Dyn.action Data)) (s : Dyn.state Data) :
  run sched (start tp) = Some s →
  let known := length (DynRun.queued (Input sp) (Dyn.w s))
               + DynRun.held (Dyn.main s) + Dyn.spawned s in
  known ≤ length (DynRun.fed sched) ≤ known + 1
  ∧ (done (Dyn.w s) = false → length (DynRun.fed sched) = known).
Proof.
  intros Hrun known. subst known.
  apply dyn_items_run in Hrun as (lost & Hle & Hlen & Hlost & _).
  split; [lia|]. intros Hd.
  destruct (decide (lost = 1)) as [H1|H1]; [|lia].
  apply Hlost in H1 as [? _]. congruence.
Qed.

(** X5.  When [Run] of a dynamic pool has returned and cancellation
    has not fired, the input feed is closed and empty, no write was
    given up, and every item that was fed has led to exactly one
    result: an error in the sink, a mark, or an item on the output
    feed. *)
Theorem dyn_return_without_cancel_complete (max : Z) (tp : tokens)
    (sched : list (Dyn.action Data)) (s : Dyn.state Data) :
  DynamicPool task max = Some (dynamicPool task tp) →
  run sched (start tp) = Some s →
  Dyn.main s = Dyn.MReturned → done (Dyn.w s) = false →
  DynRun.in_closed sp (Dyn.w s)
  ∧ DynRun.queued (Input sp) (Dyn.w s) = []
  ∧ DynRun.aborts sched = 0
  ∧ length (DynRun.fed sched)
    = length (errors_of (Error sp) (Dyn.w s))
      + length (processed (Dyn.w s))
      + length (written_to (Output sp) (Dyn.w s)).
Proof.
  intros Hmk Hrun Hret Hd. apply DynamicPool_Some in Hmk as [_ ->].
  pose proof (dyn_inv_run _ _ _ _ _ Hrun) as Hinv.
  pose proof (dyn_workers_run _ _ _ Hrun) as Hw.
  apply dyn_items_run in Hrun as (lost & Hle & Hlen & Hlost & Hab & Hcl).
  destruct (Hcl Hd) as [Hq Hin]; [by rewrite Hret|].
  assert (DynRun.aborts sched = 0) as Ha.
  { destruct (DynRun.aborts sched) eqn:E; [done|].
    rewrite Hab in Hd by lia. done. }
  assert (lost = 0) as ->.
  { destruct (decide (lost = 1)) as [H1|H1]; [|lia].
    apply Hlost in H1 as [? _]. congruence. }
  split; [done|]. split; [done|]. split; [done|].
  unfold DynRun.workers_accounted in Hw.
  rewrite (dyn_returned_no_units _ _ Hinv Hret) in Hw.
  unfold unfinished in Hw. rewrite map_filter_empty, map_size_empty in Hw.
  rewrite Hq, Hret in Hlen. simpl in Hlen. lia.
Qed.

End dyn_accounting.

Section dyn_after_loop.
Context {Data : Type} (task : Task Data) (sp : params).

Local Abbreviation step := (Dyn.step task sp).
Local Abbreviation run := (Dyn.run task sp).

Lemma dyn_left_loop_step (a : Dyn.action Data) (s s' : Dyn.state Data) :
  step a s = Some s' → DynRun.left_loop (Dyn.main s) →
  DynRun.left_loop (Dyn.main s') ∧ Dyn.spawned s' = Dyn.spawned s
  ∧ ∃ more, DynRun.queued (Input sp) (Dyn.w s')
            = DynRun.queued (Input sp) (Dyn.w s) ++ more.
Proof.
  intros Hstep Hl. destruct s as [w tp m us k]; simpl in *.
  unfold DynRun.queued.
  destruct a as [[|d|]| | | | |u|u|u|u]; simpl in Hstep; open_step Hstep;
    simplify_eq/=; try done;
    try (split; [done|]; split; [done|]; exists []; by rewrite app_nil_r).
  - match goal with H : send _ _ _ = Some _ |- _ =>
      apply send_Some in H as (_ & _ & _ & ch & Hch & _ & ->) end.
    split; [done|]. split; [done|]. exists [d].
    by rewrite lookup_insert_eq, Hch.
  - match goal with H : close _ _ = Some _ |- _ =>
      apply close_Some in H as (_ & _ & _ & ch & Hch & _ & ->) end.
    split; [done|]. split; [done|]. exists [].
    by rewrite lookup_insert_eq, Hch, app_nil_r.
  - match goal with H : send _ _ _ = Some _ |- _ =>
      apply send_Some in H as (_ & _ & _ & ch & Hch & _ & ->) end.
    split; [done|]. split; [done|].
    destruct (decide (Input sp = Output sp)) as [Heq|Hne].
    + eexists. by rewrite Heq, lookup_insert_eq, Hch.
    + exists []. by rewrite lookup_insert_ne, app_nil_r.
Qed.

(** X6.  Once [Run] of a dynamic pool has left its accept loop, it
    never goes back: whatever happens next, it takes no further item
    from the input feed (what is waiting there stays, what is fed
    later queues up behind it) and launches no further worker. *)
Theorem dyn_after_loop_nothing_accepted (rest : list (Dyn.action Data))
    (s s' : Dyn.state Data) :
  DynRun.left_loop (Dyn.main s) → run rest s = Some s' →
  DynRun.left_loop (Dyn.main s') ∧ Dyn.spawned s' = Dyn.spawned s
  ∧ ∃ more, DynRun.queued (Input sp) (Dyn.w s')
            = DynRun.queued (Input sp) (Dyn.w s) ++ more.
Proof.
  intros Hl. revert s'. unfold Dyn.run.
  apply (exec_ind (Dyn.step task sp) s
           (λ _ s', DynRun.left_loop (Dyn.main s') ∧ Dyn.spawned s' = Dyn.spawned s
              ∧ ∃ more, DynRun.queued (Input sp) (Dyn.w s')
                        = DynRun.queued (Input sp) (Dyn.w s) ++ more)).
  - split; [done|]. split; [done|]. exists []. by rewrite app_nil_r.
  - intros l a s1 s2 _ (Hl1 & Hsp1 & more1 & Hq1) Hstep.
    destruct (dyn_left_loop_step _ _ _ Hstep Hl1) as (Hl2 & Hsp2 & more2 & Hq2).
    split; [done|]. split; [congruence|]. exists (more1 ++ more2).
    by rewrite Hq2, Hq1, app_assoc.
Qed.

End dyn_after_loop.

Section dyn_provenance.
Context {Data : Type} (task : Task Data) (sp : params).
Hypothesis feeds_differ : Input sp ≠ Output sp.

Local Abbreviation step := (Dyn.step task sp).
Local Abbreviation run := (Dyn.run task sp).
Local Abbreviation start := (Dyn.start (Data := Data) sp).
Local Abbreviation provenance := (DynRun.provenance task sp).

Lemma dyn_prov_mono (ds ds' : list Data) (s : Dyn.state Data) :
  (∀ d, d ∈ ds → d ∈ ds') → provenance ds s → provenance ds' s.
Proof.
  intros Hsub [Hq Hh Hs Hsel Hw He Hp].
  split; unfold DynRun.produced, DynRun.failed_with, DynRun.swallowed in *.
  - eauto.
  - eauto.
  - eauto.
  - intros u d o Hu. destruct (Hsel u d o Hu) as (d' & b & ? & ?). eauto.
  - intros o Ho. destruct (Hw o Ho) as (d' & b & ? & ?). eauto.
  - intros e Hin. destruct (He e Hin) as (d' & b & err & ? & ? & ?). eauto 10.
  - intros d Hd. destruct (Hp d Hd) as (? & b & ?). eauto.
Qed.

Lemma dyn_prov_step (l : list (Dyn.action Data)) (a : Dyn.action Data)
    (s s' : Dyn.state Data) :
  step a s = Some s' →
  provenance (DynRun.fed l) s → provenance (DynRun.fed (l ++ [a])) s'.
Proof.
  intros Hstep Hprov. rewrite dyn_fed_snoc.
  assert (∀ d, a = Dyn.Env (Feed d) →
            d ∈ DynRun.fed l
                ++ match a with Dyn.Env (Feed d) => [d] | _ => [] end) as Hfd.
  { intros d ->. apply elem_of_app. right. by apply list_elem_of_singleton. }
  eapply (dyn_prov_mono _ (DynRun.fed l
            ++ match a with Dyn.Env (Feed d) => [d] | _ => [] end)) in Hprov.
  2: { intros d Hd. apply elem_of_app. by left. }
  revert Hprov Hfd. generalize (DynRun.fed l
            ++ match a with Dyn.Env (Feed d) => [d] | _ => [] end).
  intros ds [Hq Hh Hs Hsel Hw He Hp] Hfd.
  destruct s as [w tp m us k]; simpl in *.
  unfold DynRun.queued, written_to, errors_of in *.
  destruct a as [[|d|]| | | | |u|u|u|u]; simpl in Hstep; open_step Hstep;
    simplify_eq/=;
    repeat match goal with
    | H : send _ _ _ = Some _ |- _ =>
        apply send_Some in H as (_ & ? & ? & ? & ? & _ & ?)
    | H : close _ _ = Some _ |- _ =>
        apply close_Some in H as (_ & ? & ? & ? & ? & _ & ?)
    | H : recv _ _ = Some (Some _, _) |- _ =>
        apply recv_Some in H as (_ & ? & ? & ? & ? & ? & ? & ?)
    end;
    split; simpl; unfold DynRun.queued, written_to, errors_of; simpl;
    repeat match goal with
    | H : sinks ?x = _ |- context [sinks ?x] => rewrite H
    | H : processed ?x = _ |- context [processed ?x] => rewrite H
    | H : chans ?x = _ |- context [chans ?x] => rewrite H
    end;
    rewrite ?lookup_insert_eq, ?(lookup_insert_ne _ (Input sp) (Output sp)),
      ?(lookup_insert_ne _ (Output sp) (Input sp)) by done; simpl;
    try done.
  all: intros;
    repeat match goal with
    | H : <[_:=_]> _ !! _ = Some _ |- _ =>
        apply lookup_insert_Some in H as [[? ?]|[? ?]]
    | H : delete _ _ !! _ = Some _ |- _ =>
        apply lookup_delete_Some in H as [? ?]
    | H : _ ∈ _ ++ _ |- _ =>
        apply elem_of_app in H as [?|?%list_elem_of_singleton]
    end; simplify_eq/=; eauto.
  all: try match goal with
       | Hc : chans ?w !! ?c = Some ?ch |- _ =>
           rewrite Hc in *; simpl in *
       end.
  all: unfold DynRun.produced, DynRun.failed_with, DynRun.swallowed in *.
  all: eauto 10.
  all: try match goal with
       | H : items ?x = _ :: _, Hq : ∀ d, d ∈ items ?x → _ |- _ ∈ _ =>
           apply Hq; rewrite H; apply elem_of_cons; eauto
       end.
  all: match goal with
       | H : Process ?b ?d = (_, Some ?e) |- _ =>
           exists d, b, e; rewrite H; eauto
       end.
Qed.

Lemma dyn_prov_run (tp : tokens) (sched : list (Dyn.action Data))
    (s : Dyn.state Data) :
  run sched (start tp) = Some s → provenance (DynRun.fed sched) s.
Proof.
  revert sched s. apply exec_ind.
  - split; unfold DynRun.queued, written_to, errors_of; simpl;
      rewrite ?lookup_insert_eq, ?lookup_insert_ne, ?lookup_insert_eq by done;
      simpl; try set_solver.
    all: intros *; rewrite lookup_empty; done.
  - intros l a s s' _ IH Hstep. by eapply dyn_prov_step.
Qed.

(** X7.  Where the results of a dynamic pool come from.  At every
    point of an execution of [Run]: each item on the output feed is
    what the transform returned, without an error, for an item that
    was fed; each error in the sink is the error the transform
    returned for an item that was fed, wrapped as
    ["pipeline stage <position>: <error>"]; each mark is for an item
    that was fed and for which the transform returned neither an item
    nor an error.  The stage invents nothing. *)
Theorem dyn_results_come_from_items (tp : tokens)
    (sched : list (Dyn.action Data)) (s : Dyn.state Data) :
  run sched (start tp) = Some s →
  (∀ o, o ∈ written_to (Output sp) (Dyn.w s) →
     ∃ d b, d ∈ DynRun.fed sched ∧ Process b d = (Some o, None))
  ∧ (∀ e, e ∈ errors_of (Error sp) (Dyn.w s) →
       ∃ d b err, d ∈ DynRun.fed sched ∧ (Process b d).2 = Some err
         ∧ e = Errorf (Position sp) err)
  ∧ (∀ d, d ∈ processed (Dyn.w s) →
       d ∈ DynRun.fed sched ∧ ∃ b, Process b d = (None, None)).
Proof.
  intros Hrun. apply dyn_prov_run in Hrun as [_ _ _ _ Hw He Hp].
  split; [exact Hw|]. split; [exact He | exact Hp].
Qed.

End dyn_provenance.

Section dyn_blocking.
Context {Data : Type} (task : Task Data) (sp : params).

Local Abbreviation step := (Dyn.step task sp).
Local Abbreviation run := (Dyn.run task sp).
Local Abbreviation start := (Dyn.start (Data := Data) sp).

(** X8.  Back-pressure in the first [Run] of a stage made by
    [DynamicPool], the one entered with the token pool as the
    constructor left it, holding [max] tokens: while [Run] holds an
    item, its wait for a token blocks exactly when [max] workers are
    live; with fewer, the token is there, and taking it launches the
    worker for that item under the next free identifier. *)
Theorem dyn_token_wait_iff_saturated (max : Z) (tp : tokens)
    (sched : list (Dyn.action Data)) (s : Dyn.state Data) (dataIn : Data) :
  DynamicPool task max = Some (dynamicPool task tp) →
  run sched (start tp) = Some s →
  Dyn.main s = Dyn.MAcquire dataIn →
  (step Dyn.MainToken s = None ↔ size (Dyn.units s) = Z.to_nat max)
  ∧ ∀ s', step Dyn.MainToken s = Some s' →
      Dyn.units s' = <[Dyn.spawned s := Dyn.UStart dataIn]> (Dyn.units s)
      ∧ Dyn.units s !! Dyn.spawned s = None
      ∧ size (Dyn.units s') = S (size (Dyn.units s))
      ∧ Dyn.main s' = Dyn.MLoop.
Proof.
  intros Hmk Hrun Hm. apply DynamicPool_Some in Hmk as [_ ->].
  apply dyn_inv_run in Hrun as Hinv.
  pose proof (dyn_fresh_unit _ _ Hinv) as Hfresh.
  destruct Hinv as [Hcap Hsum _]. rewrite Hm in Hsum. simpl in *.
  rewrite Hm. unfold take. split.
  - destruct (len (Dyn.pool s)) eqn:El; simpl; split; intros; (done || lia).
  - intros s' Hs'. destruct (len (Dyn.pool s)); simplify_eq/=.
    split; [done|]. split; [done|]. split; [|done].
    by rewrite map_size_insert_None.
Qed.

End dyn_blocking.

(** ** The dynamic pool on more concrete executions *)

Section dyn_more_executions.
Import Demo DemoRun.

Lemma dyn_cancelled_run_can_return_witness :
  ∃ rest s', Forall DynRun.own rest
    ∧ Dyn.run doubler sp rest (dyn_after dyn_cancelled_run) = Some s'
    ∧ Dyn.main s' = Dyn.MReturned ∧ Dyn.units s' = ∅
    ∧ Dyn.spawned s' = Dyn.spawned (dyn_after dyn_cancelled_run).
Proof.
  apply (dyn_cancelled_run_can_return doubler sp 2 (Tokens 2 2)
           dyn_cancelled_run); vm_compute; reflexivity.
Defined.

Lemma dyn_closed_input_run_can_return_witness :
  ∃ rest s', Forall DynRun.own rest
    ∧ Dyn.run doubler sp rest (dyn_after dyn_closed_run) = Some s'
    ∧ Dyn.main s' = Dyn.MReturned ∧ Dyn.units s' = ∅
    ∧ Dyn.spawned s' = Dyn.spawned (dyn_after dyn_closed_run)
                       + DynRun.backlog sp (dyn_after dyn_closed_run).
Proof.
  apply (dyn_closed_input_run_can_return doubler sp 2 (Tokens 2 2)
           dyn_closed_run).
  - vm_compute; reflexivity.
  - vm_compute; reflexivity.
  - exists (Chan [-1]%Z true). split; vm_compute; reflexivity.
  - exists (Chan [] false). split; vm_compute; reflexivity.
Defined.

Lemma dyn_every_worker_accounted_witness :
  Dyn.spawned (dyn_after dyn_full_run)
  = unfinished DynRun.body_over (Dyn.units (dyn_after dyn_full_run))
    + length (errors_of (Error sp) (Dyn.w (dyn_after dyn_full_run)))
    + length (processed (Dyn.w (dyn_after dyn_full_run)))
    + length (written_to (Output sp) (Dyn.w (dyn_after dyn_full_run)))
    + DynRun.aborts dyn_full_run.
Proof.
  apply (dyn_every_worker_accounted doubler sp ltac:(simpl; lia) 2 (Tokens 2 2)
           dyn_full_run); vm_compute; reflexivity.
Defined.

Lemma dyn_every_item_accounted_witness :
  let s := dyn_after (dyn_cancelled_run ++ [Dyn.MainCtxDone]) in
  let known := length (DynRun.queued (Input sp) (Dyn.w s))
               + DynRun.held (Dyn.main s) + Dyn.spawned s in
  known ≤ length (DynRun.fed (dyn_cancelled_run ++ [Dyn.MainCtxDone]))
        ≤ known + 1
  ∧ (done (Dyn.w s) = false →
     length (DynRun.fed (dyn_cancelled_run ++ [Dyn.MainCtxDone])) = known).
Proof.
  apply (dyn_every_item_accounted doubler sp ltac:(simpl; lia) (Tokens 2 2)
           (dyn_cancelled_run ++ [Dyn.MainCtxDone])); vm_compute; reflexivity.
Defined.

Lemma dyn_return_without_cancel_complete_witness :
  DynRun.in_closed sp (Dyn.w (dyn_after dyn_full_run))
  ∧ DynRun.queued (Input sp) (Dyn.w (dyn_after dyn_full_run)) = []
  ∧ DynRun.aborts dyn_full_run = 0
  ∧ length (DynRun.fed dyn_full_run)
    = length (errors_of (Error sp) (Dyn.w (dyn_after dyn_full_run)))
      + length (processed (Dyn.w (dyn_after dyn_full_run)))
      + length (written_to (Output sp) (Dyn.w (dyn_after dyn_full_run))).
Proof.
  apply (dyn_return_without_cancel_complete doubler sp ltac:(simpl; lia) 2
           (Tokens 2 2) dyn_full_run); vm_compute; reflexivity.
Defined.

Lemma dyn_results_come_from_items_witness :
  (∀ o : Z, o ∈ written_to (Output sp) (Dyn.w (dyn_after dyn_full_run)) →
     ∃ (d : Z) b, d ∈ DynRun.fed dyn_full_run
       ∧ Process (Task := doubler) b d = (Some o, None))
  ∧ (∀ e, e ∈ errors_of (Error sp) (Dyn.w (dyn_after dyn_full_run)) →
       ∃ (d : Z) b err, d ∈ DynRun.fed dyn_full_run
         ∧ (Process (Task := doubler) b d).2 = Some err
         ∧ e = Errorf (Position sp) err)
  ∧ (∀ d : Z, d ∈ processed (Dyn.w (dyn_after dyn_full_run)) →
       d ∈ DynRun.fed dyn_full_run
       ∧ ∃ b, Process (Task := doubler) b d = (None, None)).
Proof.
  apply (dyn_results_come_from_items doubler sp ltac:(simpl; lia) (Tokens 2 2)
           dyn_full_run); vm_compute; reflexivity.
Defined.

Lemma dyn_after_loop_nothing_accepted_witness :
  let s := dyn_after (dyn_cancelled_run ++ [Dyn.MainCtxDone]) in
  let s' := dyn_after (dyn_cancelled_run ++ [Dyn.MainCtxDone] ++ dyn_wind_down) in
  DynRun.left_loop (Dyn.main s') ∧ Dyn.spawned s' = Dyn.spawned s
  ∧ ∃ more, DynRun.queued (Input sp) (Dyn.w s')
            = DynRun.queued (Input sp) (Dyn.w s) ++ more.
Proof.
  apply (dyn_after_loop_nothing_accepted doubler sp dyn_wind_down).
  - vm_compute. exact I.
  - vm_compute; reflexivity.
Defined.

Lemma dyn_token_wait_iff_saturated_witness :
  (Dyn.step doubler sp Dyn.MainToken (dyn_after dyn_saturated_run) = None
   ↔ size (Dyn.units (dyn_after dyn_saturated_run)) = Z.to_nat 2)
  ∧ ∀ s', Dyn.step doubler sp Dyn.MainToken (dyn_after dyn_saturated_run)
          = Some s' →
      Dyn.units s'
      = <[Dyn.spawned (dyn_after dyn_saturated_run) := Dyn.UStart (-1)%Z]>
          (Dyn.units (dyn_after dyn_saturated_run))
      ∧ Dyn.units (dyn_after dyn_saturated_run)
          !! Dyn.spawned (dyn_after dyn_saturated_run) = None
      ∧ size (Dyn.units s') = S (size (Dyn.units (dyn_after dyn_saturated_run)))
      ∧ Dyn.main s' = Dyn.MLoop.
Proof.
  apply (dyn_token_wait_iff_saturated doubler sp 2 (Tokens 2 2)
           dyn_saturated_run); vm_compute; reflexivity.
Defined.

End dyn_more_executions.

(** * More on the fixed pool and the broadcast *)

Section wait_group_facts.
Context {A : Type} (fin : A → bool).

Lemma unfinished_all_done (rs : gmap nat A) :
  (∀ i g, rs !! i = Some g → fin g = true) → unfinished fin rs = 0.
Proof.
  intros Hall. unfold unfinished.
  assert (filter (λ kv, fin kv.2 = false) rs = ∅) as ->;
    [|by rewrite map_size_empty].
  apply map_empty. intros i. apply map_lookup_filter_None.
  destruct (rs !! i) as [g|] eqn:E; [right|by left].
  intros g' ?. simplify_eq. simpl. rewrite (Hall _ _ E). done.
Qed.

Lemma unfinished_pos (rs : gmap nat A) (i : nat) (g : A) :
  rs !! i = Some g → fin g = false → 0 < unfinished fin rs.
Proof.
  intros Hi Hg. destruct (unfinished fin rs) eqn:E; [|lia].
  pose proof (unfinished_zero fin rs i g E Hi). congruence.
Qed.

Lemma size_initial_segment (rs : gmap nat A) (k : nat) :
  (∀ i, is_Some (rs !! i) ↔ i < k) → size rs = k.
Proof.
  intros H. rewrite <- size_dom.
  assert (dom rs = (set_seq 0 k : gset nat)) as ->.
  { apply set_eq. intros i. rewrite elem_of_dom, H, elem_of_set_seq. lia. }
  apply size_set_seq.
Qed.

End wait_group_facts.

Section fixed_more.
Context {Data : Type} (fifos : list (Stage Data)) (sp : params).

Local Abbreviation step := (Fixed.step fifos sp).
Local Abbreviation run := (Fixed.run fifos sp).
Local Abbreviation start := (Fixed.start (Data := Data) sp).

(** X9.  The WaitGroup of [fixedPool.Run] is used soundly.  In every
    execution: a goroutine that has come back from its replica's [Run]
    can always make its [wg.Done()], the counter being positive then
    (a negative counter would panic); and once the loop of [Run] is
    over, [wg.Wait()] returns exactly when every one of the
    [len(p.fifos)] goroutines has made its [wg.Done()]. *)
Theorem fixed_wait_group_sound (sched : list (Fixed.action Data))
    (s : Fixed.state Data) :
  run sched start = Some s →
  (∀ idx, Fixed.reps s !! idx = Some (Fixed.GRun Fifo.Returned) →
     0 < Fixed.wg s
     ∧ step (Fixed.RepDone idx) s
       = Some (Fixed.State (Fixed.w s) (Fixed.main s) (pred (Fixed.wg s))
                 (<[idx := Fixed.GDone]> (Fixed.reps s))))
  ∧ (Fixed.main s = Fixed.MWait →
     (is_Some (step Fixed.MainWait s)
      ↔ ∀ idx, idx < length fifos → Fixed.reps s !! idx = Some Fixed.GDone)).
Proof.
  intros Hrun. apply fixed_inv_run in Hrun as [Hb Hreps Hwg Hret]. split.
  - intros idx Hidx.
    pose proof (unfinished_pos Fixed.finished _ _ _ Hidx eq_refl) as Hpos.
    rewrite <- Hwg in Hpos. split; [done|]. simpl. rewrite Hidx.
    destruct (Fixed.wg s); [lia|done].
  - intros Hm. simpl. rewrite Hm in *. simpl in Hreps. split.
    + intros Hw idx Hidx. destruct (decide (Fixed.wg s = 0)) as [Hz|];
        [|by destruct Hw].
      apply Hreps in Hidx as [g Hg]. rewrite Hg. f_equal.
      rewrite Hwg in Hz. pose proof (unfinished_zero _ _ _ _ Hz Hg).
      by destruct g.
    + intros Hall. destruct (decide (Fixed.wg s = 0)) as [|Hnz]; [eauto|].
      destruct Hnz. rewrite Hwg. apply unfinished_all_done.
      intros i g Hg. assert (i < length fifos) as Hi by (apply Hreps; eauto).
      rewrite (Hall i Hi) in Hg. by simplify_eq.
Qed.

End fixed_more.

Section fixed_constructed.
Context {Data : Type} (task : Task Data) (sp : params).

(** X10.  What [Run] of the stage made by [FixedPool(task, num)] runs.
    In every execution there are at most [num] goroutines, and exactly
    [num] once the loop of [Run] is over; every step a goroutine takes
    inside its replica is a step of the sequential stage of [task]
    under the very stage context [Run] was given, so that all the
    replicas read the one input feed and write the one output feed and
    error sink. *)
Theorem fixed_pool_runs_num_replicas (num : Z) (fifos : list (Stage Data))
    (sched : list (Fixed.action Data)) (s : Fixed.state Data) :
  FixedPool task num = fixedPool fifos →
  Fixed.run fifos sp sched (Fixed.start sp) = Some s →
  size (Fixed.reps s) ≤ Z.to_nat num
  ∧ ((∀ i, Fixed.main s ≠ Fixed.MSpawn i) → size (Fixed.reps s) = Z.to_nat num)
  ∧ ∀ idx a s', Fixed.step fifos sp (Fixed.Rep idx a) s = Some s' →
      idx < Z.to_nat num
      ∧ ∃ p p', Fixed.reps s !! idx = Some (Fixed.GRun p)
          ∧ Fifo.step task sp a p (Fixed.w s) = Some (p', Fixed.w s')
          ∧ Fixed.reps s' = <[idx := Fixed.GRun p']> (Fixed.reps s)
          ∧ Fixed.main s' = Fixed.main s ∧ Fixed.wg s' = Fixed.wg s.
Proof.
  intros Hmk Hrun. unfold FixedPool in Hmk.
  destruct (Z.leb_spec num 0) as [|Hpos]; [done|]. simplify_eq.
  apply fixed_inv_run in Hrun as [Hb Hreps Hwg Hret].
  rewrite length_replicate in *.
  rewrite (size_initial_segment _ _ Hreps).
  split; [done|]. split.
  - intros Hm. destruct (Fixed.main s); simpl; rewrite ?length_replicate;
      try done. by destruct (Hm i).
  - intros idx a s' Hstep. simpl in Hstep.
    destruct (Fixed.reps s !! idx) as [[p|]|] eqn:Eg; try done.
    destruct (replicate (Z.to_nat num) (FIFO task) !! idx) as [st|] eqn:Ef;
      [|done].
    apply lookup_replicate in Ef as [-> Hidx]. simpl in Hstep.
    destruct (Fifo.step task sp a p (Fixed.w s)) as [[p' w']|] eqn:Es;
      simplify_eq/=.
    split; [done|]. exists p, p'. by repeat split.
Qed.

End fixed_constructed.

Section bcast_more.
Context {Payload : Type} (fifos : list (Stage nat)) (sp : params).

Local Abbreviation step := (Bcast.step (Payload := Payload) fifos sp).
Local Abbreviation run := (Bcast.run (Payload := Payload) fifos sp).
Local Abbreviation start := (Bcast.start (Payload := Payload) fifos sp).

(** X11.  [broadcast.Run] never misuses a channel.  In every
    execution: a turn of the closing loop is always enabled, the feed
    it closes having been made and not closed before (closing a nil or
    a closed channel would panic); the feed [inCh[i]] that the fan-out
    loop is about to send on has been made, is open and holds nothing,
    being unbuffered; and a goroutine that builds its stage context
    finds its feed [inCh[fifoIndex]] made. *)
Theorem bcast_channel_ops_safe (h : list Payload)
    (sched : list (Bcast.action Payload)) (s : Bcast.state Payload) :
  run sched (start h) = Some s →
  (∀ k, Bcast.main s = Bcast.MClose k →
     k ≤ length fifos
     ∧ (k = length fifos →
        step Bcast.MainClose s = Some (Bcast.with_main Bcast.MWait s))
     ∧ (k < length fifos →
        ∃ c ch w', Bcast.inCh s !! k = Some (Some c)
          ∧ chans (Bcast.w s) !! c = Some ch ∧ closed ch = false
          ∧ close c (Bcast.w s) = Some w'
          ∧ step Bcast.MainClose s
            = Some (Bcast.with_main (Bcast.MClose (S k)) (Bcast.with_w w' s))))
  ∧ (∀ data i fifoData, Bcast.main s = Bcast.MSend data i fifoData →
       (0 ≤ i < Z.of_nat (length fifos))%Z
       ∧ ∃ c, Bcast.inCh s !! Z.to_nat i = Some (Some c)
           ∧ chans (Bcast.w s) !! c = Some (Chan [] false))
  ∧ (∀ idx, Bcast.reps s !! idx = Some Bcast.GInit →
       ∃ c, Bcast.inCh s !! idx = Some (Some c)
         ∧ step (Bcast.RepInit idx) s
           = Some (Bcast.with_rep idx
                     (Bcast.GRun (Params (Position sp) c (Output sp) (Error sp))
                        Fifo.Select) s)).
Proof.
  intros Hrun. pose proof (bcast_fan_run _ _ _ _ _ Hrun) as [_ _ Hmain _ _ _ _].
  apply bcast_inv_run in Hrun
    as [Hlen Hb Hcb Hreps Hwg Hret Hfeeds HinCh Hnil Hinj Hps].
  split; [|split].
  - intros k Hm. rewrite Hm in *. simpl in *. split; [done|]. split.
    + intros ->. rewrite Hm.
      destruct (decide (length fifos < length (Bcast.inCh s))); [lia|done].
    + intros Hk. destruct (HinCh k Hk) as (c & Hc & _ & _ & Hch).
      rewrite bool_decide_eq_false_2 in Hch by lia. rewrite Hm.
      destruct (decide (k < length (Bcast.inCh s))); [|lia].
      exists c, (Chan [] false). unfold close. rewrite Hc, Hch. simpl.
      eexists. do 4 (split; [done|]). by rewrite Hch.
  - intros data i fifoData Hm. rewrite Hm in Hmain.
    destruct Hmain as (Hi & _). split; [done|].
    destruct (HinCh (Z.to_nat i)) as (c & Hc & _ & _ & Hch);
      [rewrite Hm; simpl; lia|].
    exists c. split; [done|]. rewrite Hch, Hm. unfold Bcast.closed_upto.
    by rewrite bool_decide_eq_false_2 by lia.
  - intros idx Hg.
    assert (idx < Bcast.launched fifos (Bcast.main s)) as Hlt
      by (apply Hreps; eauto).
    destruct (HinCh idx Hlt) as (c & Hc & _). exists c. split; [done|].
    simpl. by rewrite Hg, Hc.
Qed.

(** X12.  The WaitGroup of [broadcast.Run] is used soundly.  In every
    execution: a goroutine that has come back from its replica's [Run]
    can always make its [wg.Done()], the counter being positive then;
    and once the closing loop is over, [wg.Wait()] returns exactly
    when every one of the [len(b.fifos)] goroutines has made its
    [wg.Done()]. *)
Theorem bcast_wait_group_sound (h : list Payload)
    (sched : list (Bcast.action Payload)) (s : Bcast.state Payload) :
  run sched (start h) = Some s →
  (∀ idx ps, Bcast.reps s !! idx = Some (Bcast.GRun ps Fifo.Returned) →
     0 < Bcast.wg s
     ∧ ∃ s', step (Bcast.RepDone idx) s = Some s'
         ∧ Bcast.wg s' = pred (Bcast.wg s)
         ∧ Bcast.reps s' = <[idx := Bcast.GDone ps]> (Bcast.reps s))
  ∧ (Bcast.main s = Bcast.MWait →
     (is_Some (step Bcast.MainWait s)
      ↔ ∀ idx, idx < length fifos →
          ∃ ps, Bcast.reps s !! idx = Some (Bcast.GDone ps))).
Proof.
  intros Hrun.
  apply bcast_inv_run in Hrun
    as [Hlen Hb Hcb Hreps Hwg Hret Hfeeds HinCh Hnil Hinj Hps].
  split.
  - intros idx ps Hidx.
    pose proof (unfinished_pos Bcast.finished _ _ _ Hidx eq_refl) as Hpos.
    rewrite <- Hwg in Hpos. split; [done|]. simpl. rewrite Hidx.
    destruct (Bcast.wg s); [lia|]. eexists. by repeat split.
  - intros Hm. simpl. rewrite Hm in *. simpl in Hreps. split.
    + intros Hw idx Hidx. destruct (decide (Bcast.wg s = 0)) as [Hz|];
        [|by destruct Hw].
      apply Hreps in Hidx as [g Hg]. rewrite Hg.
      rewrite Hwg in Hz. pose proof (unfinished_zero _ _ _ _ Hz Hg).
      destruct g; try done. eauto.
    + intros Hall. destruct (decide (Bcast.wg s = 0)) as [|Hnz]; [eauto|].
      destruct Hnz. rewrite Hwg. apply unfinished_all_done.
      intros i g Hg. assert (i < length fifos) as Hi by (apply Hreps; eauto).
      destruct (Hall i Hi) as [ps Hps']. rewrite Hps' in Hg. by simplify_eq.
Qed.

Local Abbreviation clones_counted := (BcastRun.clones_counted (Payload := Payload) fifos).

Lemma bcast_clones_step (a : Bcast.action Payload) (s s' : Bcast.state Payload) :
  step a s = Some s' → clones_counted s → clones_counted s'.
Proof.
  intros Hstep [Hle Heq]. unfold BcastRun.clones_counted in *.
  destruct s as [w hp m ic n rs tk dl cl]; simpl in *.
  destruct a; simpl in Hstep; open_step Hstep; simplify_eq/=;
    rewrite ?length_app, ?Nat.mul_add_distr_l, ?Nat.mul_1_r; simpl;
    try specialize (Heq eq_refl);
    (split; [|intros ?]; first [lia | by eauto]).
Qed.

Lemma bcast_clones_run (h : list Payload) (sched : list (Bcast.action Payload))
    (s : Bcast.state Payload) :
  run sched (start h) = Some s → clones_counted s.
Proof.
  revert sched s. apply exec_ind.
  - split; simpl; intros; lia.
  - intros l a s s' _ IH Hstep. by eapply bcast_clones_step.
Qed.

(** X13.  How often [broadcast.Run] calls [Clone].  In every
    execution the number of calls is at most [len(b.fifos) - 1] times
    the number of items taken from the input feed, and it is exactly
    that whenever [Run] is back at its outer [select]: one clone per
    item for every replica but the first, none at all for a broadcast
    over a single transform. *)
Theorem bcast_clones_per_item (h : list Payload)
    (sched : list (Bcast.action Payload)) (s : Bcast.state Payload) :
  run sched (start h) = Some s →
  length (Bcast.cloned s) ≤ (length fifos - 1) * length (Bcast.taken s)
  ∧ (Bcast.main s = Bcast.MSelect →
     length (Bcast.cloned s) = (length fifos - 1) * length (Bcast.taken s))
  ∧ (length fifos = 1 → Bcast.cloned s = []).
Proof.
  intros Hrun. apply bcast_clones_run in Hrun as [Hle Heq].
  split; [lia|]. split.
  - intros Hm. rewrite Hm in *. simpl in *. specialize (Heq eq_refl). lia.
  - intros H1. rewrite H1 in Hle. simpl in Hle.
    destruct (Bcast.cloned s); [done|]. simpl in Hle. lia.
Qed.

End bcast_more.

Section bcast_constructed.
Context {Payload : Type} (sp : params).

(** X14.  What [Run] of the stage made by [Broadcast(tasks...)] runs.
    In every execution there are at most [len(tasks)] goroutines, and
    exactly that many once the first loop of [Run] is over; every step
    the goroutine of index [i] takes inside its replica is a step of
    the sequential stage of the [i]-th transform given to [Broadcast],
    reading from its own feed [inCh[i]]. *)
Theorem bcast_replica_runs_its_task (tasks : list (Task nat))
    (fifos : list (Stage nat)) (h : list Payload)
    (sched : list (Bcast.action Payload)) (s : Bcast.state Payload) :
  Broadcast tasks = broadcast fifos →
  Bcast.run fifos sp sched (Bcast.start fifos sp h) = Some s →
  size (Bcast.reps s) ≤ length tasks
  ∧ ((∀ i, Bcast.main s ≠ Bcast.MSpawn i) →
     size (Bcast.reps s) = length tasks)
  ∧ ∀ idx a s', Bcast.step fifos sp (Bcast.Rep idx a) s = Some s' →
      ∃ proc ps p p', tasks !! idx = Some proc
        ∧ Bcast.reps s !! idx = Some (Bcast.GRun ps p)
        ∧ Fifo.step proc ps a p (Bcast.w s) = Some (p', Bcast.w s')
        ∧ Bcast.reps s' = <[idx := Bcast.GRun ps p']> (Bcast.reps s)
        ∧ Bcast.inCh s !! idx = Some (Some (Input ps)).
Proof.
  intros Hmk Hrun. unfold Broadcast in Hmk.
  destruct (decide (length tasks = 0)); [done|]. simplify_eq.
  apply bcast_inv_run in Hrun
    as [Hlen Hb Hcb Hreps Hwg Hret Hfeeds HinCh Hnil Hinj Hps].
  rewrite (size_initial_segment _ _ Hreps).
  rewrite length_fmap in *. split; [done|]. split.
  - intros Hm. destruct (Bcast.main s); simpl; rewrite ?length_fmap;
      try done. by destruct (Hm i).
  - intros idx a s' Hstep. simpl in Hstep.
    destruct (Bcast.reps s !! idx) as [[|ps p|]|] eqn:Eg; try done.
    rewrite list_lookup_fmap in Hstep.
    destruct (tasks !! idx) as [proc|] eqn:Ef; [|done]. simpl in Hstep.
    destruct (Fifo.step proc ps a p (Bcast.w s)) as [[p' w']|] eqn:Es;
      simplify_eq/=.
    exists proc, ps, p, p'. do 4 (split; [done|]).
    by destruct (Hps _ _ ps Eg eq_refl) as [_ ?].
Qed.

End bcast_constructed.

(** ** The fixed pool and the broadcast on more concrete executions *)

Section stage_more_executions.
Import Demo DemoRun.

Lemma fixed_wait_group_sound_witness :
  0 < Fixed.wg (fixed_after fixed_back_run)
  ∧ is_Some (Fixed.step fixed_fifos sp (Fixed.RepDone 1)
               (fixed_after fixed_back_run)).
Proof.
  destruct (fixed_wait_group_sound fixed_fifos sp fixed_back_run
              (fixed_after fixed_back_run)) as [Hdone _];
    [vm_compute; reflexivity|].
  destruct (Hdone 1) as [Hpos Hstep]; [vm_compute; reflexivity|].
  split; [exact Hpos|]. rewrite Hstep. eauto.
Defined.

Lemma fixed_pool_runs_num_replicas_witness :
  size (Fixed.reps (fixed_after fixed_back_run)) = Z.to_nat 2.
Proof.
  destruct (fixed_pool_runs_num_replicas doubler sp 2 fixed_fifos fixed_back_run
              (fixed_after fixed_back_run)) as (_ & Hsize & _);
    [vm_compute; reflexivity..|].
  apply Hsize. intros i. vm_compute. discriminate.
Defined.

Lemma bcast_channel_ops_safe_witness :
  (∃ c, Bcast.inCh (bcast_after bcast_sending_run) !! Z.to_nat 1 = Some (Some c)
     ∧ chans (Bcast.w (bcast_after bcast_sending_run)) !! c
       = Some (Chan [] false))
  ∧ is_Some (Bcast.step bcast_fifos sp Bcast.MainClose
               (bcast_after bcast_closing_run)).
Proof.
  destruct (bcast_channel_ops_safe bcast_fifos sp [10] bcast_sending_run
              (bcast_after bcast_sending_run)) as (_ & Hsend & _);
    [vm_compute; reflexivity|].
  destruct (bcast_channel_ops_safe bcast_fifos sp [10] bcast_closing_run
              (bcast_after bcast_closing_run)) as (Hclose & _ & _);
    [vm_compute; reflexivity|].
  split.
  - apply (Hsend 0 1%Z 1). vm_compute; reflexivity.
  - destruct (Hclose 0) as (_ & _ & Hk); [vm_compute; reflexivity|].
    destruct Hk as (c & ch & w' & _ & _ & _ & _ & ->); [simpl; lia|]. eauto.
Defined.

Lemma bcast_wait_group_sound_witness :
  0 < Bcast.wg (bcast_after bcast_waiting_run)
  ∧ ¬ is_Some (Bcast.step bcast_fifos sp Bcast.MainWait
                 (bcast_after bcast_waiting_run)).
Proof.
  destruct (bcast_wait_group_sound bcast_fifos sp [10] bcast_waiting_run
              (bcast_after bcast_waiting_run)) as [Hdone Hwait];
    [vm_compute; reflexivity|].
  split.
  - destruct (Hdone 0 (Params 3 2 1 2)) as [Hpos _]; [vm_compute; reflexivity|].
    exact Hpos.
  - intros Hw. destruct Hwait as [Hall _]; [vm_compute; reflexivity|].
    destruct (Hall Hw 0) as [ps Hps]; [simpl; lia|].
    vm_compute in Hps. discriminate.
Defined.

Lemma bcast_clones_per_item_witness :
  length (Bcast.cloned (bcast_after bcast_full_run))
  ≤ (length bcast_fifos - 1) * length (Bcast.taken (bcast_after bcast_full_run))
  ∧ length (Bcast.cloned (bcast_after bcast_closing_run)) ≤ 1.
Proof.
  destruct (bcast_clones_per_item bcast_fifos sp [10] bcast_full_run
              (bcast_after bcast_full_run)) as (Hle & _);
    [vm_compute; reflexivity|].
  destruct (bcast_clones_per_item bcast_fifos sp [10] bcast_closing_run
              (bcast_after bcast_closing_run)) as (Hle' & _);
    [vm_compute; reflexivity|].
  split; [exact Hle | exact Hle'].
Defined.

Lemma bcast_replica_runs_its_task_witness :
  size (Bcast.reps (bcast_after bcast_waiting_run)) = 2.
Proof.
  destruct (bcast_replica_runs_its_task sp [forward; forward] bcast_fifos [10]
              bcast_waiting_run (bcast_after bcast_waiting_run))
    as (_ & Hsize & _); [vm_compute; reflexivity..|].
  apply Hsize. intros i. vm_compute. discriminate.
Defined.

End stage_more_executions.

(** * Shutting down the fixed pool *)

Section fixed_progress.
Context {Data : Type} (fifos : list (Stage Data)) (sp : params).

Local Abbreviation step := (Fixed.step fifos sp).
Local Abbreviation run := (Fixed.run fifos sp).
Local Abbreviation start := (Fixed.start (Data := Data) sp).

Lemma fixed_run_cons (a : Fixed.action Data) (l : list (Fixed.action Data))
    (s s1 s' : Fixed.state Data) :
  step a s = Some s1 → run l s1 = Some s' → run (a :: l) s = Some s'.
Proof. intros H1 H2. unfold Fixed.run. simpl. by rewrite H1. Qed.

Lemma fixed_run_trans (l1 l2 : list (Fixed.action Data))
    (s s1 s' : Fixed.state Data) :
  run l1 s = Some s1 → run l2 s1 = Some s' → run (l1 ++ l2) s = Some s'.
Proof. intros H1 H2. unfold Fixed.run in *. by rewrite exec_app, H1. Qed.

Lemma fixed_inv_exec (l : list (Fixed.action Data)) (s s' : Fixed.state Data) :
  run l s = Some s' → Fixed.inv fifos s → Fixed.inv fifos s'.
Proof.
  revert s. induction l as [|a l IH]; intros s Hrun Hinv.
  - unfold Fixed.run in Hrun. simpl in Hrun. by simplify_eq.
  - unfold Fixed.run in Hrun. simpl in Hrun.
    destruct (step a s) as [s1|] eqn:E; [|done]. simpl in Hrun.
    eapply IH; [done|]. by eapply fixed_inv_step.
Qed.

Lemma unfinished_choose {A : Type} (fin : A → bool) (rs : gmap nat A) :
  0 < unfinished fin rs → ∃ i g, rs !! i = Some g ∧ fin g = false.
Proof.
  unfold unfinished. intros Hpos.
  destruct (map_choose (filter (λ kv, fin kv.2 = false) rs)) as (i & g & Hg).
  { intros He. rewrite He, map_size_empty in Hpos. lia. }
  apply map_lookup_filter_Some in Hg as [? ?]. eauto.
Qed.

(** Once cancellation has fired, a goroutine inside its replica's
    [Run] comes back from it without touching a feed. *)
Lemma fixed_rep_back (s : Fixed.state Data) (idx : nat) (p : Fifo.pc Data)
    (proc : Task Data) :
  done (Fixed.w s) = true → Fixed.reps s !! idx = Some (Fixed.GRun p) →
  fifos !! idx = Some (fifo proc) →
  ∃ acts s', run acts s = Some s' ∧ Forall FixedRun.own acts
    ∧ Fixed.reps s' = <[idx := Fixed.GRun Fifo.Returned]> (Fixed.reps s)
    ∧ Fixed.main s' = Fixed.main s ∧ Fixed.wg s' = Fixed.wg s
    ∧ done (Fixed.w s') = true ∧ chans (Fixed.w s') = chans (Fixed.w s).
Proof.
  intros Hd Hg Hf.
  assert (∀ (s1 : Fixed.state Data) p1, done (Fixed.w s1) = true →
            Fixed.reps s1 !! idx = Some (Fixed.GRun p1) →
            (p1 = Fifo.Select ∨ ∃ o, p1 = Fifo.Sending o) →
            step (Fixed.Rep idx Fifo.CtxDone) s1
            = Some (Fixed.State (Fixed.w s1) (Fixed.main s1) (Fixed.wg s1)
                      (<[idx := Fixed.GRun Fifo.Returned]> (Fixed.reps s1))))
    as Hcancel.
  { intros s1 p1 Hd1 Hg1 Hp1. simpl. rewrite Hg1, Hf.
    destruct Hp1 as [->|[o ->]]; simpl; by rewrite Hd1. }
  destruct p as [|d|o|].
  - eexists [Fixed.Rep idx Fifo.CtxDone], _.
    split; [eapply fixed_run_cons; [by eapply Hcancel; eauto | done]|].
    split; [by repeat constructor|]. by repeat split.
  - destruct (step (Fixed.Rep idx Fifo.Proc) s) as [s1|] eqn:H1.
    2: { simpl in H1. rewrite Hg, Hf in H1. simpl in H1.
         by destruct (Process (done (Fixed.w s)) d) as [[?|] [?|]]. }
    assert (∃ p1, (p1 = Fifo.Select ∨ ∃ o, p1 = Fifo.Sending o)
              ∧ Fixed.reps s1 = <[idx := Fixed.GRun p1]> (Fixed.reps s)
              ∧ Fixed.main s1 = Fixed.main s ∧ Fixed.wg s1 = Fixed.wg s
              ∧ done (Fixed.w s1) = true
              ∧ chans (Fixed.w s1) = chans (Fixed.w s))
      as (p1 & Hp1 & Hr1 & Hm1 & Hw1 & Hd1 & Hc1).
    { simpl in H1. rewrite Hg, Hf in H1. simpl in H1.
      destruct (Process (done (Fixed.w s)) d) as [[?|] [?|]]; simplify_eq/=;
        eexists; (split; [|by repeat split]); eauto. }
    eexists [Fixed.Rep idx Fifo.Proc; Fixed.Rep idx Fifo.CtxDone], _.
    split.
    { eapply fixed_run_cons; [done|]. eapply fixed_run_cons; [|done].
      eapply Hcancel; [done | by rewrite Hr1, lookup_insert_eq | done]. }
    split; [by repeat constructor|]. simpl.
    rewrite Hr1, insert_insert_eq. by repeat split.
  - eexists [Fixed.Rep idx Fifo.CtxDone], _.
    split; [eapply fixed_run_cons; [by eapply Hcancel; eauto | done]|].
    split; [by repeat constructor|]. by repeat split.
  - exists [], s. split; [done|]. split; [done|].
    by rewrite insert_id.
Qed.

(** ... and then makes its [wg.Done()]. *)
Lemma fixed_rep_done (s : Fixed.state Data) (idx : nat) (p : Fifo.pc Data)
    (proc : Task Data) :
  Fixed.inv fifos s →
  done (Fixed.w s) = true → Fixed.reps s !! idx = Some (Fixed.GRun p) →
  fifos !! idx = Some (fifo proc) →
  ∃ acts s', run acts s = Some s' ∧ Forall FixedRun.own acts
    ∧ S (Fixed.wg s') = Fixed.wg s ∧ Fixed.main s' = Fixed.main s
    ∧ done (Fixed.w s') = true ∧ chans (Fixed.w s') = chans (Fixed.w s).
Proof.
  intros Hinv Hd Hg Hf.
  destruct (fixed_rep_back s idx p proc Hd Hg Hf)
    as (acts & s1 & H1 & Hown & Hr1 & Hm1 & Hw1 & Hd1 & Hc1).
  pose proof (unfinished_pos Fixed.finished _ _ _ Hg eq_refl) as Hpos.
  destruct Hinv as [_ _ Hwg _]. rewrite <- Hwg in Hpos.
  destruct (Fixed.wg s) as [|n] eqn:En; [lia|].
  eexists (acts ++ [Fixed.RepDone idx]), _. split.
  { eapply fixed_run_trans; [done|]. eapply fixed_run_cons; [|done].
    simpl. by rewrite Hr1, lookup_insert_eq, Hw1. }
  split; [apply Forall_app; split; [done | by repeat constructor]|].
  by repeat split.
Qed.

(** The goroutines come back one after the other, and [wg.Wait()]
    returns. *)
Lemma fixed_wait_all (k : nat) (s : Fixed.state Data) :
  (∀ idx, idx < length fifos → ∃ proc, fifos !! idx = Some (fifo proc)) →
  Fixed.wg s = k → Fixed.inv fifos s → Fixed.main s = Fixed.MWait →
  done (Fixed.w s) = true →
  ∃ acts s', run acts s = Some s' ∧ Forall FixedRun.own acts
    ∧ Fixed.main s' = Fixed.MReturned
    ∧ chans (Fixed.w s') = chans (Fixed.w s).
Proof.
  intros Hfifos. revert s. induction k as [|k IH]; intros s Hk Hinv Hm Hd.
  - eexists [Fixed.MainWait], _. split.
    { unfold Fixed.run. simpl. rewrite Hm, Hk. done. }
    split; [by repeat constructor|]. done.
  - pose proof Hinv as [_ Hreps Hwg _].
    destruct (unfinished_choose Fixed.finished (Fixed.reps s))
      as (idx & g & Hg & Hfin); [lia|].
    destruct g as [p|]; [|done].
    assert (idx < length fifos) as Hidx.
    { rewrite Hm in Hreps. apply Hreps. eauto. }
    destruct (Hfifos idx Hidx) as [proc Hproc].
    destruct (fixed_rep_done s idx p proc Hinv Hd Hg Hproc)
      as (acts1 & s1 & H1 & Hown1 & Hw1 & Hm1 & Hd1 & Hc1).
    destruct (IH s1) as (acts2 & s' & H2 & Hown2 & Hm2 & Hc2);
      [lia | by eapply fixed_inv_exec | congruence | done |].
    exists (acts1 ++ acts2), s'. split; [by eapply fixed_run_trans|].
    split; [by apply Forall_app|]. split; [done|]. congruence.
Qed.

(** The loop of [Run] never blocks. *)
Lemma fixed_spawn_all (k : nat) (s : Fixed.state Data) (i : nat) :
  length fifos - i = k → Fixed.main s = Fixed.MSpawn i →
  ∃ acts s', run acts s = Some s' ∧ Forall FixedRun.own acts
    ∧ Fixed.main s' = Fixed.MWait ∧ Fixed.w s' = Fixed.w s.
Proof.
  revert s i. induction k as [|k IH]; intros s i Hk Hm.
  - eexists [Fixed.MainSpawn], _. split.
    { unfold Fixed.run. simpl. rewrite Hm.
      destruct (decide (i < length fifos)); [lia|done]. }
    split; [by repeat constructor|]. done.
  - destruct (IH (Fixed.State (Fixed.w s) (Fixed.MSpawn (S i)) (S (Fixed.wg s))
                    (<[i := Fixed.GRun Fifo.Select]> (Fixed.reps s))) (S i))
      as (acts & s' & H2 & Hown & Hm2 & Hw2); [lia | done |].
    exists (Fixed.MainSpawn :: acts), s'. split.
    { eapply fixed_run_cons; [|done]. simpl. rewrite Hm.
      destruct (decide (i < length fifos)); [done|lia]. }
    split; [by constructor|]. done.
Qed.

End fixed_progress.

Section fixed_shutdown.
Context {Data : Type} (task : Task Data) (sp : params).

(** X15.  Once cancellation has fired, [Run] of the stage made by
    [FixedPool(task, num)] can always come to its return, whatever
    state the execution is in, by steps of the stage alone: the loop
    launches what is left to launch, every goroutine comes back from
    its replica and makes its [wg.Done()], and [wg.Wait()] returns.
    On that way no feed is touched: nothing more is taken from the
    input feed, nothing more is written to the output feed. *)
Theorem fixed_cancelled_run_can_return (num : Z) (fifos : list (Stage Data))
    (sched : list (Fixed.action Data)) (s : Fixed.state Data) :
  FixedPool task num = fixedPool fifos →
  Fixed.run fifos sp sched (Fixed.start sp) = Some s →
  done (Fixed.w s) = true →
  ∃ rest s', Forall FixedRun.own rest
    ∧ Fixed.run fifos sp rest s = Some s'
    ∧ Fixed.main s' = Fixed.MReturned
    ∧ (∀ idx, idx < Z.to_nat num → Fixed.reps s' !! idx = Some Fixed.GDone)
    ∧ chans (Fixed.w s') = chans (Fixed.w s).
Proof.
  intros Hmk Hrun Hd. unfold FixedPool in Hmk.
  destruct (Z.leb_spec num 0) as [|Hpos]; [done|]. simplify_eq.
  set (fifos := replicate (Z.to_nat num) (FIFO task)) in *.
  assert (∀ idx, idx < length fifos → ∃ proc, fifos !! idx = Some (fifo proc))
    as Hfifos.
  { intros idx Hidx. exists task. apply lookup_replicate.
    unfold fifos in Hidx. rewrite length_replicate in Hidx. done. }
  assert (∃ rest s', Forall FixedRun.own rest
            ∧ Fixed.run fifos sp rest s = Some s'
            ∧ Fixed.main s' = Fixed.MReturned
            ∧ chans (Fixed.w s') = chans (Fixed.w s))
    as (rest & s' & Hown & Hrest & Hret & Hch).
  { pose proof (fixed_inv_run _ _ _ _ Hrun) as Hinv.
    destruct (Fixed.main s) as [i| |] eqn:Hm.
    - destruct (fixed_spawn_all fifos sp _ s i eq_refl Hm)
        as (acts1 & s1 & H1 & Hown1 & Hm1 & Hw1).
      destruct (fixed_wait_all fifos sp _ s1 Hfifos eq_refl)
        as (acts2 & s' & H2 & Hown2 & Hm2 & Hc2);
        [by eapply fixed_inv_exec | done | congruence |].
      exists (acts1 ++ acts2), s'. split; [by apply Forall_app|].
      split; [by eapply fixed_run_trans|]. split; [done|]. congruence.
    - destruct (fixed_wait_all fifos sp _ s Hfifos eq_refl Hinv Hm Hd)
        as (acts & s' & ? & ? & ? & ?). by exists acts, s'.
    - by exists [], s. }
  exists rest, s'. do 3 (split; [done|]). split; [|done].
  intros idx Hidx. eapply (fixed_returned_all_done fifos sp (sched ++ rest)).
  - by eapply fixed_run_trans.
  - done.
  - unfold fifos. by rewrite length_replicate.
Qed.

End fixed_shutdown.

(** * Shutting down the broadcast *)

Section bcast_progress.
Context {Payload : Type} (fifos : list (Stage nat)) (sp : params).

Local Abbreviation step := (Bcast.step (Payload := Payload) fifos sp).
Local Abbreviation run := (Bcast.run (Payload := Payload) fifos sp).
Local Abbreviation start := (Bcast.start (Payload := Payload) fifos sp).
Local Abbreviation inv := (Bcast.inv (Payload := Payload) fifos sp).
Local Abbreviation own := (BcastRun.own (Payload := Payload)).

Lemma bcast_run_cons (a : Bcast.action Payload) (l : list (Bcast.action Payload))
    (s s1 s' : Bcast.state Payload) :
  step a s = Some s1 → run l s1 = Some s' → run (a :: l) s = Some s'.
Proof. intros H1 H2. unfold Bcast.run. simpl. by rewrite H1. Qed.

Lemma bcast_run_trans (l1 l2 : list (Bcast.action Payload))
    (s s1 s' : Bcast.state Payload) :
  run l1 s = Some s1 → run l2 s1 = Some s' → run (l1 ++ l2) s = Some s'.
Proof. intros H1 H2. unfold Bcast.run in *. by rewrite exec_app, H1. Qed.

Lemma bcast_inv_exec (l : list (Bcast.action Payload)) (s s' : Bcast.state Payload) :
  run l s = Some s' → inv s → inv s'.
Proof.
  revert s. induction l as [|a l IH]; intros s Hrun Hinv.
  - unfold Bcast.run in Hrun. simpl in Hrun. by simplify_eq.
  - unfold Bcast.run in Hrun. simpl in Hrun.
    destruct (step a s) as [s1|] eqn:E; [|done]. simpl in Hrun.
    eapply IH; [done|]. by eapply bcast_inv_step.
Qed.

(** The first loop of [Run] never blocks, and it touches no feed
    that is there already. *)
Lemma bcast_spawn_all (k : nat) (s : Bcast.state Payload) (i : nat) :
  length fifos - i = k → Bcast.main s = Bcast.MSpawn i →
  ∃ acts s', run acts s = Some s' ∧ Forall own acts
    ∧ Bcast.main s' = Bcast.MSelect ∧ done (Bcast.w s') = done (Bcast.w s)
    ∧ Bcast.heap s' = Bcast.heap s
    ∧ ∀ c ch, chans (Bcast.w s) !! c = Some ch →
        chans (Bcast.w s') !! c = Some ch.
Proof.
  revert s i. induction k as [|k IH]; intros s i Hk Hm.
  - eexists [Bcast.MainSpawn], _. split.
    { unfold Bcast.run. simpl. rewrite Hm.
      destruct (decide (i < length fifos)); [lia|done]. }
    split; [by repeat constructor|]. done.
  - destruct (step Bcast.MainSpawn s) as [s1|] eqn:H1.
    2: { simpl in H1. rewrite Hm in H1. by destruct (decide (i < length fifos)). }
    assert (Bcast.main s1 = Bcast.MSpawn (S i)
            ∧ done (Bcast.w s1) = done (Bcast.w s)
            ∧ Bcast.heap s1 = Bcast.heap s
            ∧ ∀ c ch, chans (Bcast.w s) !! c = Some ch →
                chans (Bcast.w s1) !! c = Some ch) as (Hm1 & Hd1 & Hh1 & Hc1).
    { simpl in H1. rewrite Hm in H1.
      destruct (decide (i < length fifos)); [|lia]. simplify_eq/=.
      do 3 (split; [done|]). intros c ch Hch.
      rewrite lookup_insert_ne; [done|]. intros <-.
      pose proof (is_fresh (dom (chans (Bcast.w s)))) as Hfresh.
      apply Hfresh. apply elem_of_dom. eauto. }
    destruct (IH s1 (S i)) as (acts & s' & H2 & Hown & Hm2 & Hd2 & Hh2 & Hc2);
      [lia | done |].
    exists (Bcast.MainSpawn :: acts), s'. split; [by eapply bcast_run_cons|].
    split; [by constructor|]. split; [done|]. split; [congruence|].
    split; [congruence|]. eauto.
Qed.

(** Once cancellation has fired, [Run] gets from anywhere in its main
    loop to its closing loop. *)
Lemma bcast_leave_loop (s : Bcast.state Payload) :
  done (Bcast.w s) = true →
  (∀ data i, Bcast.main s = Bcast.MFan data i → (0 < i)%Z →
     is_Some (Bcast.heap s !! data)) →
  BcastRun.in_loop (Bcast.main s) = true →
  ∃ acts s', run acts s = Some s' ∧ Forall own acts
    ∧ Bcast.main s' = Bcast.MClose 0 ∧ done (Bcast.w s') = true.
Proof.
  intros Hd Hheap Hloop.
  assert (∀ s0 : Bcast.state Payload, done (Bcast.w s0) = true →
            (Bcast.main s0 = Bcast.MSelect
             ∨ ∃ data i fd, Bcast.main s0 = Bcast.MSend data i fd) →
            ∃ acts s', run acts s0 = Some s' ∧ Forall own acts
              ∧ Bcast.main s' = Bcast.MClose 0 ∧ done (Bcast.w s') = true)
    as Hcancel.
  { intros s0 Hd0 Hm0.
    exists [Bcast.MainCtxDone], (Bcast.with_main (Bcast.MClose 0) s0). split.
    { unfold Bcast.run. simpl. rewrite Hd0.
      destruct Hm0 as [->|(data & i & fd & ->)]; done. }
    split; [by repeat constructor|]. done. }
  assert (∀ s0 : Bcast.state Payload, done (Bcast.w s0) = true →
            (∃ s1, step Bcast.MainFan s0 = Some s1
               ∧ done (Bcast.w s1) = done (Bcast.w s0)
               ∧ (Bcast.main s1 = Bcast.MSelect
                  ∨ ∃ data i fd, Bcast.main s1 = Bcast.MSend data i fd)) →
            ∃ acts s', run acts s0 = Some s' ∧ Forall own acts
              ∧ Bcast.main s' = Bcast.MClose 0 ∧ done (Bcast.w s') = true)
    as Hfan.
  { intros s0 Hd0 (s1 & H1 & Hd1 & Hm1).
    destruct (Hcancel s1) as (acts & s' & H2 & Hown & Hm2 & Hd2);
      [congruence | done |].
    exists (Bcast.MainFan :: acts), s'. split; [by eapply bcast_run_cons|].
    split; [by constructor|]. done. }
  destruct (Bcast.main s) as [i| |data i|data i fd|k| |] eqn:Hm; try done.
  - destruct (bcast_spawn_all _ s i eq_refl Hm)
      as (acts1 & s1 & H1 & Hown1 & Hm1 & Hd1 & _).
    destruct (Hcancel s1) as (acts2 & s' & H2 & Hown2 & Hm2 & Hd2);
      [congruence | by left |].
    exists (acts1 ++ acts2), s'. split; [by eapply bcast_run_trans|].
    split; [by apply Forall_app|]. done.
  - apply Hcancel; [done | by left].
  - apply Hfan; [done|]. simpl. rewrite Hm.
    destruct (decide (0 ≤ i)%Z) as [Hi|Hi]; [|by eauto 10].
    destruct (decide (i ≠ 0%Z)) as [Hnz|Hz]; [|by eauto 10].
    destruct (Hheap data i eq_refl) as [p Hp]; [lia|].
    unfold Bcast.Clone. rewrite Hp. simpl. by eauto 10.
  - apply Hcancel; [done | by eauto 10].
Qed.

(** The closing loop of [Run] goes through. *)
Lemma bcast_close_all (m : nat) (s : Bcast.state Payload) (k : nat) :
  length fifos - k = m → inv s → Bcast.main s = Bcast.MClose k →
  ∃ acts s', run acts s = Some s' ∧ Forall own acts
    ∧ Bcast.main s' = Bcast.MWait ∧ done (Bcast.w s') = done (Bcast.w s)
    ∧ (DynRun.out_open sp (Bcast.w s) → DynRun.out_open sp (Bcast.w s')).
Proof.
  revert s k. induction m as [|m IH]; intros s k Hk Hinv Hm.
  - pose proof Hinv as [Hlen _ Hcb _ _ _ _ _ _ _ _]. rewrite Hm in Hcb.
    simpl in Hcb.
    eexists [Bcast.MainClose], _. split.
    { unfold Bcast.run. simpl. rewrite Hm.
      destruct (decide (k < length (Bcast.inCh s))); [lia|done]. }
    split; [by repeat constructor|]. done.
  - pose proof Hinv as [Hlen _ _ _ _ _ _ HinCh _ _ _]. rewrite Hm in HinCh.
    simpl in HinCh.
    destruct (HinCh k) as (c & Hc & _ & Hco & Hch); [lia|].
    rewrite bool_decide_eq_false_2 in Hch by lia.
    set (w1 := set_chan c (Chan [] true) (Bcast.w s)).
    set (s1 := Bcast.with_main (Bcast.MClose (S k)) (Bcast.with_w w1 s)).
    assert (step Bcast.MainClose s = Some s1) as H1.
    { simpl. rewrite Hm. destruct (decide (k < length (Bcast.inCh s))); [|lia].
      rewrite Hc. simpl. unfold close. by rewrite Hch. }
    destruct (IH s1 (S k)) as (acts & s' & H2 & Hown & Hm2 & Hd2 & Ho2);
      [lia | by eapply bcast_inv_step | done |].
    exists (Bcast.MainClose :: acts), s'. split; [by eapply bcast_run_cons|].
    split; [by constructor|]. split; [done|]. split; [done|].
    intros (ch & Hch' & Hopen). apply Ho2. exists ch. simpl.
    by rewrite lookup_insert_ne.
Qed.

(** Once cancellation has fired, a goroutine inside its replica's
    [Run] comes back from it. *)
Lemma bcast_rep_back (s : Bcast.state Payload) (idx : nat) (ps : params)
    (p : Fifo.pc nat) (proc : Task nat) :
  done (Bcast.w s) = true → Bcast.reps s !! idx = Some (Bcast.GRun ps p) →
  fifos !! idx = Some (fifo proc) →
  ∃ acts s', run acts s = Some s' ∧ Forall own acts
    ∧ Bcast.reps s' = <[idx := Bcast.GRun ps Fifo.Returned]> (Bcast.reps s)
    ∧ Bcast.main s' = Bcast.main s ∧ Bcast.wg s' = Bcast.wg s
    ∧ done (Bcast.w s') = true.
Proof.
  intros Hd Hg Hf.
  assert (∀ (s1 : Bcast.state Payload) p1, done (Bcast.w s1) = true →
            Bcast.reps s1 !! idx = Some (Bcast.GRun ps p1) →
            (p1 = Fifo.Select ∨ ∃ o, p1 = Fifo.Sending o) →
            step (Bcast.Rep idx Fifo.CtxDone) s1
            = Some (Bcast.with_rep idx (Bcast.GRun ps Fifo.Returned)
                      (Bcast.with_w (Bcast.w s1) s1)))
    as Hcancel.
  { intros s1 p1 Hd1 Hg1 Hp1. simpl. rewrite Hg1, Hf.
    destruct Hp1 as [->|[o ->]]; simpl; by rewrite Hd1. }
  destruct p as [|d|o|].
  - eexists [Bcast.Rep idx Fifo.CtxDone], _.
    split; [eapply bcast_run_cons; [by eapply Hcancel; eauto | done]|].
    split; [by repeat constructor|]. by repeat split.
  - destruct (step (Bcast.Rep idx Fifo.Proc) s) as [s1|] eqn:H1.
    2: { simpl in H1. rewrite Hg, Hf in H1. simpl in H1.
         by destruct (Process (done (Bcast.w s)) d) as [[?|] [?|]]. }
    assert (∃ p1, (p1 = Fifo.Select ∨ ∃ o, p1 = Fifo.Sending o)
              ∧ Bcast.reps s1 = <[idx := Bcast.GRun ps p1]> (Bcast.reps s)
              ∧ Bcast.main s1 = Bcast.main s ∧ Bcast.wg s1 = Bcast.wg s
              ∧ done (Bcast.w s1) = true)
      as (p1 & Hp1 & Hr1 & Hm1 & Hw1 & Hd1).
    { simpl in H1. rewrite Hg, Hf in H1. simpl in H1.
      destruct (Process (done (Bcast.w s)) d) as [[?|] [?|]]; simplify_eq/=;
        eexists; (split; [|by repeat split]); eauto. }
    eexists [Bcast.Rep idx Fifo.Proc; Bcast.Rep idx Fifo.CtxDone], _.
    split.
    { eapply bcast_run_cons; [done|]. eapply bcast_run_cons; [|done].
      eapply Hcancel; [done | by rewrite Hr1, lookup_insert_eq | done]. }
    split; [by repeat constructor|]. simpl.
    rewrite Hr1, insert_insert_eq. by repeat split.
  - eexists [Bcast.Rep idx Fifo.CtxDone], _.
    split; [eapply bcast_run_cons; [by eapply Hcancel; eauto | done]|].
    split; [by repeat constructor|]. by repeat split.
  - exists [], s. split; [done|]. split; [done|].
    by rewrite insert_id.
Qed.

(** ... after it has built its stage context, if it had not yet, and
    then makes its [wg.Done()]. *)
Lemma bcast_rep_done (s : Bcast.state Payload) (idx : nat) (g : Bcast.gpc)
    (proc : Task nat) :
  inv s → done (Bcast.w s) = true →
  Bcast.reps s !! idx = Some g → Bcast.finished g = false →
  fifos !! idx = Some (fifo proc) →
  ∃ acts s', run acts s = Some s' ∧ Forall own acts
    ∧ S (Bcast.wg s') = Bcast.wg s ∧ Bcast.main s' = Bcast.main s
    ∧ done (Bcast.w s') = true.
Proof.
  intros Hinv Hd Hg Hfin Hf.
  assert (∃ acts1 s1 ps, run acts1 s = Some s1 ∧ Forall own acts1
            ∧ Bcast.reps s1 = <[idx := Bcast.GRun ps Fifo.Returned]> (Bcast.reps s)
            ∧ Bcast.main s1 = Bcast.main s ∧ Bcast.wg s1 = Bcast.wg s
            ∧ done (Bcast.w s1) = true)
    as (acts1 & s1 & ps & H1 & Hown1 & Hr1 & Hm1 & Hw1 & Hd1).
  { destruct g as [|ps p|ps]; [| |done].
    - pose proof Hinv as [_ _ _ Hreps _ _ _ HinCh _ _ _].
      assert (idx < Bcast.launched fifos (Bcast.main s)) as Hlt
        by (apply Hreps; eauto).
      destruct (HinCh idx Hlt) as (c & Hc & _).
      set (ps := Params (Position sp) c (Output sp) (Error sp)).
      set (s0 := Bcast.with_rep idx (Bcast.GRun ps Fifo.Select) s).
      assert (step (Bcast.RepInit idx) s = Some s0) as H0
        by (simpl; by rewrite Hg, Hc).
      destruct (bcast_rep_back s0 idx ps Fifo.Select proc)
        as (acts & s1 & H1 & Hown & Hr1 & Hm1 & Hw1 & Hd1);
        [done | by simpl; rewrite lookup_insert_eq | done |].
      exists (Bcast.RepInit idx :: acts), s1, ps.
      split; [by eapply bcast_run_cons|]. split; [by constructor|].
      split; [by rewrite Hr1; simpl; rewrite insert_insert_eq|]. done.
    - destruct (bcast_rep_back s idx ps p proc Hd Hg Hf)
        as (acts & s1 & ? & ? & ? & ? & ? & ?).
      by exists acts, s1, ps. }
  pose proof (unfinished_pos Bcast.finished _ _ _ Hg Hfin) as Hpos.
  destruct Hinv as [_ _ _ _ Hwg _ _ _ _ _ _]. rewrite <- Hwg in Hpos.
  destruct (Bcast.wg s) as [|n] eqn:En; [lia|].
  eexists (acts1 ++ [Bcast.RepDone idx]), _. split.
  { eapply bcast_run_trans; [done|]. eapply bcast_run_cons; [|done].
    simpl. by rewrite Hr1, lookup_insert_eq, Hw1. }
  split; [apply Forall_app; split; [done | by repeat constructor]|].
  by repeat split.
Qed.

(** The goroutines come back one after the other, and [wg.Wait()]
    returns. *)
Lemma bcast_wait_all (k : nat) (s : Bcast.state Payload) :
  (∀ idx, idx < length fifos → ∃ proc, fifos !! idx = Some (fifo proc)) →
  Bcast.wg s = k → inv s → Bcast.main s = Bcast.MWait →
  done (Bcast.w s) = true →
  ∃ acts s', run acts s = Some s' ∧ Forall own acts
    ∧ Bcast.main s' = Bcast.MReturned.
Proof.
  intros Hfifos. revert s. induction k as [|k IH]; intros s Hk Hinv Hm Hd.
  - eexists [Bcast.MainWait], _. split.
    { unfold Bcast.run. simpl. rewrite Hm, Hk. done. }
    split; [by repeat constructor|]. done.
  - pose proof Hinv as [_ _ _ Hreps Hwg _ _ _ _ _ _].
    destruct (unfinished_choose Bcast.finished (Bcast.reps s))
      as (idx & g & Hg & Hfin); [lia|].
    assert (idx < length fifos) as Hidx.
    { rewrite Hm in Hreps. apply Hreps. eauto. }
    destruct (Hfifos idx Hidx) as [proc Hproc].
    destruct (bcast_rep_done s idx g proc Hinv Hd Hg Hfin Hproc)
      as (acts1 & s1 & H1 & Hown1 & Hw1 & Hm1 & Hd1).
    destruct (IH s1) as (acts2 & s' & H2 & Hown2 & Hm2);
      [lia | by eapply bcast_inv_exec | congruence | done |].
    exists (acts1 ++ acts2), s'. split; [by eapply bcast_run_trans|].
    split; [by apply Forall_app|]. done.
Qed.

End bcast_progress.

Section bcast_shutdown.
Context {Payload : Type} (sp : params).

(** X16.  Once cancellation has fired, [Run] of the stage made by
    [Broadcast(tasks...)] can always come to its return by steps of
    the stage alone: the first loop launches what is left to launch,
    the main loop is left, the closing loop closes every private feed,
    every goroutine comes back from its replica and makes its
    [wg.Done()], and [wg.Wait()] returns.  If [Run] is about to clone
    the item it holds, that item has to be there to be cloned. *)
Theorem bcast_cancelled_run_can_return (tasks : list (Task nat))
    (fifos : list (Stage nat)) (h : list Payload)
    (sched : list (Bcast.action Payload)) (s : Bcast.state Payload) :
  Broadcast tasks = broadcast fifos →
  Bcast.run fifos sp sched (Bcast.start fifos sp h) = Some s →
  done (Bcast.w s) = true →
  (∀ data i, Bcast.main s = Bcast.MFan data i → (0 < i)%Z →
     is_Some (Bcast.heap s !! data)) →
  ∃ rest s', Forall BcastRun.own rest
    ∧ Bcast.run fifos sp rest s = Some s'
    ∧ Bcast.main s' = Bcast.MReturned
    ∧ ∀ idx, idx < length tasks →
        (∃ ps, Bcast.reps s' !! idx = Some (Bcast.GDone ps))
        ∧ ∃ c, Bcast.inCh s' !! idx = Some (Some c)
            ∧ chans (Bcast.w s') !! c = Some (Chan [] true).
Proof.
  intros Hmk Hrun Hd Hheap. unfold Broadcast in Hmk.
  destruct (decide (length tasks = 0)); [done|]. simplify_eq.
  set (fifos := FIFO <$> tasks) in *.
  assert (∀ idx, idx < length fifos → ∃ proc, fifos !! idx = Some (fifo proc))
    as Hfifos.
  { intros idx Hidx. unfold fifos in *. rewrite length_fmap in Hidx.
    destruct (lookup_lt_is_Some_2 tasks idx Hidx) as [proc Hproc].
    exists proc. by rewrite list_lookup_fmap, Hproc. }
  pose proof (bcast_inv_run _ _ _ _ _ Hrun) as Hinv.
  assert (∀ s0 : Bcast.state Payload, Bcast.inv fifos sp s0 →
            done (Bcast.w s0) = true →
            (∃ k, Bcast.main s0 = Bcast.MClose k) →
            ∃ rest s', Forall BcastRun.own rest
              ∧ Bcast.run fifos sp rest s0 = Some s'
              ∧ Bcast.main s' = Bcast.MReturned) as Hclose.
  { intros s0 Hinv0 Hd0 [k Hm0].
    destruct (bcast_close_all fifos sp _ s0 k eq_refl Hinv0 Hm0)
      as (acts1 & s1 & H1 & Hown1 & Hm1 & Hd1 & _).
    destruct (bcast_wait_all fifos sp _ s1 Hfifos eq_refl)
      as (acts2 & s' & H2 & Hown2 & Hm2);
      [by eapply bcast_inv_exec | done | congruence |].
    exists (acts1 ++ acts2), s'. split; [by apply Forall_app|].
    split; [by eapply bcast_run_trans|]. done. }
  assert (∃ rest s', Forall BcastRun.own rest
            ∧ Bcast.run fifos sp rest s = Some s'
            ∧ Bcast.main s' = Bcast.MReturned)
    as (rest & s' & Hown & Hrest & Hret).
  { destruct (BcastRun.in_loop (Bcast.main s)) eqn:Hloop.
    - destruct (bcast_leave_loop fifos sp s Hd Hheap Hloop)
        as (acts1 & s1 & H1 & Hown1 & Hm1 & Hd1).
      destruct (Hclose s1) as (acts2 & s' & Hown2 & H2 & Hm2);
        [by eapply bcast_inv_exec | done | by eauto |].
      exists (acts1 ++ acts2), s'. split; [by apply Forall_app|].
      split; [by eapply bcast_run_trans|]. done.
    - destruct (Bcast.main s) as [i| |data i|data i fd|k| |] eqn:Hm; try done.
      + apply Hclose; [done | done | by eauto].
      + destruct (bcast_wait_all fifos sp _ s Hfifos eq_refl Hinv Hm Hd)
          as (acts & s' & ? & ? & ?). by exists acts, s'.
      + by exists [], s. }
  exists rest, s'. do 3 (split; [done|]).
  assert (Bcast.inv fifos sp s') as Hinv' by by eapply bcast_inv_exec.
  destruct Hinv' as [_ _ _ Hreps Hwg Hz _ HinCh _ _ _].
  specialize (Hz Hret). rewrite Hret in *. simpl in *.
  intros idx Hidx. unfold fifos in *. rewrite length_fmap in *. split.
  - apply Hreps in Hidx as [g Hg]. rewrite Hwg in Hz.
    pose proof (unfinished_zero _ _ _ _ Hz Hg) as Hfin.
    destruct g; try done. eauto.
  - destruct (HinCh idx Hidx) as (c & Hc & _ & _ & Hch).
    exists c. split; [done|]. by rewrite bool_decide_eq_true_2 in Hch.
Qed.

End bcast_shutdown.

(** ** Shutting down on concrete executions *)

Section shutdown_executions.
Import Demo DemoRun.

Lemma fixed_cancelled_run_can_return_witness :
  ∃ rest s', Forall FixedRun.own rest
    ∧ Fixed.run fixed_fifos sp rest (fixed_after fixed_cancelled_run) = Some s'
    ∧ Fixed.main s' = Fixed.MReturned
    ∧ (∀ idx, idx < Z.to_nat 2 → Fixed.reps s' !! idx = Some Fixed.GDone)
    ∧ chans (Fixed.w s') = chans (Fixed.w (fixed_after fixed_cancelled_run)).
Proof.
  apply (fixed_cancelled_run_can_return doubler sp 2 fixed_fifos
           fixed_cancelled_run); vm_compute; reflexivity.
Defined.

Lemma bcast_cancelled_run_can_return_witness :
  ∃ rest s', Forall BcastRun.own rest
    ∧ Bcast.run bcast_fifos sp rest (bcast_after bcast_cancelled_run) = Some s'
    ∧ Bcast.main s' = Bcast.MReturned
    ∧ ∀ idx, idx < 2 →
        (∃ ps, Bcast.reps s' !! idx = Some (Bcast.GDone ps))
        ∧ ∃ c, Bcast.inCh s' !! idx = Some (Some c)
            ∧ chans (Bcast.w s') !! c = Some (Chan [] true).
Proof.
  apply (bcast_cancelled_run_can_return sp [forward; forward] bcast_fifos [10]
           bcast_cancelled_run).
  - vm_compute; reflexivity.
  - vm_compute; reflexivity.
  - vm_compute; reflexivity.
  - intros data i Hm _. vm_compute in Hm. injection Hm as <- _.
    vm_compute. eauto.
Defined.

End shutdown_executions.

(** * The broadcast loses no item *)

Section bcast_accounting.
Context {Payload : Type} (fifos : list (Stage nat)) (sp : params).
Hypothesis feeds_differ : Input sp ≠ Output sp.

Local Abbreviation step := (Bcast.step (Payload := Payload) fifos sp).
Local Abbreviation run := (Bcast.run (Payload := Payload) fifos sp).
Local Abbreviation start := (Bcast.start (Payload := Payload) fifos sp).
Local Abbreviation inv := (Bcast.inv (Payload := Payload) fifos sp).
Local Abbreviation fan_inv := (Bcast.fan_inv (Payload := Payload) fifos).
Local Abbreviation feed_accounted :=
  (BcastRun.feed_accounted (Payload := Payload) fifos sp).

Lemma bcast_fed_snoc (l : list (Bcast.action Payload)) (a : Bcast.action Payload) :
  BcastRun.fed (l ++ [a])
  = BcastRun.fed l ++ match a with Bcast.Env (Feed d) => [d] | _ => [] end.
Proof.
  unfold BcastRun.fed. rewrite omap_app. f_equal.
  by destruct a as [[]| | | | | | | | | | |].
Qed.

(** What a step does to the cancellation flag, to the input feed and
    to the logs. *)
Lemma bcast_step_input (a : Bcast.action Payload) (s s' : Bcast.state Payload) :
  inv s → step a s = Some s' →
  (done (Bcast.w s) = true → done (Bcast.w s') = true)
  ∧ ((∀ e, a ≠ Bcast.Env e) → a ≠ Bcast.MainRecv →
     chans (Bcast.w s') !! Input sp = chans (Bcast.w s) !! Input sp)
  ∧ (a ≠ Bcast.MainRecv → Bcast.taken s' = Bcast.taken s)
  ∧ (BcastRun.in_loop (Bcast.main s) = false →
     BcastRun.in_loop (Bcast.main s') = false
     ∧ Bcast.taken s' = Bcast.taken s ∧ Bcast.delivered s' = Bcast.delivered s).
Proof.
  intros Hinv Hstep.
  pose proof Hinv as [Hlen Hb Hcb Hreps Hwg Hret [Hfi Hfo] HinCh Hnil Hinj Hps].
  destruct s as [w h m ic n rs tk dl cl]; simpl in *.
  destruct a as [e| | | | |idx| | |idx|idx fa|idx v|idx]; simpl in Hstep;
    open_step Hstep; simplify_eq/=;
    (split; [|split; [|split]]); try done; try (by intros; simplify_eq).
  - intros Hd. match goal with H : env_step _ _ _ = Some _ |- _ =>
      apply env_step_Some in H as (_ & _ & ? & _) end. eauto.
  - intros He. by destruct (He e).
  - intros _ _. rewrite lookup_insert_ne; [done|].
    intros Heq. destruct Hfi as [ch Hch].
    pose proof (is_fresh (dom (chans w))) as Hfresh. rewrite Heq in Hfresh.
    apply Hfresh. apply elem_of_dom. eauto.
  - match goal with H : recv _ _ = Some _ |- _ =>
      apply recv_Some in H as (-> & _) end. done.
  - match goal with H : close _ _ = Some _ |- _ =>
      apply close_Some in H as (-> & _) end. done.
  - intros _ _.
    match goal with H : close ?c _ = Some _ |- _ =>
      apply close_Some in H as (_ & _ & _ & ch & Hch & _ & ->);
      destruct (decide (c = Input sp)) as [->|Hne]; [|by rewrite lookup_insert_ne]
    end.
    match goal with H : mjoin _ = Some _ |- _ => apply mjoin_Some in H end.
    match goal with H : ic !! ?k = Some (Some _) |- _ =>
      destruct (HinCh k) as (c' & Hc' & Hne & _); [by eapply Hnil|] end.
    by simplify_eq.
  - match goal with H : Fifo.step _ _ _ _ _ = Some _ |- _ =>
      rewrite (fifo_step_done _ _ _ _ _ _ _ H) end. done.
  - intros _ _. destruct Hfi as [ch Hch].
    match goal with
    | H : Fifo.step _ ?ps _ _ _ = Some _, Hg : rs !! idx = Some _ |- _ =>
        destruct (Hps _ _ ps Hg eq_refl) as [Heq Hic];
        assert (idx < Bcast.launched fifos m) as Hlt by (apply Hreps; eauto);
        destruct (HinCh idx Hlt) as (c & Hc & Hci & _);
        rewrite (fifo_step_frame _ _ _ _ _ _ _ (Input sp) ch H Hch); [done| |]
    end.
    + rewrite Heq. simpl. done.
    + intros Hin. by simplify_eq.
Qed.

Lemma bcast_feed_step (l : list (Bcast.action Payload)) (a : Bcast.action Payload)
    (s s' : Bcast.state Payload) :
  inv s → fan_inv s → step a s = Some s' →
  feed_accounted l s → feed_accounted (l ++ [a]) s'.
Proof.
  intros Hinv Hfan Hstep [Heq Hclean].
  destruct (bcast_step_input a s s' Hinv Hstep) as (Hdone & Hin & Htk & Hpost).
  unfold BcastRun.feed_accounted. rewrite bcast_fed_snoc.
  assert (done (Bcast.w s') = false → done (Bcast.w s) = false) as Hmono.
  { intros Hd. destruct (done (Bcast.w s)); [|done]. by rewrite Hdone in Hd. }
  assert (a = Bcast.MainRecv ∨ a ≠ Bcast.MainRecv) as [->|Hnr]
    by (destruct a; (by left) || (by right)).
  { (* an item is taken, or the closed feed is seen *)
    destruct s as [w h m ic n rs tk dl cl]; simpl in *.
    open_step Hstep; simplify_eq/=.
    - match goal with H : recv _ _ = Some _ |- _ =>
        apply recv_Some in H as (_ & _ & _ & ch & Hch & rest & Hi & ->) end.
      rewrite Hch in Heq. simpl in Heq. rewrite Hi in Heq.
      rewrite lookup_insert_eq. simpl. rewrite app_nil_r.
      split; [by rewrite <- app_assoc|]. done.
    - match goal with H : recv _ _ = Some _ |- _ =>
        apply recv_Some in H as (_ & _ & _ & ch & Hch & Hi & Hc & ->) end.
      rewrite app_nil_r. split; [done|]. intros _ _. split.
      + rewrite Hch. destruct ch; simpl in *; by subst.
      + destruct Hfan as [(j & _ & _ & Hcut & Hsent) _ _ _ _ _ _].
        simpl in *. pose proof (Hcut 0 eq_refl) as ->.
        intros idx Hidx. specialize (Hsent idx Hidx).
        unfold Bcast.sent_to in *. simpl in *.
        destruct (decide (idx < 0)); lia. }
  assert ((∃ e, a = Bcast.Env e) ∨ ¬ (∃ e, a = Bcast.Env e)) as [[e ->]|Hne]
    by (destruct a; (by left; eauto) || (by right; intros [? ?])).
  { (* the driver or the upstream stage *)
    destruct s as [w h m ic n rs tk dl cl]; simpl in *.
    open_step Hstep; simplify_eq/=.
    assert (BcastRun.in_loop m = false → done w = false →
            chans w !! Input sp = Some (Chan [] true)) as Hcl
      by (intros; by apply Hclean).
    destruct e as [|d|]; simpl in *; simplify_eq/=.
    - rewrite app_nil_r. split; [done|]. done.
    - match goal with H : send _ _ _ = Some _ |- _ =>
        apply send_Some in H as (Hd & _ & _ & ch & Hch & Hopen & ->) end.
      rewrite Hch in Heq. simpl in Heq.
      rewrite lookup_insert_eq. simpl. split; [by rewrite app_assoc, Heq|].
      intros Hd' Hl. rewrite Hd in Hd'. rewrite (Hcl Hl Hd') in Hch.
      by simplify_eq.
    - match goal with H : close _ _ = Some _ |- _ =>
        apply close_Some in H as (Hd & _ & _ & ch & Hch & Hopen & ->) end.
      rewrite Hch in Heq. simpl in Heq.
      rewrite lookup_insert_eq. simpl. rewrite app_nil_r. split; [done|].
      intros Hd' Hl. rewrite Hd in Hd'. rewrite (Hcl Hl Hd') in Hch.
      by simplify_eq. }
  (* the stage itself, the input feed apart *)
  assert (∀ e, a ≠ Bcast.Env e) as Hne' by (intros e ->; apply Hne; eauto).
  rewrite Hin, Htk by done.
  assert (match a with Bcast.Env (Feed d) => [d] | _ => [] end = []) as ->.
  { destruct a as [e| | | | | | | | | | |]; try done. by destruct (Hne' e). }
  rewrite app_nil_r. split; [done|]. intros Hd Hl.
  destruct (BcastRun.in_loop (Bcast.main s)) eqn:Hloop.
  - (* [Run] leaves its main loop: cancellation has fired *)
    destruct s as [w h m ic n rs tk dl cl]; simpl in *.
    destruct a as [e| | | | |idx| | |idx|idx fa|idx v|idx]; simpl in Hstep;
      open_step Hstep; simplify_eq/=; try done.
    all: try (match goal with
              | H : Fifo.step _ _ _ _ _ = Some _ |- _ =>
                  rewrite (fifo_step_done _ _ _ _ _ _ _ H) in Hd
              end); congruence.
  - destruct (Hpost eq_refl) as (_ & _ & Hdl).
    destruct (Hclean (Hmono Hd) eq_refl) as [Hc Hs]. split; [done|].
    intros idx Hidx. unfold Bcast.sent_to in *. rewrite Hdl. by apply Hs.
Qed.

Lemma bcast_feed_run (h : list Payload) (sched : list (Bcast.action Payload))
    (s : Bcast.state Payload) :
  run sched (start h) = Some s → feed_accounted sched s.
Proof.
  revert sched s. apply exec_ind.
  - split; simpl; [by rewrite lookup_insert_eq | done].
  - intros l a s s' Hrun IH Hstep.
    eapply bcast_feed_step; eauto using bcast_inv_run, bcast_fan_run.
Qed.

(** X18.  The broadcast loses and reorders no item (its input and
    output feed being different channels).  At every point of every
    execution of [Run], the items fed so far are, in the order they
    were fed, those [Run] has taken followed by those still waiting in
    the input feed.  And when [Run] has left its main loop and
    cancellation has not fired, the input feed is closed and empty and
    every replica has been sent exactly one value for each item that
    was fed. *)
Theorem bcast_no_item_lost (h : list Payload)
    (sched : list (Bcast.action Payload)) (s : Bcast.state Payload) :
  run sched (start h) = Some s →
  Bcast.taken s ++ from_option items [] (chans (Bcast.w s) !! Input sp)
  = BcastRun.fed sched
  ∧ (done (Bcast.w s) = false → BcastRun.in_loop (Bcast.main s) = false →
     Bcast.taken s = BcastRun.fed sched
     ∧ chans (Bcast.w s) !! Input sp = Some (Chan [] true)
     ∧ ∀ idx, idx < length fifos →
         length (Bcast.sent_to idx s) = length (BcastRun.fed sched)).
Proof.
  intros Hrun. apply bcast_feed_run in Hrun as [Heq Hclean].
  split; [done|]. intros Hd Hl. destruct (Hclean Hd Hl) as [Hc Hs].
  rewrite Hc in Heq. simpl in Heq. rewrite app_nil_r in Heq.
  split; [done|]. split; [done|]. by rewrite <- Heq.
Qed.

End bcast_accounting.

(** * The broadcast comes to its end when its input does *)

Section bcast_termination.
Context {Payload : Type} (fifos : list (Stage nat)) (sp : params).
Hypothesis feeds_differ : Input sp ≠ Output sp.
Hypothesis all_fifos :
  ∀ idx, idx < length fifos → ∃ proc, fifos !! idx = Some (fifo proc).

Local Abbreviation step := (Bcast.step (Payload := Payload) fifos sp).
Local Abbreviation run := (Bcast.run (Payload := Payload) fifos sp).
Local Abbreviation start := (Bcast.start (Payload := Payload) fifos sp).
Local Abbreviation inv := (Bcast.inv (Payload := Payload) fifos sp).
Local Abbreviation own := (BcastRun.own (Payload := Payload)).
Local Abbreviation alive := (BcastLive.alive (Payload := Payload)).
Local Abbreviation quiet := (BcastLive.quiet (Payload := Payload) sp).
Local Abbreviation out_open := (DynRun.out_open (Data := nat) sp).

Lemma bcast_alive_step (a : Bcast.action Payload) (s s' : Bcast.state Payload) :
  inv s → step a s = Some s' → alive s → alive s'.
Proof.
  intros Hinv Hstep Halive Hd Hl.
  destruct (bcast_step_input fifos sp feeds_differ a s s' Hinv Hstep)
    as (Hdone & _ & _ & Hpost).
  assert (done (Bcast.w s) = false) as Hd0.
  { destruct (done (Bcast.w s)); [|done]. by rewrite Hdone in Hd. }
  assert (BcastRun.in_loop (Bcast.main s) = true) as Hl0.
  { destruct (BcastRun.in_loop (Bcast.main s)); [done|].
    destruct (Hpost eq_refl) as [Hl' _]. congruence. }
  specialize (Halive Hd0 Hl0).
  pose proof Hinv as [Hlen Hb Hcb Hreps Hwg Hret [Hfi Hfo] HinCh Hnil Hinj Hps].
  destruct s as [w h m ic n rs tk dl cl]; simpl in *.
  destruct a as [e| | | | |idx| | |idx|idx fa|idx v|idx]; simpl in Hstep;
    open_step Hstep; simplify_eq/=; try done;
    intros j g Hg;
    try (apply lookup_insert_Some in Hg as [[<- <-]|[? Hg]]); eauto.
  - (* Deliver *)
    match goal with H : Fifo.accept _ ?p = Some _ |- _ =>
      destruct p; simpl in H; by simplify_eq end.
  - (* Rep *)
    match goal with
    | H : Fifo.step _ ?ps ?fa ?p _ = Some _, Hg : rs !! idx = Some _ |- _ =>
        destruct (Hps _ _ ps Hg eq_refl) as [Heq Hic];
        assert (idx < Bcast.launched fifos m) as Hlt by (apply Hreps; eauto);
        destruct (HinCh idx Hlt) as (c & Hc & _ & _ & Hch);
        destruct fa, p; simpl in H; open_step H; simplify_eq/=; try done
    end.
    match goal with H : recv _ _ = Some (None, _) |- _ =>
      apply recv_Some in H as (_ & _ & _ & ch & Hch' & _ & Hcl & _) end.
    rewrite Hch in Hch'. simplify_eq. simpl in Hcl.
    apply bool_decide_eq_true_1 in Hcl. destruct m; simpl in *; (done || lia).
  - (* RepDone *)
    match goal with Hg : rs !! idx = Some (Bcast.GRun _ Fifo.Returned) |- _ =>
      by apply Halive in Hg end.
Qed.

Lemma bcast_alive_exec (l : list (Bcast.action Payload)) (s s' : Bcast.state Payload) :
  run l s = Some s' → inv s → alive s → alive s'.
Proof.
  revert s. induction l as [|a l IH]; intros s Hrun Hinv Hal.
  - unfold Bcast.run in Hrun. simpl in Hrun. by simplify_eq.
  - unfold Bcast.run in Hrun. simpl in Hrun.
    destruct (step a s) as [s1|] eqn:E; [|done]. simpl in Hrun.
    eapply IH; [done | by eapply bcast_inv_step | by eapply bcast_alive_step].
Qed.

Lemma bcast_alive_run (h : list Payload) (sched : list (Bcast.action Payload))
    (s : Bcast.state Payload) :
  run sched (start h) = Some s → alive s.
Proof.
  intros Hrun. eapply bcast_alive_exec; [done | apply bcast_inv_start |].
  intros _ _ idx g. simpl. by rewrite lookup_empty.
Qed.

Lemma bcast_quiet_refl (s : Bcast.state Payload) : quiet s s.
Proof. by repeat split. Qed.

Lemma bcast_quiet_trans (s1 s2 s3 : Bcast.state Payload) :
  quiet s1 s2 → quiet s2 s3 → quiet s1 s3.
Proof.
  intros (A1 & A2 & A3 & A4 & A5 & A6) (B1 & B2 & B3 & B4 & B5 & B6).
  repeat split; try congruence; [|by eauto].
  intros c Hc. rewrite B5 by done. by apply A5.
Qed.

(** A replica waiting to write, the output feed being open, writes
    and is back at its select. *)
Lemma bcast_rep_send (s : Bcast.state Payload) (idx : nat) (ps : params)
    (o : nat) (proc : Task nat) :
  Bcast.reps s !! idx = Some (Bcast.GRun ps (Fifo.Sending o)) →
  Output ps = Output sp → out_open (Bcast.w s) →
  fifos !! idx = Some (fifo proc) →
  ∃ s', step (Bcast.Rep idx Fifo.SendOut) s = Some s'
    ∧ Bcast.reps s' = <[idx := Bcast.GRun ps Fifo.Select]> (Bcast.reps s)
    ∧ quiet s s'.
Proof.
  intros Hg Hout (ch & Hch & Hopen) Hf.
  destruct (send_open (Output sp) o _ _ Hch Hopen) as [w1 Hsend].
  eexists. split; [simpl; by rewrite Hg, Hf; simpl; rewrite Hout, Hsend|].
  split; [done|].
  apply send_Some in Hsend as (Hd & _ & _ & ch' & Hch' & _ & Hw).
  repeat split; simpl; try done.
  - intros c Hc. by rewrite Hw, lookup_insert_ne.
  - intros _. eexists. rewrite Hw, lookup_insert_eq. done.
Qed.

(** A goroutine that has not come back from its replica gets to the
    select of its replica, the output feed being open. *)
Lemma bcast_rep_ready (s : Bcast.state Payload) (idx : nat) (g : Bcast.gpc)
    (proc : Task nat) :
  inv s → out_open (Bcast.w s) →
  Bcast.reps s !! idx = Some g → BcastLive.running g = true →
  fifos !! idx = Some (fifo proc) →
  ∃ acts s' ps, run acts s = Some s' ∧ Forall own acts
    ∧ Bcast.reps s' = <[idx := Bcast.GRun ps Fifo.Select]> (Bcast.reps s)
    ∧ quiet s s'.
Proof.
  intros Hinv Hout Hg Hrun Hf.
  pose proof Hinv as [_ _ _ Hreps _ _ _ HinCh _ _ Hps].
  destruct g as [|ps [|d|o|]|ps]; try done.
  - assert (idx < Bcast.launched fifos (Bcast.main s)) as Hlt
      by (apply Hreps; eauto).
    destruct (HinCh idx Hlt) as (c & Hc & _).
    eexists [Bcast.RepInit idx], _, _. split.
    { unfold Bcast.run. simpl. by rewrite Hg, Hc. }
    split; [by repeat constructor|]. split; [done|]. by repeat split.
  - exists [], s, ps. split; [done|]. split; [done|].
    split; [by rewrite insert_id | apply bcast_quiet_refl].
  - destruct (Hps _ _ ps Hg eq_refl) as [Heq _].
    assert (Output ps = Output sp) as Hops by (by rewrite Heq).
    destruct (Process (done (Bcast.w s)) d) as [[o|] [e|]] eqn:Ep.
    1, 3: (eexists [Bcast.Rep idx Fifo.Proc], _, ps; split;
           [unfold Bcast.run; simpl; by rewrite Hg, Hf; simpl; rewrite Ep|];
           split; [by repeat constructor|]; split; [done|]; by repeat split).
    2: { eexists [Bcast.Rep idx Fifo.Proc], _, ps. split.
         { unfold Bcast.run. simpl. by rewrite Hg, Hf; simpl; rewrite Ep. }
         split; [by repeat constructor|]. split; [done|]. by repeat split. }
    set (s1 := Bcast.with_rep idx (Bcast.GRun ps (Fifo.Sending o))
                 (Bcast.with_w (Bcast.w s) s)).
    assert (step (Bcast.Rep idx Fifo.Proc) s = Some s1) as H1.
    { simpl. by rewrite Hg, Hf; simpl; rewrite Ep. }
    destruct (bcast_rep_send s1 idx ps o proc) as (s' & H2 & Hr2 & Hq2);
      [by simpl; rewrite lookup_insert_eq | done | done | done |].
    exists [Bcast.Rep idx Fifo.Proc; Bcast.Rep idx Fifo.SendOut], s', ps.
    split; [eapply bcast_run_cons; [done|]; by eapply bcast_run_cons|].
    split; [by repeat constructor|].
    split; [by rewrite Hr2; simpl; rewrite insert_insert_eq|].
    eapply bcast_quiet_trans; [|done]. by repeat split.
  - destruct (Hps _ _ ps Hg eq_refl) as [Heq _].
    assert (Output ps = Output sp) as Hops by (by rewrite Heq).
    destruct (bcast_rep_send s idx ps o proc) as (s' & H2 & Hr2 & Hq2);
      [done..|].
    exists [Bcast.Rep idx Fifo.SendOut], s', ps.
    split; [by eapply bcast_run_cons|].
    split; [by repeat constructor|]. done.
Qed.

(** The send on [inCh[i]] finds its receiver: goroutine [i] gets to
    the select of its replica and takes the value. *)
Lemma bcast_deliver (s : Bcast.state Payload) (data : nat) (i : Z) (fd : nat) :
  inv s → alive s → done (Bcast.w s) = false → out_open (Bcast.w s) →
  Bcast.main s = Bcast.MSend data i fd →
  (0 ≤ i < Z.of_nat (length fifos))%Z →
  ∃ acts s', run acts s = Some s' ∧ Forall own acts
    ∧ Bcast.main s' = Bcast.MFan data (i - 1)
    ∧ Bcast.heap s' = Bcast.heap s
    ∧ done (Bcast.w s') = false
    ∧ (∀ c, c ≠ Output sp → chans (Bcast.w s') !! c = chans (Bcast.w s) !! c)
    ∧ out_open (Bcast.w s').
Proof.
  intros Hinv Hal Hd Hout Hm Hi.
  pose proof Hinv as [_ _ _ Hreps _ _ _ _ _ _ _].
  assert (Z.to_nat i < length fifos) as Hidx by lia.
  destruct (proj2 (Hreps (Z.to_nat i))) as [g Hg]; [by rewrite Hm|].
  assert (BcastLive.running g = true) as Hrun.
  { eapply Hal; [done | by rewrite Hm | done]. }
  destruct (all_fifos _ Hidx) as [proc Hproc].
  destruct (bcast_rep_ready s _ g proc Hinv Hout Hg Hrun Hproc)
    as (acts1 & s1 & ps & H1 & Hown1 & Hr1 & (Hm1 & Hh1 & Hw1 & Hd1 & Hc1 & Ho1)).
  assert (inv s1) as Hinv1 by by eapply bcast_inv_exec.
  pose proof Hinv1 as [_ _ _ _ _ _ _ HinCh1 _ _ Hps1].
  assert (Bcast.reps s1 !! Z.to_nat i = Some (Bcast.GRun ps Fifo.Select)) as Hg1
    by (by rewrite Hr1, lookup_insert_eq).
  destruct (Hps1 _ _ ps Hg1 eq_refl) as [_ Hic].
  destruct (HinCh1 (Z.to_nat i)) as (c & Hc & _ & _ & Hch);
    [by rewrite Hm1, Hm|].
  assert (c = Input ps) as -> by congruence.
  rewrite Hm1, Hm in Hch. unfold Bcast.closed_upto in Hch.
  rewrite bool_decide_eq_false_2 in Hch by lia.
  eexists (acts1 ++ [Bcast.Deliver (Z.to_nat i)]), _. split.
  { eapply bcast_run_trans; [done|]. unfold Bcast.run. simpl.
    rewrite Hm1, Hm, Hc. simpl. rewrite Hch. simpl. rewrite Hg1.
    destruct (decide (Input ps = Input ps)); [|done]. simpl. done. }
  split; [apply Forall_app; split; [done | by repeat constructor]|].
  simpl. split; [done|]. split; [done|]. split; [congruence|].
  split; [done | by apply Ho1].
Qed.

(** The fan-out of one item goes through. *)
Lemma bcast_fan_item (k : nat) (s : Bcast.state Payload) (data : nat) (i : Z) :
  Z.to_nat (i + 1) = k →
  inv s → alive s → done (Bcast.w s) = false → out_open (Bcast.w s) →
  Bcast.main s = Bcast.MFan data i →
  (-1 ≤ i < Z.of_nat (length fifos))%Z →
  ((0 < i)%Z → data < length (Bcast.heap s)) →
  ∃ acts s', run acts s = Some s' ∧ Forall own acts
    ∧ Bcast.main s' = Bcast.MSelect
    ∧ length (Bcast.heap s) ≤ length (Bcast.heap s')
    ∧ done (Bcast.w s') = false
    ∧ (∀ c, c ≠ Output sp → chans (Bcast.w s') !! c = chans (Bcast.w s) !! c)
    ∧ out_open (Bcast.w s').
Proof.
  revert s i. induction k as [|k IH]; intros s i Hk Hinv Hal Hd Hout Hm Hi Hdata.
  - eexists [Bcast.MainFan], _. split.
    { unfold Bcast.run. simpl. rewrite Hm.
      destruct (decide (0 ≤ i)%Z); [lia|done]. }
    split; [by repeat constructor|]. by repeat split.
  - assert (∃ s1 fd, step Bcast.MainFan s = Some s1
              ∧ Bcast.main s1 = Bcast.MSend data i fd
              ∧ Bcast.w s1 = Bcast.w s
              ∧ length (Bcast.heap s) ≤ length (Bcast.heap s1))
      as (s1 & fd & H1 & Hm1 & Hw1 & Hh1).
    { simpl. rewrite Hm. destruct (decide (0 ≤ i)%Z); [|lia].
      destruct (decide (i ≠ 0%Z)).
      - destruct (lookup_lt_is_Some_2 (Bcast.heap s) data) as [p Hp];
          [apply Hdata; lia|].
        unfold Bcast.Clone. rewrite Hp. simpl. eexists _, _.
        split; [done|]. simpl. rewrite length_app. simpl.
        split; [done|]. split; [done|]. lia.
      - eexists _, _. split; [done|]. simpl. split; [done|]. split; [done|]. lia. }
    assert (inv s1) as Hinv1 by by eapply bcast_inv_step.
    assert (alive s1) as Hal1 by exact (bcast_alive_step _ _ _ Hinv H1 Hal).
    destruct (bcast_deliver s1 data i fd)
      as (acts2 & s2 & H2 & Hown2 & Hm2 & Hh2 & Hd2 & Hc2 & Ho2);
      [done | done | congruence | by rewrite Hw1 | done | lia |].
    destruct (IH s2 (i - 1)%Z)
      as (acts3 & s' & H3 & Hown3 & Hm3 & Hh3 & Hd3 & Hc3 & Ho3);
      [lia | by eapply bcast_inv_exec
       | exact (bcast_alive_exec _ _ _ H2 Hinv1 Hal1)
       | done | done | done | lia
       | intros ?; rewrite Hh2; assert (data < length (Bcast.heap s)) by
           (apply Hdata; lia); lia |].
    exists (Bcast.MainFan :: acts2 ++ acts3), s'.
    split; [eapply bcast_run_cons; [done|]; by eapply bcast_run_trans|].
    split; [constructor; [done | by apply Forall_app]|].
    split; [done|]. split; [rewrite Hh2 in Hh3; lia|]. split; [done|].
    split; [|done].
    intros c Hc. rewrite Hc3, Hc2, Hw1 by done. done.
Qed.

(** With the input feed closed and the output feed open, [Run] takes
    the waiting items one after the other, fans each of them out, and
    leaves its main loop. *)
Lemma bcast_accept_all (l : list nat) (s : Bcast.state Payload) :
  inv s → alive s → done (Bcast.w s) = false → out_open (Bcast.w s) →
  Bcast.main s = Bcast.MSelect →
  chans (Bcast.w s) !! Input sp = Some (Chan l true) →
  (∀ d, d ∈ l → d < length (Bcast.heap s)) →
  ∃ acts s', run acts s = Some s' ∧ Forall own acts
    ∧ Bcast.main s' = Bcast.MClose 0
    ∧ done (Bcast.w s') = false ∧ out_open (Bcast.w s').
Proof.
  revert s. induction l as [|d l IH]; intros s Hinv Hal Hd Hout Hm Hin Hvalid.
  - eexists [Bcast.MainRecv], _. split.
    { unfold Bcast.run. simpl. rewrite Hm. unfold recv. by rewrite Hin. }
    split; [by repeat constructor|]. by repeat split.
  - set (w1 := set_chan (Input sp) (Chan l true) (Bcast.w s)).
    destruct (step Bcast.MainRecv s) as [s1|] eqn:H1.
    2: { simpl in H1. rewrite Hm in H1. unfold recv in H1. by rewrite Hin in H1. }
    assert (Bcast.main s1 = Bcast.MFan d (Z.of_nat (length fifos) - 1)
            ∧ Bcast.w s1 = w1 ∧ Bcast.heap s1 = Bcast.heap s)
      as (Hm1 & Hw1 & Hh1).
    { simpl in H1. rewrite Hm in H1. unfold recv in H1. rewrite Hin in H1.
      by simplify_eq/=. }
    assert (out_open (Bcast.w s1)) as Hout1.
    { destruct Hout as (ch & Hch & Hopen). exists ch. rewrite Hw1. simpl.
      by rewrite lookup_insert_ne. }
    assert (inv s1) as Hinv1 by by eapply bcast_inv_step.
    assert (alive s1) as Hal1 by exact (bcast_alive_step _ _ _ Hinv H1 Hal).
    destruct (bcast_fan_item _ s1 d (Z.of_nat (length fifos) - 1) eq_refl)
      as (acts2 & s2 & H2 & Hown2 & Hm2 & Hh2 & Hd2 & Hc2 & Ho2).
    { done. }
    { done. }
    { by rewrite Hw1. }
    { done. }
    { done. }
    { lia. }
    { intros _. rewrite Hh1. apply Hvalid. by left. }
    destruct (IH s2) as (acts3 & s' & H3 & Hown3 & Hm3 & Hd3 & Ho3).
    { by eapply bcast_inv_exec. }
    { exact (bcast_alive_exec _ _ _ H2 Hinv1 Hal1). }
    { done. }
    { done. }
    { done. }
    { rewrite Hc2 by done. rewrite Hw1. simpl. by rewrite lookup_insert_eq. }
    { intros d' Hd'. rewrite Hh1 in Hh2.
      assert (d' < length (Bcast.heap s)); [|lia]. apply Hvalid. by right. }
    exists (Bcast.MainRecv :: acts2 ++ acts3), s'.
    split; [eapply bcast_run_cons; [done|]; by eapply bcast_run_trans|].
    split; [constructor; [done | by apply Forall_app]|]. done.
Qed.

(** Once its private feed is closed, a goroutine comes back from its
    replica and makes its [wg.Done()]. *)
Lemma bcast_rep_finish (s : Bcast.state Payload) (idx : nat) (g : Bcast.gpc)
    (proc : Task nat) :
  inv s → Bcast.main s = Bcast.MWait → out_open (Bcast.w s) →
  Bcast.reps s !! idx = Some g → Bcast.finished g = false →
  fifos !! idx = Some (fifo proc) →
  ∃ acts s', run acts s = Some s' ∧ Forall own acts
    ∧ S (Bcast.wg s') = Bcast.wg s ∧ Bcast.main s' = Bcast.MWait
    ∧ done (Bcast.w s') = done (Bcast.w s) ∧ out_open (Bcast.w s').
Proof.
  intros Hinv Hm Hout Hg Hfin Hf.
  assert (∃ acts1 s1 ps, run acts1 s = Some s1 ∧ Forall own acts1
            ∧ Bcast.reps s1
              = <[idx := Bcast.GRun ps Fifo.Returned]> (Bcast.reps s)
            ∧ quiet s s1)
    as (acts1 & s1 & ps & H1 & Hown1 & Hr1 & (Hm1 & Hh1 & Hw1 & Hd1 & Hc1 & Ho1)).
  { destruct (BcastLive.running g) eqn:Hrun.
    - destruct (bcast_rep_ready s idx g proc Hinv Hout Hg Hrun Hf)
        as (acts0 & s0 & ps & H0 & Hown0 & Hr0 & Hq0).
      assert (inv s0) as Hinv0 by by eapply bcast_inv_exec.
      pose proof Hinv0 as [_ _ _ Hreps0 _ _ _ HinCh0 _ _ Hps0].
      assert (Bcast.reps s0 !! idx = Some (Bcast.GRun ps Fifo.Select)) as Hg0
        by (by rewrite Hr0, lookup_insert_eq).
      pose proof Hq0 as (Hm0 & _).
      assert (idx < length fifos) as Hidx.
      { rewrite Hm0, Hm in Hreps0. apply Hreps0. eauto. }
      destruct (Hps0 _ _ ps Hg0 eq_refl) as [_ Hic].
      destruct (HinCh0 idx) as (c & Hc & _ & _ & Hch); [by rewrite Hm0, Hm|].
      assert (c = Input ps) as -> by congruence.
      rewrite Hm0, Hm in Hch. unfold Bcast.closed_upto in Hch.
      rewrite bool_decide_eq_true_2 in Hch by done.
      eexists (acts0 ++ [Bcast.Rep idx Fifo.Recv]), _, ps. split.
      { eapply bcast_run_trans; [done|]. unfold Bcast.run. simpl.
        rewrite Hg0, Hf. simpl. unfold recv. rewrite Hch. simpl. done. }
      split; [apply Forall_app; split; [done | by repeat constructor]|].
      split; [by simpl; rewrite Hr0, insert_insert_eq|].
      eapply bcast_quiet_trans; [done|]. by repeat split.
    - destruct g as [|ps [| | |]|ps]; try done.
      exists [], s, ps. split; [done|]. split; [done|].
      split; [by rewrite insert_id | apply bcast_quiet_refl]. }
  pose proof (unfinished_pos Bcast.finished _ _ _ Hg Hfin) as Hpos.
  destruct Hinv as [_ _ _ _ Hwg _ _ _ _ _ _]. rewrite <- Hwg in Hpos.
  destruct (Bcast.wg s) as [|n] eqn:En; [lia|].
  eexists (acts1 ++ [Bcast.RepDone idx]), _. split.
  { eapply bcast_run_trans; [done|]. eapply bcast_run_cons; [|done].
    simpl. by rewrite Hr1, lookup_insert_eq, Hw1. }
  split; [apply Forall_app; split; [done | by repeat constructor]|].
  simpl. split; [done|]. split; [congruence|]. split; [done|]. by apply Ho1.
Qed.

(** The goroutines come back one after the other, and [wg.Wait()]
    returns. *)
Lemma bcast_wait_all_open (k : nat) (s : Bcast.state Payload) :
  Bcast.wg s = k → inv s → Bcast.main s = Bcast.MWait →
  out_open (Bcast.w s) →
  ∃ acts s', run acts s = Some s' ∧ Forall own acts
    ∧ Bcast.main s' = Bcast.MReturned
    ∧ done (Bcast.w s') = done (Bcast.w s).
Proof.
  revert s. induction k as [|k IH]; intros s Hk Hinv Hm Hout.
  - eexists [Bcast.MainWait], _. split.
    { unfold Bcast.run. simpl. rewrite Hm, Hk. done. }
    split; [by repeat constructor|]. done.
  - pose proof Hinv as [_ _ _ Hreps Hwg _ _ _ _ _ _].
    destruct (unfinished_choose Bcast.finished (Bcast.reps s))
      as (idx & g & Hg & Hfin); [lia|].
    assert (idx < length fifos) as Hidx.
    { rewrite Hm in Hreps. apply Hreps. eauto. }
    destruct (all_fifos idx Hidx) as [proc Hproc].
    destruct (bcast_rep_finish s idx g proc Hinv Hm Hout Hg Hfin Hproc)
      as (acts1 & s1 & H1 & Hown1 & Hw1 & Hm1 & Hd1 & Ho1).
    destruct (IH s1) as (acts2 & s' & H2 & Hown2 & Hm2 & Hd2);
      [lia | by eapply bcast_inv_exec | done | done |].
    exists (acts1 ++ acts2), s'. split; [by eapply bcast_run_trans|].
    split; [by apply Forall_app|]. split; [done|]. congruence.
Qed.

(** From its closing loop on, [Run] comes to its return. *)
Lemma bcast_close_returns (s : Bcast.state Payload) :
  inv s → BcastRun.in_loop (Bcast.main s) = false →
  out_open (Bcast.w s) →
  ∃ acts s', run acts s = Some s' ∧ Forall own acts
    ∧ Bcast.main s' = Bcast.MReturned
    ∧ done (Bcast.w s') = done (Bcast.w s).
Proof.
  intros Hinv Hl Hout.
  destruct (Bcast.main s) as [i| |data i|data i fd|k| |] eqn:Hm; try done.
  - destruct (bcast_close_all fifos sp _ s k eq_refl Hinv Hm)
      as (acts1 & s1 & H1 & Hown1 & Hm1 & Hd1 & Ho1).
    destruct (bcast_wait_all_open _ s1 eq_refl)
      as (acts2 & s' & H2 & Hown2 & Hm2 & Hd2);
      [by eapply bcast_inv_exec | done | by apply Ho1 |].
    exists (acts1 ++ acts2), s'. split; [by eapply bcast_run_trans|].
    split; [by apply Forall_app|]. split; [done|]. congruence.
  - by apply (bcast_wait_all_open _ s eq_refl).
  - exists [], s. by repeat split.
Qed.

(** With the input feed closed and the output feed open, and
    cancellation not fired, [Run] gets from anywhere in its main loop
    to its closing loop, every waiting item fanned out on the way. *)
Lemma bcast_loop_ends (s : Bcast.state Payload) :
  inv s → Bcast.fan_inv fifos s → alive s →
  done (Bcast.w s) = false → out_open (Bcast.w s) →
  DynRun.in_closed sp (Bcast.w s) →
  (∀ d, d ∈ DynRun.queued (Input sp) (Bcast.w s) →
     d < length (Bcast.heap s)) →
  (∀ data i, Bcast.main s = Bcast.MFan data i → (0 < i)%Z →
     data < length (Bcast.heap s)) →
  BcastRun.in_loop (Bcast.main s) = true →
  ∃ acts s', run acts s = Some s' ∧ Forall own acts
    ∧ Bcast.main s' = Bcast.MClose 0
    ∧ done (Bcast.w s') = false ∧ out_open (Bcast.w s').
Proof.
  intros Hinv Hfan Hal Hd Hout (chi & Hin & Hcl) Hq Hheap Hl.
  unfold DynRun.queued in Hq. rewrite Hin in Hq. simpl in Hq.
  assert (chi = Chan (items chi) true) as Hchi
    by (destruct chi; simpl in *; by subst).
  rewrite Hchi in Hin.
  assert (∀ s0 : Bcast.state Payload, inv s0 → alive s0 →
            done (Bcast.w s0) = false → out_open (Bcast.w s0) →
            Bcast.main s0 = Bcast.MSelect →
            chans (Bcast.w s0) !! Input sp = Some (Chan (items chi) true) →
            length (Bcast.heap s) ≤ length (Bcast.heap s0) →
            ∃ acts s', run acts s0 = Some s' ∧ Forall own acts
              ∧ Bcast.main s' = Bcast.MClose 0
              ∧ done (Bcast.w s') = false ∧ out_open (Bcast.w s')) as Hsel.
  { intros s0 Hinv0 Hal0 Hd0 Hout0 Hm0 Hin0 Hh0.
    apply (bcast_accept_all (items chi) s0); try done.
    intros d Hdin. specialize (Hq d Hdin). lia. }
  assert (∀ (s0 : Bcast.state Payload) data i, inv s0 → alive s0 →
            done (Bcast.w s0) = false → out_open (Bcast.w s0) →
            Bcast.main s0 = Bcast.MFan data i →
            (-1 ≤ i < Z.of_nat (length fifos))%Z →
            ((0 < i)%Z → data < length (Bcast.heap s0)) →
            chans (Bcast.w s0) !! Input sp = Some (Chan (items chi) true) →
            length (Bcast.heap s) ≤ length (Bcast.heap s0) →
            ∃ acts s', run acts s0 = Some s' ∧ Forall own acts
              ∧ Bcast.main s' = Bcast.MClose 0
              ∧ done (Bcast.w s') = false ∧ out_open (Bcast.w s')) as Hfanned.
  { intros s0 data i Hinv0 Hal0 Hd0 Hout0 Hm0 Hi0 Hv0 Hin0 Hh0.
    destruct (bcast_fan_item _ s0 data i eq_refl Hinv0 Hal0 Hd0 Hout0 Hm0 Hi0 Hv0)
      as (acts1 & s1 & H1 & Hown1 & Hm1 & Hh1 & Hd1 & Hc1 & Ho1).
    destruct (Hsel s1) as (acts2 & s' & H2 & Hown2 & Hm2 & Hd2 & Ho2).
    { by eapply bcast_inv_exec. }
    { exact (bcast_alive_exec _ _ _ H1 Hinv0 Hal0). }
    { done. }
    { done. }
    { done. }
    { by rewrite Hc1. }
    { lia. }
    exists (acts1 ++ acts2), s'. split; [by eapply bcast_run_trans|].
    split; [by apply Forall_app|]. done. }
  pose proof Hfan as [_ _ Hmain _ _ _ _].
  destruct (Bcast.main s) as [i| |data i|data i fd|k| |] eqn:Hm; try done.
  - destruct (bcast_spawn_all fifos sp _ s i eq_refl Hm)
      as (acts1 & s1 & H1 & Hown1 & Hm1 & Hd1 & Hh1 & Hc1).
    destruct (Hsel s1) as (acts2 & s' & H2 & Hown2 & Hm2 & Hd2 & Ho2).
    { by eapply bcast_inv_exec. }
    { exact (bcast_alive_exec _ _ _ H1 Hinv Hal). }
    { congruence. }
    { destruct Hout as (ch & Hch & Hopen). exists ch. eauto. }
    { done. }
    { by apply Hc1. }
    { by rewrite Hh1. }
    exists (acts1 ++ acts2), s'. split; [by eapply bcast_run_trans|].
    split; [by apply Forall_app|]. done.
  - by apply Hsel.
  - destruct Hmain as [Hi _]. apply (Hfanned s data i); try done.
    intros ?. by apply (Hheap data i eq_refl).
  - destruct Hmain as (Hi & _ & _ & Hclone).
    destruct (bcast_deliver s data i fd)
      as (acts1 & s1 & H1 & Hown1 & Hm1 & Hh1 & Hd1 & Hc1 & Ho1);
      [done | done | done | done | by rewrite Hm | done |].
    destruct (Hfanned s1 data (i - 1)%Z)
      as (acts2 & s' & H2 & Hown2 & Hm2 & Hd2 & Ho2).
    { by eapply bcast_inv_exec. }
    { exact (bcast_alive_exec _ _ _ H1 Hinv Hal). }
    { done. }
    { done. }
    { done. }
    { lia. }
    { intros Hpos. rewrite Hh1. destruct Hclone as (_ & ? & ? & _); lia. }
    { by rewrite Hc1. }
    { by rewrite Hh1. }
    exists (acts1 ++ acts2), s'. split; [by eapply bcast_run_trans|].
    split; [by apply Forall_app|]. done.
Qed.

End bcast_termination.

(** * A dynamic pool runs once *)

Section dyn_single_use.
Context {Data : Type} (task : Task Data) (sp sp' : params).

(** X17.  A stage made by [DynamicPool] can run only once.  The token
    pool is a field of the stage, and the final loop of [Run] leaves
    it empty.  So in a later [Run] of the same stage, whatever its
    stage context: no token is ever in the pool, no worker is ever
    launched (an item taken from the input feed is held for ever, or
    dropped on cancellation), the first turn of the final loop blocks,
    and [Run] never returns, cancelled or not. *)
Theorem dyn_second_run_never_returns (max : Z) (tp : tokens)
    (sched1 : list (Dyn.action Data)) (s1 : Dyn.state Data)
    (sched2 : list (Dyn.action Data)) (s2 : Dyn.state Data) :
  DynamicPool task max = Some (dynamicPool task tp) →
  Dyn.run task sp sched1 (Dyn.start sp tp) = Some s1 →
  Dyn.main s1 = Dyn.MReturned →
  Dyn.run task sp' sched2 (Dyn.start sp' (Dyn.pool s1)) = Some s2 →
  Dyn.main s2 ≠ Dyn.MReturned
  ∧ len (Dyn.pool s2) = 0 ∧ Dyn.spawned s2 = 0 ∧ Dyn.units s2 = ∅
  ∧ Dyn.step task sp' Dyn.MainToken s2 = None
  ∧ Dyn.step task sp' Dyn.MainDrain s2 = None.
Proof.
  intros Hmk Hrun1 Hret Hrun2. apply DynamicPool_Some in Hmk as [Hpos ->].
  apply dyn_inv_run in Hrun1 as [Hcap Hsum _].
  rewrite Hret in Hsum. simpl in Hsum.
  assert (len (Dyn.pool s2) = 0 ∧ cap (Dyn.pool s2) = Z.to_nat max
          ∧ Dyn.spawned s2 = 0 ∧ Dyn.units s2 = ∅
          ∧ (Dyn.main s2 = Dyn.MLoop ∨ (∃ d, Dyn.main s2 = Dyn.MAcquire d)
             ∨ Dyn.main s2 = Dyn.MDrain 0)) as (Hlen & Hcap2 & Hsp & Hus & Hm).
  { revert sched2 s2 Hrun2. apply exec_ind.
    - simpl. split; [lia|]. split; [done|]. split; [done|]. split; [done|].
      by left.
    - intros l a s s' _ (Hlen & Hcap' & Hsp & Hus & Hm) Hstep.
      destruct s as [w p m us k]; simpl in *. subst us k.
      destruct a; simpl in Hstep; unfold take in Hstep;
        rewrite ?Hlen, ?lookup_empty in Hstep;
        open_step Hstep; simplify_eq/=;
        try (by repeat split; eauto);
        try (by destruct Hm as [?|[[? ?]|?]]).
      destruct Hm as [?|[[? ?]|?]]; simplify_eq. lia. }
  split; [by destruct Hm as [-> | [[d ->] | ->]]|].
  do 3 (split; [done|]). simpl. unfold take. rewrite Hlen.
  split; [by destruct (Dyn.main s2)|].
  destruct Hm as [-> | [[d ->] | ->]]; try done.
  destruct (decide (0 < cap (Dyn.pool s2))); [done|lia].
Qed.

End dyn_single_use.

(** ** Later runs and complete runs on concrete executions *)

Section more_executions.
Import Demo DemoRun.

Lemma dyn_second_run_never_returns_witness :
  Dyn.run doubler sp dyn_second_run
    (Dyn.start sp (Dyn.pool (dyn_after dyn_full_run)))
  = Some (Dyn.State (World true
                       (<[0 := Chan [] false]> (<[1 := Chan [] false]> ∅))
                       (<[2 := []]> ∅) [])
                    (Tokens 2 0) (Dyn.MDrain 0) ∅ 0)
  ∧ Dyn.step doubler sp Dyn.MainDrain
      (Dyn.State (World true
                    (<[0 := Chan [] false]> (<[1 := Chan [] false]> ∅))
                    (<[2 := []]> ∅) [])
                 (Tokens 2 0) (Dyn.MDrain 0) ∅ 0) = None.
Proof.
  assert (Dyn.run doubler sp dyn_second_run
            (Dyn.start sp (Dyn.pool (dyn_after dyn_full_run)))
          = Some (Dyn.State (World true
                               (<[0 := Chan [] false]> (<[1 := Chan [] false]> ∅))
                               (<[2 := []]> ∅) [])
                            (Tokens 2 0) (Dyn.MDrain 0) ∅ 0)) as Hrun
    by (vm_compute; reflexivity).
  split; [exact Hrun|].
  destruct (dyn_second_run_never_returns doubler sp sp 2 (Tokens 2 2)
              dyn_full_run (dyn_after dyn_full_run) dyn_second_run _
              ltac:(vm_compute; reflexivity) ltac:(vm_compute; reflexivity)
              ltac:(vm_compute; reflexivity) Hrun)
    as (_ & _ & _ & _ & _ & Hdrain).
  exact Hdrain.
Defined.

Lemma bcast_no_item_lost_witness :
  Bcast.taken (bcast_after bcast_full_run) = BcastRun.fed bcast_full_run
  ∧ chans (Bcast.w (bcast_after bcast_full_run)) !! Input sp
    = Some (Chan [] true)
  ∧ ∀ idx, idx < length bcast_fifos →
      length (Bcast.sent_to idx (bcast_after bcast_full_run))
      = length (BcastRun.fed bcast_full_run).
Proof.
  destruct (bcast_no_item_lost bcast_fifos sp ltac:(simpl; lia) [10]
              bcast_full_run (bcast_after bcast_full_run))
    as [_ Hclean]; [vm_compute; reflexivity|].
  apply Hclean; vm_compute; reflexivity.
Defined.

End more_executions.

Section bcast_normal_end.
Context {Payload : Type} (sp : params).

Lemma bcast_fed_own (l : list (Bcast.action Payload)) :
  Forall BcastRun.own l → BcastRun.fed l = [].
Proof.
  induction 1 as [|a l Ha _ IH]; [done|].
  destruct a; try done; exact IH.
Qed.

(** X19.  The broadcast comes to its end when its input does.  In an
    execution of [Run] of the stage made by [Broadcast(tasks...)] in
    which cancellation has not fired, with the input feed closed and
    the output feed open (a write to it is taken), and the item [Run]
    is about to clone and the items waiting in the input feed
    referring to payloads that exist: [Run] can always come to its
    return by steps of the stage alone.  On that way every send on a
    private feed finds its receiver, every waiting item is taken and
    fanned out, the private feeds are closed and every goroutine comes
    back and makes its [wg.Done()]; at the end every item that was fed
    has been taken and every replica has been sent one value for each
    of them. *)
Theorem bcast_closed_input_run_can_return (tasks : list (Task nat))
    (fifos : list (Stage nat)) (h : list Payload)
    (sched : list (Bcast.action Payload)) (s : Bcast.state Payload) :
  Broadcast tasks = broadcast fifos →
  Bcast.run fifos sp sched (Bcast.start fifos sp h) = Some s →
  done (Bcast.w s) = false →
  DynRun.in_closed sp (Bcast.w s) → DynRun.out_open sp (Bcast.w s) →
  (∀ d, d ∈ DynRun.queued (Input sp) (Bcast.w s) →
     is_Some (Bcast.heap s !! d)) →
  (∀ data i, Bcast.main s = Bcast.MFan data i → (0 < i)%Z →
     is_Some (Bcast.heap s !! data)) →
  ∃ rest s', Forall BcastRun.own rest
    ∧ Bcast.run fifos sp rest s = Some s'
    ∧ Bcast.main s' = Bcast.MReturned
    ∧ done (Bcast.w s') = false
    ∧ Bcast.taken s' = BcastRun.fed sched
    ∧ ∀ idx, idx < length tasks →
        length (Bcast.sent_to idx s') = length (BcastRun.fed sched)
        ∧ ∃ ps, Bcast.reps s' !! idx = Some (Bcast.GDone ps).
Proof.
  intros Hmk Hrun Hd Hin Hout Hq Hheap. unfold Broadcast in Hmk.
  destruct (decide (length tasks = 0)); [done|]. simplify_eq.
  set (fifos := FIFO <$> tasks) in *.
  assert (Input sp ≠ Output sp) as Hio.
  { destruct Hin as (ci & Hci & Hcl), Hout as (co & Hco & Hopen).
    intros Heq. rewrite Heq, Hco in Hci. simplify_eq. congruence. }
  assert (∀ idx, idx < length fifos → ∃ proc, fifos !! idx = Some (fifo proc))
    as Hfifos.
  { intros idx Hidx. unfold fifos in *. rewrite length_fmap in Hidx.
    destruct (lookup_lt_is_Some_2 tasks idx Hidx) as [proc Hproc].
    exists proc. by rewrite list_lookup_fmap, Hproc. }
  pose proof (bcast_inv_run _ _ _ _ _ Hrun) as Hinv.
  pose proof (bcast_fan_run _ _ _ _ _ Hrun) as Hfan.
  pose proof (bcast_alive_run fifos sp Hio _ _ _ Hrun) as Hal.
  assert (∃ rest s', Forall BcastRun.own rest
            ∧ Bcast.run fifos sp rest s = Some s'
            ∧ Bcast.main s' = Bcast.MReturned ∧ done (Bcast.w s') = false)
    as (rest & s' & Hown & Hrest & Hret & Hd').
  { destruct (BcastRun.in_loop (Bcast.main s)) eqn:Hloop.
    - destruct (bcast_loop_ends fifos sp Hio Hfifos s)
        as (acts1 & s1 & H1 & Hown1 & Hm1 & Hd1 & Ho1); try done.
      { intros d Hdq. by apply lookup_lt_is_Some, Hq. }
      { intros data i Hm Hi. by eapply lookup_lt_is_Some, Hheap. }
      destruct (bcast_close_returns fifos sp Hio Hfifos s1)
        as (acts2 & s' & H2 & Hown2 & Hm2 & Hd2);
        [by eapply bcast_inv_exec | by rewrite Hm1 | done |].
      exists (acts1 ++ acts2), s'. split; [by apply Forall_app|].
      split; [by eapply bcast_run_trans|]. split; [done|]. congruence.
    - destruct (bcast_close_returns fifos sp Hio Hfifos s Hinv Hloop Hout)
        as (acts & s' & ? & ? & ? & ?).
      exists acts, s'. do 3 (split; [done|]). congruence. }
  exists rest, s'. do 4 (split; [done|]).
  assert (Bcast.run fifos sp (sched ++ rest) (Bcast.start fifos sp h) = Some s')
    as Hall by by eapply bcast_run_trans.
  destruct (bcast_feed_run fifos sp Hio _ _ _ Hall) as [Heq Hclean].
  destruct Hclean as [Hc Hs]; [done | by rewrite Hret |].
  rewrite Hc in Heq. simpl in Heq.
  unfold BcastRun.fed in Heq. rewrite app_nil_r, omap_app in Heq.
  fold (BcastRun.fed sched) in Heq. fold (BcastRun.fed rest) in Heq.
  rewrite (bcast_fed_own rest), app_nil_r in Heq by done.
  split; [done|].
  apply bcast_inv_run in Hall as [_ _ _ Hreps Hwg Hz _ _ _ _ _].
  specialize (Hz Hret). rewrite Hret in *. simpl in *.
  intros idx Hidx. unfold fifos in *. rewrite length_fmap in *. split.
  - rewrite <- Heq. by apply Hs.
  - apply Hreps in Hidx as [g Hg]. rewrite Hwg in Hz.
    pose proof (unfinished_zero _ _ _ _ Hz Hg) as Hfin.
    destruct g; try done. eauto.
Qed.

End bcast_normal_end.

Section bcast_end_executions.
Import Demo DemoRun.

Lemma bcast_closed_input_run_can_return_witness :
  ∃ rest s', Forall BcastRun.own rest
    ∧ Bcast.run bcast_fifos sp rest (bcast_after bcast_closed_run) = Some s'
    ∧ Bcast.main s' = Bcast.MReturned
    ∧ done (Bcast.w s') = false
    ∧ Bcast.taken s' = BcastRun.fed bcast_closed_run
    ∧ ∀ idx, idx < 2 →
        length (Bcast.sent_to idx s') = length (BcastRun.fed bcast_closed_run)
        ∧ ∃ ps, Bcast.reps s' !! idx = Some (Bcast.GDone ps).
Proof.
  apply (bcast_closed_input_run_can_return sp [forward; forward] bcast_fifos
           [10] bcast_closed_run).
  - vm_compute; reflexivity.
  - vm_compute; reflexivity.
  - vm_compute; reflexivity.
  - exists (Chan [0] true). split; vm_compute; reflexivity.
  - exists (Chan [] false). split; vm_compute; reflexivity.
  - intros d Hd. change (d ∈ [0]) in Hd.
    apply list_elem_of_singleton in Hd as ->. vm_compute. eauto.
  - intros data i Hm _. vm_compute in Hm. injection Hm as <- _.
    vm_compute. eauto.
Defined.

End bcast_end_executions.
